(** * Polyglot stream engine: a shallow embedding of the export pipeline

    The development follows the layout of the repository:
    - [jobs.js]                 the in-process job store;
    - [db.js]                   the cursor-backed batch generator [streamRows];
    - [writers/jsonWriter.js]   the array-of-objects encoder;
    - [writers/xmlWriter.js]    the markup-tree encoder;
    - [writers/csvWriter.js]    the delimited-text encoder;
    - [writers/parquetWriter.js] the staged columnar encoder;
    - [routes/exports.js]       the handler that creates a job and the
                                download handler that drives the writers;
    - [index.js]                the error handler of the application.

    JavaScript strings are modelled by [string]: one [ascii] stands for one
    character of the string, so the model covers the characters below 256.
    JavaScript objects used as dictionaries are association lists kept in
    property-creation order.  Effects (the HTTP response, the sink, the
    connection pool, the file system, the job store) are threaded through a
    state-and-exception monad; what the outside world answers (query results,
    sink readiness, I/O failures) is an explicit script carried by the state. *)

From Stdlib Require Import ZArith Lia Ascii String List.
From stdpp Require Import base option list gmap strings.

Set Warnings "-register-all".

(** Let [simpl] compute the concatenation of strings. *)
#[global] Arguments String.append !s1 s2 : simpl nomatch.

(* ===================================================================== *)
(** * Characters and strings *)
(* ===================================================================== *)

Module Chars.

Definition dquote : ascii := "034".
Definition backslash : ascii := "092".
Definition newline : ascii := "010".

Definition code (c : ascii) : N := N_of_ascii c.

Definition is_digit (c : ascii) : bool := (48 <=? code c)%N && (code c <=? 57)%N.
Definition is_upper (c : ascii) : bool := (65 <=? code c)%N && (code c <=? 90)%N.
Definition is_lower (c : ascii) : bool := (97 <=? code c)%N && (code c <=? 122)%N.

Definition str (c : ascii) : string := String c EmptyString.

(** The line feed and the double quote as one-character strings. *)
Definition nl : string := str newline.
Definition dq : string := str dquote.

(** [Array.prototype.join]. *)
Fixpoint join (sep : string) (l : list string) : string :=
  match l with
  | [] => EmptyString
  | [x] => x
  | x :: rest => x +:+ sep +:+ join sep rest
  end.

Fixpoint concat (l : list string) : string :=
  match l with
  | [] => EmptyString
  | x :: rest => x +:+ concat rest
  end.

(** [s.replace(/c/g, by)] for a one-character pattern [c]. *)
Fixpoint replace_all (c : ascii) (by_ : string) (s : string) : string :=
  match s with
  | EmptyString => EmptyString
  | String x rest =>
      (if Ascii.eqb x c then by_ else str x) +:+ replace_all c by_ rest
  end.

Fixpoint chars (s : string) : list ascii :=
  match s with
  | EmptyString => []
  | String c rest => c :: chars rest
  end.

End Chars.
Import Chars.

(* ===================================================================== *)
(** * JavaScript values *)
(* ===================================================================== *)

(** Decimal digits; [nzdigit] is a digit from 1 to 9. *)
Inductive digit := D0 | D1 | D2 | D3 | D4 | D5 | D6 | D7 | D8 | D9.
Inductive nzdigit := Z1 | Z2 | Z3 | Z4 | Z5 | Z6 | Z7 | Z8 | Z9.

(** The integer part of a decimal literal: [0], or a non-zero digit followed
    by digits. *)
Inductive intpart :=
| IZero
| IPos (d : nzdigit) (ds : list digit).

(** A JavaScript number, given by what [Number.prototype.toString] prints for
    it: [NaN], an infinity, or a decimal literal with an optional fraction and
    an optional exponent ([-]int[.frac][e(+|-)exp]). *)
Inductive number :=
| NaN
| Infinity (negative : bool)
| Finite (negative : bool) (int : intpart) (frac : list digit)
         (exp : option (bool * intpart)).

(** A row field or a nested ValueTree.  A [Date] is given by the result of its
    [toISOString] ([None] for an invalid date); an object by its own
    enumerable properties in enumeration order. *)
Inductive value :=
| VUndefined
| VNull
| VBool (b : bool)
| VNum (n : number)
| VStr (s : string)
| VDate (iso : option string)
| VArr (items : list value)
| VObj (props : list (string * value)).

Definition object := list (string * value).

(** [o[k]]: the value of property [k], [undefined] when there is none. *)
Fixpoint obj_get {A} (o : list (string * A)) (k : string) : option A :=
  match o with
  | [] => None
  | (k', v) :: rest => if String.eqb k' k then Some v else obj_get rest k
  end.

(** [o[k] = v]: an existing property keeps its place and takes the new value,
    a new property is added last. *)
Fixpoint obj_set {A} (o : list (string * A)) (k : string) (v : A) : list (string * A) :=
  match o with
  | [] => [(k, v)]
  | (k', v') :: rest =>
      if String.eqb k' k then (k', v) :: rest else (k', v') :: obj_set rest k v
  end.

Definition prop (o : object) (k : string) : value :=
  match obj_get o k with Some v => v | None => VUndefined end.

(** ** Number and scalar printing *)

Definition digit_char (d : digit) : ascii :=
  match d with
  | D0 => "0" | D1 => "1" | D2 => "2" | D3 => "3" | D4 => "4"
  | D5 => "5" | D6 => "6" | D7 => "7" | D8 => "8" | D9 => "9"
  end.

Definition nzdigit_char (d : nzdigit) : ascii :=
  match d with
  | Z1 => "1" | Z2 => "2" | Z3 => "3" | Z4 => "4" | Z5 => "5"
  | Z6 => "6" | Z7 => "7" | Z8 => "8" | Z9 => "9"
  end.

Fixpoint digits_string (ds : list digit) : string :=
  match ds with
  | [] => EmptyString
  | d :: rest => String (digit_char d) (digits_string rest)
  end.

Definition intpart_string (i : intpart) : string :=
  match i with
  | IZero => "0"
  | IPos d ds => String (nzdigit_char d) (digits_string ds)
  end.

Definition frac_string (f : list digit) : string :=
  match f with
  | [] => EmptyString
  | _ => "." +:+ digits_string f
  end.

Definition exp_string (e : option (bool * intpart)) : string :=
  match e with
  | None => EmptyString
  | Some (neg, i) => "e" +:+ (if neg then "-" else "+") +:+ intpart_string i
  end.

Definition sign_string (neg : bool) : string := if neg then "-" else EmptyString.

(** [String(n)] for a number. *)
Definition number_to_string (n : number) : string :=
  match n with
  | NaN => "NaN"
  | Infinity neg => sign_string neg +:+ "Infinity"
  | Finite neg i f e =>
      sign_string neg +:+ intpart_string i +:+ frac_string f +:+ exp_string e
  end.

(* ===================================================================== *)
(** * [JSON.stringify] *)
(* ===================================================================== *)

Module JSON.

Definition hex_char (n : N) : ascii :=
  match N.to_nat n with
  | 0 => "0" | 1 => "1" | 2 => "2" | 3 => "3" | 4 => "4" | 5 => "5"
  | 6 => "6" | 7 => "7" | 8 => "8" | 9 => "9" | 10 => "a" | 11 => "b"
  | 12 => "c" | 13 => "d" | 14 => "e" | _ => "f"
  end.

(** The escape of one character inside a JSON string literal
    (QuoteJSONString): the quote, the backslash, the five short escapes,
    [\u00xx] for the other control characters, the character itself
    otherwise. *)
Definition escape_char (c : ascii) : string :=
  let n := code c in
  if Ascii.eqb c dquote then String backslash dq
  else if Ascii.eqb c backslash then String backslash (str backslash)
  else if (n =? 8)%N then String backslash "b"
  else if (n =? 9)%N then String backslash "t"
  else if (n =? 10)%N then String backslash "n"
  else if (n =? 12)%N then String backslash "f"
  else if (n =? 13)%N then String backslash "r"
  else if (n <? 32)%N then
    String backslash ("u00" +:+ String (hex_char (n / 16)) (str (hex_char (n mod 16))))
  else str c.

Fixpoint escape (s : string) : string :=
  match s with
  | EmptyString => EmptyString
  | String c rest => escape_char c +:+ escape rest
  end.

Definition quote (s : string) : string := dq +:+ escape s +:+ dq.

(** [JSON.stringify(v)]; [None] is the [undefined] it returns for
    [undefined].  Inside an array [undefined] prints as [null], inside an
    object the property is left out.  A non-finite number prints as [null];
    a [Date] prints what its [toJSON] returns. *)
Fixpoint stringify (v : value) : option string :=
  match v with
  | VUndefined => None
  | VNull => Some "null"
  | VBool b => Some (if b then "true" else "false")
  | VNum (Finite neg i f e) => Some (number_to_string (Finite neg i f e))
  | VNum _ => Some "null"
  | VStr s => Some (quote s)
  | VDate (Some iso) => Some (quote iso)
  | VDate None => Some "null"
  | VArr items =>
      Some ("[" +:+
            join "," (List.map (fun x => default "null" (stringify x)) items)
            +:+ "]")
  | VObj props =>
      Some ("{" +:+
            join "," (List.flat_map
                        (fun kv => match stringify (snd kv) with
                                   | Some s => [quote (fst kv) +:+ ":" +:+ s]
                                   | None => []
                                   end) props)
            +:+ "}")
  end.

(** [JSON.stringify] of an object is always a string. *)
Definition stringify_object (o : object) : string :=
  default "null" (stringify (VObj o)).

End JSON.

(* ===================================================================== *)
(** * Column mappings and rows *)
(* ===================================================================== *)

(** One entry [{source, target}] of a job's column list. *)
Record column := Column { source : string; target : string }.

(** A row as the cursor delivers it: an object keyed by source field. *)
Definition row := object.
Definition batch := list row.

(* ===================================================================== *)
(** * The world the pipeline runs in *)
(* ===================================================================== *)

(** The [message] of a thrown [Error]. *)
Definition error := string.

(** ** jobs.js: the job record *)
Record Job := mkJob {
  exportId : string;
  format : string;
  columns : list column;
  compression : option string;
  status : string;
  createdAt : Z
}.

(** ** The HTTP response *)
Record response := mkResponse {
  headers : list (string * string);
  statusCode : nat;
  headersSent : bool;
  body : list string;
  writableEnded : bool;
  destroyed : bool
}.

Definition fresh_response : response :=
  mkResponse [] 200 false [] false false.

(** ** What the outside world answers *)

(** The reaction of the sink to one [write]: it took the chunk and is ready
    for more, it took the chunk and reports a full buffer ([drain] tells
    whether its [drain] event will ever come), or the call throws. *)
Inductive sink_answer :=
| Ready
| Pending (drain : bool)
| WriteFails (e : error).

(** The outcome of one [cursor.read(size)]. *)
Inductive read_result :=
| Rows (rows : batch)
| ReadFails (e : error).

(** The behaviour of the database behind one [streamRows] call: whether
    [pool.connect()] is rejected, what the successive reads deliver (a script
    that runs out means the result set is exhausted), and whether
    [cursor.close()] is rejected. *)
Record db_script := mkDb {
  connect_fails : option error;
  reads : list read_result;
  close_fails : option error
}.

(** The options a [csv-stringify] stringifier is created with. *)
Record csv_options := mkCsvOptions {
  csv_header : bool;
  csv_columns : list (string * string);
  csv_cast_object : value -> string
}.

(** A value of a Parquet record after coercion. *)
Inductive pq_value :=
| PqInt64 (v : value)
| PqDouble (v : value)
| PqTimestamp (v : value)
| PqText (s : string)
| PqRaw (v : value).

Inductive pq_type := INT64 | DOUBLE | TIMESTAMP_MILLIS | UTF8.

Definition pq_schema := list (string * pq_type).
Definition pq_record := list (string * pq_value).

(** The libraries and built-ins the writers call, as far as their results
    matter here: [zlib] compression, the [csv-stringify] formatter (header
    line and record line for the options it was created with), the bytes
    [parquetjs] puts in a finished file, and the error [BigInt(val)] throws
    on a value it cannot convert ([None] when it converts). *)
Record libraries := mkLibs {
  gzip : string -> string;
  csv_format_header : csv_options -> string;
  csv_format_record : csv_options -> object -> string;
  parquet_bytes : pq_schema -> list pq_record -> string;
  bigint_error : value -> option error
}.

(** How the pipe of the finished file into the response ends: the read
    stream emits ['end'], or ['error'] after some (possibly no) bytes, or
    neither, when the response is closed under the pipe. *)
Inductive pipe_outcome :=
| PipeEnds
| PipeFails (sent : string) (e : error)
| PipeStalls (sent : string).

(** The failures the staged encoder can meet, step by step. *)
Record fs_script := mkFs {
  mkdir_fails : option error;
  open_fails : option error;
  append_fails : list (option error);
  writer_close_fails : option error;
  pipe_result : pipe_outcome
}.

Record environment := mkEnv {
  db : db_script;
  sink_answers : list sink_answer;
  fs : fs_script;
  libs : libraries;
  uuid : string
}.

(** ** Observable state *)

(** What an encoder did to the stream it writes to. *)
Inductive sink_event :=
| EvWrite (chunk : value) (ok : bool)
| EvDrain
| EvEnd
| EvDestroy (e : error).

(** The connection pool and its cursors, as counters of the calls made. *)
Record pool_state := mkPool {
  acquired : nat;
  released : nat;
  cursors_opened : nat;
  cursors_closed : nat
}.

(** The Parquet writer open on the staging file. *)
Record pq_writer := mkWriter {
  pq_path : string;
  pq_fields : pq_schema;
  pq_rows : list pq_record
}.

Record world := mkWorld {
  store : gmap string Job;
  res : response;
  sink_log : list sink_event;
  encoded : list string;
  csv_started : bool;
  drain_due : bool;
  pool : pool_state;
  files : gmap string string;
  writer : option pq_writer;
  env : environment
}.

Definition initial_world (jobs : gmap string Job) (e : environment) : world :=
  mkWorld jobs fresh_response [] [] false true (mkPool 0 0 0 0) ∅ None e.

(** Field updates. *)
Definition with_store (f : gmap string Job -> gmap string Job) (w : world) : world :=
  mkWorld (f (store w)) (res w) (sink_log w) (encoded w) (csv_started w)
          (drain_due w) (pool w) (files w) (writer w) (env w).
Definition with_res (f : response -> response) (w : world) : world :=
  mkWorld (store w) (f (res w)) (sink_log w) (encoded w) (csv_started w)
          (drain_due w) (pool w) (files w) (writer w) (env w).
Definition with_sink_log (f : list sink_event -> list sink_event) (w : world) : world :=
  mkWorld (store w) (res w) (f (sink_log w)) (encoded w) (csv_started w)
          (drain_due w) (pool w) (files w) (writer w) (env w).
Definition with_encoded (f : list string -> list string) (w : world) : world :=
  mkWorld (store w) (res w) (sink_log w) (f (encoded w)) (csv_started w)
          (drain_due w) (pool w) (files w) (writer w) (env w).
Definition with_csv_started (b : bool) (w : world) : world :=
  mkWorld (store w) (res w) (sink_log w) (encoded w) b
          (drain_due w) (pool w) (files w) (writer w) (env w).
Definition with_drain_due (b : bool) (w : world) : world :=
  mkWorld (store w) (res w) (sink_log w) (encoded w) (csv_started w)
          b (pool w) (files w) (writer w) (env w).
Definition with_pool (f : pool_state -> pool_state) (w : world) : world :=
  mkWorld (store w) (res w) (sink_log w) (encoded w) (csv_started w)
          (drain_due w) (f (pool w)) (files w) (writer w) (env w).
Definition with_files (f : gmap string string -> gmap string string) (w : world) : world :=
  mkWorld (store w) (res w) (sink_log w) (encoded w) (csv_started w)
          (drain_due w) (pool w) (f (files w)) (writer w) (env w).
Definition with_writer (f : option pq_writer -> option pq_writer) (w : world) : world :=
  mkWorld (store w) (res w) (sink_log w) (encoded w) (csv_started w)
          (drain_due w) (pool w) (files w) (f (writer w)) (env w).
Definition with_env (f : environment -> environment) (w : world) : world :=
  mkWorld (store w) (res w) (sink_log w) (encoded w) (csv_started w)
          (drain_due w) (pool w) (files w) (writer w) (f (env w)).

(* ===================================================================== *)
(** * The monad of the asynchronous code *)
(* ===================================================================== *)

(** An awaited computation settles with a value, rejects with an error, or
    never settles. *)
Inductive outcome (A : Type) :=
| Ok (a : A)
| Throw (e : error)
| Hang.
Arguments Ok {A} a.
Arguments Throw {A} e.
Arguments Hang {A}.

Definition M (A : Type) : Type := world -> outcome A * world.

Definition ret {A} (a : A) : M A := fun w => (Ok a, w).
Definition throw {A} (e : error) : M A := fun w => (Throw e, w).
Definition hang {A} : M A := fun w => (Hang, w).

Definition bind {A B} (m : M A) (k : A -> M B) : M B :=
  fun w =>
    match m w with
    | (Ok a, w') => k a w'
    | (Throw e, w') => (Throw e, w')
    | (Hang, w') => (Hang, w')
    end.

Notation "'do' x <- m ; k" := (bind m (fun x => k))
  (at level 10, x name, m at level 100, k at level 200).

(** [try { m } catch (err) { h err }]. *)
Definition try_catch {A} (m : M A) (h : error -> M A) : M A :=
  fun w =>
    match m w with
    | (Throw e, w') => h e w'
    | r => r
    end.

(** [try { m } finally { f }]. *)
Definition try_finally {A} (m : M A) (f : M unit) : M A :=
  fun w =>
    match m w with
    | (Ok a, w') => (do _ <- f; ret a) w'
    | (Throw e, w') => (do _ <- f; throw e) w'
    | (Hang, w') => (Hang, w')
    end.

Definition get {A} (f : world -> A) : M A := fun w => (Ok (f w), w).
Definition modify (f : world -> world) : M unit := fun w => (Ok tt, f w).

(** A call that is rejected when the script says so. *)
Definition may_fail (o : option error) : M unit :=
  match o with
  | Some e => throw e
  | None => ret tt
  end.

(** [for (const x of l) { body x }]. *)
Fixpoint for_of {A} (l : list A) (body : A -> M unit) : M unit :=
  match l with
  | [] => ret tt
  | x :: rest => do _ <- body x; for_of rest body
  end.

(** [for (const x of l) { ... }] around a local variable [s] that the body
    updates. *)
Fixpoint for_of_fold {A S} (l : list A) (s : S) (body : S -> A -> M S) : M S :=
  match l with
  | [] => ret s
  | x :: rest => do s' <- body s x; for_of_fold rest s' body
  end.

(* ===================================================================== *)
(** * jobs.js *)
(* ===================================================================== *)

Module Jobs.

(** [createJob({format, columns, compression})]; the fresh UUID and the
    creation time are supplied by the caller. *)
Definition createJob (id : string) (now : Z) (fmt : string)
    (cols : list column) (compr : option string)
    (st : gmap string Job) : Job * gmap string Job :=
  let job := mkJob id fmt cols
               (match compr with
                | Some c => if String.eqb c EmptyString then None else Some c
                | None => None
                end)
               "pending" now in
  (job, <[id := job]> st).

Definition getJob (id : string) (st : gmap string Job) : option Job :=
  st !! id.

Definition set_status (s : string) (j : Job) : Job :=
  mkJob (exportId j) (format j) (columns j) (compression j) s (createdAt j).

(** [const job = store.get(exportId); if (job) job.status = status;] *)
Definition updateJobStatus (id : string) (s : string)
    (st : gmap string Job) : gmap string Job :=
  match st !! id with
  | Some job => <[id := set_status s job]> st
  | None => st
  end.

End Jobs.

Definition getJob (id : string) : M (option Job) :=
  get (fun w => Jobs.getJob id (store w)).

Definition updateJobStatus (id : string) (s : string) : M unit :=
  modify (with_store (Jobs.updateJobStatus id s)).

(* ===================================================================== *)
(** * The HTTP response *)
(* ===================================================================== *)

Module Res.

Definition set_headers (h : list (string * string)) (r : response) : response :=
  mkResponse h (statusCode r) (headersSent r) (body r) (writableEnded r) (destroyed r).

Definition write_chunk (chunk : string) (r : response) : response :=
  if writableEnded r || destroyed r then r
  else mkResponse (headers r) (statusCode r) true (body r ++ [chunk])
                  (writableEnded r) (destroyed r).

Definition end_ (r : response) : response :=
  mkResponse (headers r) (statusCode r) true (body r) true (destroyed r).

Definition destroy_ (r : response) : response :=
  mkResponse (headers r) (statusCode r) (headersSent r) (body r)
             (writableEnded r) true.

Definition set_status (code : nat) (r : response) : response :=
  mkResponse (headers r) code (headersSent r) (body r) (writableEnded r) (destroyed r).

(** [res.setHeader(name, value)]: refused once the headers are out. *)
Definition setHeader (name val : string) : M unit :=
  fun w =>
    if headersSent (res w)
    then (Throw "Cannot set headers after they are sent to the client", w)
    else (Ok tt, with_res (fun r => set_headers (obj_set (headers r) name val) r) w).

Definition write (chunk : string) : M unit := modify (with_res (write_chunk chunk)).

Definition end' : M unit := modify (with_res end_).

Definition destroy : M unit := modify (with_res destroy_).

(** [if (!res.writableEnded) res.end();] *)
Definition end_unless_ended : M unit :=
  do ended <- get (fun w => writableEnded (res w));
  if ended then ret tt else end'.

(** [res.status(code).json(payload)]. *)
Definition status_json (code : nat) (payload : object) : M unit :=
  do _ <- modify (with_res (set_status code));
  do _ <- setHeader "Content-Type" "application/json";
  do _ <- write (JSON.stringify_object payload);
  end'.

End Res.

(* ===================================================================== *)
(** * db.js *)
(* ===================================================================== *)

Module Db.

Definition ALLOWED_COLUMNS : list string :=
  ["id"; "created_at"; "name"; "value"; "metadata"].

Definition allowed (s : string) : bool :=
  existsb (String.eqb s) ALLOWED_COLUMNS.

(** [buildSelectClause(columns)]. *)
Definition buildSelectClause (cols : list column) : M string :=
  let invalid := List.filter (fun c => negb (allowed (source c))) cols in
  match invalid with
  | _ :: _ =>
      throw ("Invalid column(s): " +:+ join ", " (List.map source invalid))
  | [] => ret (join ", " (List.map (fun c => dq +:+ source c +:+ dq) cols))
  end.

Definition on_pool (f : pool_state -> pool_state) : M unit := modify (with_pool f).

(** [await pool.connect()]. *)
Definition pool_connect (d : db_script) : M unit :=
  do _ <- may_fail (connect_fails d);
  on_pool (fun p => mkPool (S (acquired p)) (released p) (cursors_opened p) (cursors_closed p)).

(** [client.query(new Cursor(sql, params))]. *)
Definition client_query_cursor : M unit :=
  on_pool (fun p => mkPool (acquired p) (released p) (S (cursors_opened p)) (cursors_closed p)).

(** [await cursor.read(size)]. *)
Definition cursor_read (r : read_result) : M batch :=
  match r with
  | Rows rows => ret rows
  | ReadFails e => throw e
  end.

(** [await cursor.close()]. *)
Definition cursor_close (d : db_script) : M unit :=
  do _ <- may_fail (close_fails d);
  on_pool (fun p => mkPool (acquired p) (released p) (cursors_opened p) (S (cursors_closed p))).

(** [client.release()]. *)
Definition client_release : M unit :=
  on_pool (fun p => mkPool (acquired p) (S (released p)) (cursors_opened p) (cursors_closed p)).

(** Where the generator object of [streamRows] stands: not yet started,
    suspended at its [yield], or completed. *)
Inductive phase := Start | Suspended | Done.

(** The [try] block of [streamRows] from the head of its loop to the next
    [yield] ([Some rows]) or to the end of the block ([None]), the read
    delivering [r]. *)
Definition loop_until_yield (d : db_script) (r : read_result) : M (option batch) :=
  do rows <- cursor_read r;
  if (length rows =? 0)%nat
  then do _ <- cursor_close d; ret None
  else ret (Some rows).

(** The same under [try { ... } finally { client.release(); }]: the
    [finally] block runs when the block is left, not when it yields. *)
Definition resume (d : db_script) (r : read_result) : M (option batch) :=
  do x <- try_catch (loop_until_yield d r)
                    (fun e => do _ <- client_release; throw e);
  match x with
  | Some rows => ret (Some rows)
  | None => do _ <- client_release; ret None
  end.

(** [rowGenerator.next()], the next read of the cursor delivering [r]. *)
Definition next (d : db_script) (ph : phase) (r : read_result) : M (option batch) :=
  match ph with
  | Start =>
      do _ <- pool_connect d;
      do _ <- client_query_cursor;
      resume d r
  | Suspended => resume d r
  | Done => ret None
  end.

(** [rowGenerator.return()]: a generator suspended at the [yield] leaves
    its [try] block through [finally]. *)
Definition return_ (ph : phase) : M unit :=
  match ph with
  | Suspended => client_release
  | _ => ret tt
  end.

(** [for await (const batch of rowGenerator) { s = body s batch }].  When
    the body throws, the loop calls [return()] on the generator and the
    error goes on. *)
Fixpoint for_await {S} (d : db_script) (ph : phase) (rs : list read_result)
    (s : S) (body : S -> batch -> M S) : M S :=
  match rs with
  | [] => do _ <- next d ph (Rows []); ret s
  | r :: rest =>
      do x <- next d ph r;
      match x with
      | None => ret s
      | Some rows =>
          do s' <- try_catch (body s rows)
                             (fun e => do _ <- return_ Suspended; throw e);
          for_await d Suspended rest s' body
      end
  end.

(** [streamRows(sql, params)] hands back a generator; the loop over it
    starts it. *)
Definition streamRows (sql : string) (params : list value) : M db_script :=
  get (fun w => db (env w)).

Definition for_await_rows {S} (g : db_script) (s : S)
    (body : S -> batch -> M S) : M S :=
  for_await g Start (reads g) s body.

End Db.

(* ===================================================================== *)
(** * The stream an encoder writes to *)
(* ===================================================================== *)

Module Sink.

Definition log (ev : sink_event) : M unit :=
  modify (with_sink_log (fun l => l ++ [ev])).

Definition with_answers (l : list sink_answer) (e : environment) : environment :=
  mkEnv (db e) l (fs e) (libs e) (uuid e).

(** The sink takes (or refuses) one chunk: the call [stream.write(chunk)]
    and its boolean result.  A script of answers that has run out means a
    sink that is ready. *)
Definition accept (chunk : value) : M bool :=
  fun w =>
    match sink_answers (env w) with
    | [] => (Ok true, with_sink_log (fun l => l ++ [EvWrite chunk true]) w)
    | a :: rest =>
        let w1 := with_env (with_answers rest) w in
        match a with
        | Ready => (Ok true, with_sink_log (fun l => l ++ [EvWrite chunk true]) w1)
        | Pending d =>
            (Ok false,
             with_drain_due d (with_sink_log (fun l => l ++ [EvWrite chunk false]) w1))
        | WriteFails e => (Throw e, w1)
        end
    end.

(** [new Promise((resolve) => stream.once('drain', resolve))]: resolved by
    the [drain] event, never settled when the event does not come. *)
Definition once_drain : M unit :=
  do due <- get drain_due;
  if due then log EvDrain else hang.

(** Bytes leave the encoder: they go straight to the response, or into the
    compressor when there is one. *)
Definition emit (compress : bool) (text : string) : M unit :=
  do _ <- modify (with_encoded (fun l => l ++ [text]));
  if compress then ret tt else Res.write text.

(** The end of the encoder's output: the compressor, if any, flushes to the
    response, and the response is ended. *)
Definition finish (compress : bool) : M unit :=
  do _ <- (if compress
           then do z <- get (fun w => gzip (libs (env w)) (concat (encoded w)));
                Res.write z
           else ret tt);
  Res.end'.

(** [sink.write(chunk)] for [sink = compress ? zlib.createGzip() : res]. *)
Definition write (compress : bool) (chunk : string) : M bool :=
  do ok <- accept (VStr chunk);
  do _ <- emit compress chunk;
  ret ok.

(** [sink.end()]. *)
Definition end' (compress : bool) : M unit :=
  do _ <- log EvEnd;
  finish compress.

(** [sink.destroy(err)]. *)
Definition destroy (compress : bool) (e : error) : M unit :=
  do _ <- log (EvDestroy e);
  if compress then ret tt else Res.destroy.

End Sink.

(** The [write] helper of the JSON and XML writers: one [sink.write], then
    the wait for [drain] when the sink reported a full buffer. *)
Definition write (compress : bool) (chunk : string) : M unit :=
  do ok <- Sink.write compress chunk;
  if ok then ret tt else Sink.once_drain.

(** The headers the three text writers set. *)
Definition text_headers (mime file : string) (compress : bool) : M unit :=
  do _ <- Res.setHeader "Content-Type" mime;
  do _ <- Res.setHeader "Content-Disposition"
            ("attachment; filename=" +:+ dq +:+ file +:+
             (if compress then ".gz" +:+ dq else dq));
  if compress then Res.setHeader "Content-Encoding" "gzip" else ret tt.

(** The [catch] block of the JSON and XML writers. *)
Definition abort_stream (compress : bool) (err : error) : M unit :=
  do _ <- Sink.destroy compress err;
  Res.end_unless_ended.

(* ===================================================================== *)
(** * writers/jsonWriter.js *)
(* ===================================================================== *)

Module JsonWriter.

(** [const out = {}; for (const col of columns) out[col.target] = row[col.source];] *)
Definition rekey (cols : list column) (r : row) : object :=
  fold_left (fun out col => obj_set out (target col) (prop r (source col))) cols [].

(** The body of the inner loop for one row; [isFirst] is the loop's flag. *)
Definition write_row (compress : bool) (cols : list column)
    (isFirst : bool) (r : row) : M bool :=
  let json := JSON.stringify_object (rekey cols r) in
  if isFirst
  then do _ <- write compress (nl +:+ json); ret false
  else do _ <- write compress ("," +:+ nl +:+ json); ret isFirst.

Definition writeJson (rowGenerator : db_script) (cols : list column)
    (compress : bool) : M unit :=
  do _ <- text_headers "application/json" "export.json" compress;
  try_catch
    (do _ <- write compress "[";
     do _ <- Db.for_await_rows rowGenerator true
               (fun isFirst b => for_of_fold b isFirst (write_row compress cols));
     do _ <- write compress (nl +:+ "]");
     Sink.end' compress)
    (abort_stream compress).

End JsonWriter.

(* ===================================================================== *)
(** * writers/xmlWriter.js *)
(* ===================================================================== *)

Module XmlWriter.

(** The characters an element name keeps: [[a-zA-Z0-9_\-\.]]. *)
Definition name_char (c : ascii) : bool :=
  is_lower c || is_upper c || is_digit c
  || Ascii.eqb c "_" || Ascii.eqb c "-" || Ascii.eqb c ".".

(** [.replace(/[^a-zA-Z0-9_\-\.]/g, '_')]. *)
Fixpoint replace_invalid (s : string) : string :=
  match s with
  | EmptyString => EmptyString
  | String c rest =>
      String (if name_char c then c else "_"%char) (replace_invalid rest)
  end.

(** [.replace(/^(\d)/, '_$1')]. *)
Definition guard_leading_digit (s : string) : string :=
  match s with
  | String c rest => if is_digit c then String "_" (String c rest) else s
  | EmptyString => s
  end.

Definition sanitize (tagName : string) : string :=
  guard_leading_digit (replace_invalid tagName).

(** The five chained [replace] calls on the text of a scalar. *)
Definition escape (s : string) : string :=
  replace_all "'" "&apos;"
    (replace_all dquote "&quot;"
       (replace_all ">" "&gt;"
          (replace_all "<" "&lt;"
             (replace_all "&" "&amp;" s)))).

(** [String(value)] for the values that reach the last branch of
    [valueToXml]. *)
Definition to_text (v : value) : string :=
  match v with
  | VBool b => if b then "true" else "false"
  | VNum n => number_to_string n
  | VStr s => s
  | _ => EmptyString
  end.

Definition open_tag (name : string) : string := "<" +:+ name +:+ ">".
Definition close_tag (name : string) : string := "</" +:+ name +:+ ">".

(** [valueToXml(tagName, value)].  A [Date] is an object without own
    enumerable properties, so it takes the object branch with no entry. *)
Fixpoint valueToXml (tagName : string) (v : value) : string :=
  let safe := sanitize tagName in
  match v with
  | VNull | VUndefined => "<" +:+ safe +:+ "/>"
  | VArr items =>
      open_tag safe +:+
      concat (List.map (fun x => valueToXml "item" x) items) +:+
      close_tag safe
  | VObj props =>
      open_tag safe +:+
      concat (List.map (fun kv => valueToXml (fst kv) (snd kv)) props) +:+
      close_tag safe
  | VDate _ => open_tag safe +:+ close_tag safe
  | _ => open_tag safe +:+ escape (to_text v) +:+ close_tag safe
  end.

(** What the inner loops add to [xmlChunk] for one row. *)
Definition record_xml (cols : list column) (xmlChunk : string) (r : row) : string :=
  let opened := xmlChunk +:+ "  <record>" +:+ nl in
  let filled :=
    fold_left (fun acc col =>
                 acc +:+ "    " +:+ valueToXml (target col) (prop r (source col)) +:+ nl)
              cols opened in
  filled +:+ "  </record>" +:+ nl.

(** The chunk built for one batch. *)
Definition batch_xml (cols : list column) (b : batch) : string :=
  fold_left (record_xml cols) b EmptyString.

Definition prolog : string :=
  "<?xml version=" +:+ dq +:+ "1.0" +:+ dq +:+ " encoding=" +:+ dq +:+ "UTF-8" +:+ dq
  +:+ "?>" +:+ nl +:+ "<records>" +:+ nl.

Definition writeXml (rowGenerator : db_script) (cols : list column)
    (compress : bool) : M unit :=
  do _ <- text_headers "application/xml" "export.xml" compress;
  try_catch
    (do _ <- write compress prolog;
     do _ <- Db.for_await_rows rowGenerator tt
               (fun _ b => write compress (batch_xml cols b));
     do _ <- write compress "</records>";
     Sink.end' compress)
    (abort_stream compress).

End XmlWriter.

(* ===================================================================== *)
(** * writers/csvWriter.js *)
(* ===================================================================== *)

Module CsvWriter.

(** The options handed to [stringify]: [header: true], the source-to-target
    object built by [reduce], and the [object] cast. *)
Definition options (cols : list column) : csv_options :=
  mkCsvOptions true
    (fold_left (fun acc c => obj_set acc (source c) (target c)) cols [])
    (fun v => match v with
              | VNull => EmptyString
              | _ => default "null" (JSON.stringify v)
              end).

(** [const mapped = {}; for (const col of columns) mapped[col.source] = row[col.source];] *)
Definition mapped (cols : list column) (r : row) : object :=
  fold_left (fun m col => obj_set m (source col) (prop r (source col))) cols [].

(** The stringifier pushes its header line ahead of the first record. *)
Definition header_if_due (o : csv_options) : M string :=
  do started <- get csv_started;
  do _ <- modify (with_csv_started true);
  if csv_header o && negb started
  then get (fun w => csv_format_header (libs (env w)) o)
  else ret EmptyString.

(** [csvStringifier.write(record)]: the record is formatted and pushed down
    the pipe. *)
Definition stringifier_write (o : csv_options) (compress : bool)
    (record : object) : M bool :=
  do ok <- Sink.accept (VObj record);
  do h <- header_if_due o;
  do line <- get (fun w => csv_format_record (libs (env w)) o record);
  do _ <- Sink.emit compress (h +:+ line);
  ret ok.

(** [csvStringifier.end()]: a header still due is pushed, then the pipe
    ends. *)
Definition stringifier_end (o : csv_options) (compress : bool) : M unit :=
  do _ <- Sink.log EvEnd;
  do h <- header_if_due o;
  do _ <- (if String.eqb h EmptyString then ret tt else Sink.emit compress h);
  Sink.finish compress.

(** [csvStringifier.destroy(err)], with the ['error'] listener installed
    on the stringifier. *)
Definition stringifier_destroy (e : error) : M unit :=
  do _ <- Sink.log (EvDestroy e);
  Res.end_unless_ended.

Definition write_row (o : csv_options) (cols : list column) (compress : bool)
    (r : row) : M unit :=
  do ok <- stringifier_write o compress (mapped cols r);
  if ok then ret tt else Sink.once_drain.

Definition writeCsv (rowGenerator : db_script) (cols : list column)
    (compress : bool) : M unit :=
  let csvStringifier := options cols in
  do _ <- text_headers "text/csv" "export.csv" compress;
  try_catch
    (do _ <- Db.for_await_rows rowGenerator tt
               (fun _ b => for_of b (write_row csvStringifier cols compress));
     stringifier_end csvStringifier compress)
    (fun err =>
       do _ <- stringifier_destroy err;
       Res.end_unless_ended).

End CsvWriter.

(* ===================================================================== *)
(** * writers/parquetWriter.js *)
(* ===================================================================== *)

Module ParquetWriter.

Definition TMP_DIR : string := "/tmp/parquet-export".

(** [getParquetFieldType(source)]. *)
Definition getParquetFieldType (src : string) : pq_type :=
  if String.eqb src "id" then INT64
  else if String.eqb src "value" then DOUBLE
  else if String.eqb src "created_at" then TIMESTAMP_MILLIS
  else if String.eqb src "metadata" then UTF8
  else UTF8.

(** [buildSchema(columns)]: the [fields] object given to [ParquetSchema]. *)
Definition buildSchema (cols : list column) : pq_schema :=
  fold_left (fun fields col =>
               obj_set fields (target col) (getParquetFieldType (source col)))
            cols [].

Definition tmpFile (id : string) : string :=
  TMP_DIR +:+ "/export-" +:+ id +:+ ".parquet".

(** [typeof val === 'object']. *)
Definition typeof_object (v : value) : bool :=
  match v with
  | VNull | VDate _ | VArr _ | VObj _ => true
  | _ => false
  end.

(** The coercion of one projected value to the type of its column:
    [BigInt(val)], [parseFloat(val)], a [Date], or [JSON.stringify(val)];
    the first may throw. *)
Definition coerce (src : string) (val : value) : M pq_value :=
  if String.eqb src "id" then
    do o <- get (fun w => bigint_error (libs (env w)) val);
    do _ <- may_fail o; ret (PqInt64 val)
  else if String.eqb src "value" then ret (PqDouble val)
  else if String.eqb src "created_at" then ret (PqTimestamp val)
  else if String.eqb src "metadata" && typeof_object val
  then ret (PqText (default "null" (JSON.stringify val)))
  else ret (PqRaw val).

(** [const record = {}; for (const col of columns) { ... record[col.target] = val; }] *)
Definition build_record (cols : list column) (r : row) : M pq_record :=
  for_of_fold cols []
    (fun record col =>
       do val <- coerce (source col) (prop r (source col));
       ret (obj_set record (target col) val)).

Definition with_fs (f : fs_script -> fs_script) (e : environment) : environment :=
  mkEnv (db e) (sink_answers e) (f (fs e)) (libs e) (uuid e).

(** [fs.mkdirSync(TMP_DIR, { recursive: true })]. *)
Definition mkdirSync : M unit :=
  do o <- get (fun w => mkdir_fails (fs (env w)));
  may_fail o.

(** [await parquet.ParquetWriter.openFile(schema, tmpFile, ...)]: the file
    is created and a writer is open on it. *)
Definition openFile (schema : pq_schema) (path : string) : M unit :=
  do o <- get (fun w => open_fails (fs (env w)));
  do _ <- may_fail o;
  do _ <- modify (with_files (fun m => <[path := EmptyString]> m));
  modify (with_writer (fun _ => Some (mkWriter path schema []))).

(** [await writer.appendRow(record)]. *)
Definition appendRow (record : pq_record) : M unit :=
  do l <- get (fun w => append_fails (fs (env w)));
  do _ <- modify (with_env (with_fs (fun s =>
            mkFs (mkdir_fails s) (open_fails s) (tl l)
                 (writer_close_fails s) (pipe_result s))));
  do _ <- may_fail (match l with o :: _ => o | [] => None end);
  modify (with_writer (fun o =>
    match o with
    | Some wr => Some (mkWriter (pq_path wr) (pq_fields wr) (pq_rows wr ++ [record]))
    | None => None
    end)).

(** [await writer.close()]: the footer is written, the file is complete. *)
Definition writer_close : M unit :=
  do o <- get (fun w => writer_close_fails (fs (env w)));
  do _ <- may_fail o;
  modify (fun w =>
    match writer w with
    | Some wr =>
        with_files (fun m => <[pq_path wr :=
          parquet_bytes (libs (env w)) (pq_fields wr) (pq_rows wr)]> m) w
    | None => w
    end).

(** The promise around [fs.createReadStream(tmpFile).pipe(res)]: it
    resolves on ['end'], when the whole file has gone to the response and
    the pipe has ended it, rejects on ['error'], and is never settled when
    the read stream emits neither. *)
Definition pipe_to_response (path : string) : M unit :=
  do content <- get (fun w => files w !! path);
  match content with
  | None => throw "ENOENT: no such file or directory"
  | Some bytes =>
      do o <- get (fun w => pipe_result (fs (env w)));
      match o with
      | PipeEnds => do _ <- Res.write bytes; Res.end'
      | PipeFails sent e =>
          do _ <- (if String.eqb sent EmptyString then ret tt else Res.write sent);
          throw e
      | PipeStalls sent =>
          do _ <- (if String.eqb sent EmptyString then ret tt else Res.write sent);
          hang
      end
  end.

(** [fs.unlink(tmpFile, () => {})]: the deletion the call requests; the
    callback ignores its result. *)
Definition unlink (path : string) : M unit :=
  modify (with_files (fun m => delete path m)).

Definition writeParquet (rowGenerator : db_script) (cols : list column) : M unit :=
  do _ <- Res.setHeader "Content-Type" "application/vnd.apache.parquet";
  do _ <- Res.setHeader "Content-Disposition"
            ("attachment; filename=" +:+ dq +:+ "export.parquet" +:+ dq);
  do id <- get (fun w => uuid (env w));
  let tmp := tmpFile id in
  try_finally
    (try_catch
       (do _ <- mkdirSync;
        let schema := buildSchema cols in
        do _ <- openFile schema tmp;
        do _ <- Db.for_await_rows rowGenerator tt
                  (fun _ b =>
                     for_of b (fun r =>
                       do record <- build_record cols r;
                       appendRow record));
        do _ <- writer_close;
        pipe_to_response tmp)
       (fun err => Res.end_unless_ended))
    (unlink tmp).

End ParquetWriter.

(* ===================================================================== *)
(** * routes/exports.js *)
(* ===================================================================== *)

Module Exports.

Definition error_payload (err : error) : object :=
  [("error", VStr "Export failed."); ("message", VStr err)].

(** The [switch] on [job.format]; [false] is the [return] of its
    [default] branch. *)
Definition run_writer (job : Job) (rowGenerator : db_script)
    (compress : bool) : M bool :=
  if String.eqb (format job) "csv" then
    do _ <- CsvWriter.writeCsv rowGenerator (columns job) compress; ret true
  else if String.eqb (format job) "json" then
    do _ <- JsonWriter.writeJson rowGenerator (columns job) compress; ret true
  else if String.eqb (format job) "xml" then
    do _ <- XmlWriter.writeXml rowGenerator (columns job) compress; ret true
  else if String.eqb (format job) "parquet" then
    do _ <- ParquetWriter.writeParquet rowGenerator (columns job); ret true
  else
    do _ <- Res.status_json 500 [("error", VStr "Unknown format.")]; ret false.

(** [GET /exports/:id/download]. *)
Definition download (id : string) : M unit :=
  do found <- getJob id;
  match found with
  | None => Res.status_json 404 [("error", VStr "Export job not found.")]
  | Some job =>
      do selectClause <- Db.buildSelectClause (columns job);
      let sql := "SELECT " +:+ selectClause +:+ " FROM public.records ORDER BY id" in
      do rowGenerator <- Db.streamRows sql [];
      let compress :=
        match compression job with
        | Some c => String.eqb c "gzip"
        | None => false
        end in
      try_catch
        (do written <- run_writer job rowGenerator compress;
         if written then updateJobStatus (exportId job) "complete" else ret tt)
        (fun err =>
           do _ <- updateJobStatus (exportId job) "error";
           do sent <- get (fun w => headersSent (res w));
           if sent then Res.end' else Res.status_json 500 (error_payload err))
  end.

End Exports.

(* ===================================================================== *)
(** * Specification vocabulary *)
(* ===================================================================== *)

(** ** The JSON grammar (RFC 8259)

    [parses s t] reads the text [s] as the JSON value [t].  Every rule is a
    production of the RFC; the [\u] escape is kept to the code points below
    256 that a [string] can hold, so a text accepted here is valid JSON. *)
Module Grammar.

Inductive json :=
| JNull
| JBool (b : bool)
| JNumber (literal : string)
| JString (s : string)
| JArray (items : list json)
| JObject (members : list (string * json)).

Definition is_ws_char (c : ascii) : bool :=
  let n := code c in
  (n =? 32)%N || (n =? 9)%N || (n =? 10)%N || (n =? 13)%N.

Fixpoint is_ws (s : string) : bool :=
  match s with
  | EmptyString => true
  | String c rest => is_ws_char c && is_ws rest
  end.

Definition is_digit19 (c : ascii) : bool := (49 <=? code c)%N && (code c <=? 57)%N.

(** [1*DIGIT] *)
Inductive digits : string -> Prop :=
| digits_one c : is_digit c = true -> digits (str c)
| digits_more c s : is_digit c = true -> digits s -> digits (String c s).

(** [int = zero / ( digit1-9 *DIGIT )] *)
Inductive int_lit : string -> Prop :=
| int_zero : int_lit "0"
| int_digit c : is_digit19 c = true -> int_lit (str c)
| int_digits c s : is_digit19 c = true -> digits s -> int_lit (String c s).

(** [[ frac ]], [frac = decimal-point 1*DIGIT] *)
Inductive frac_lit : string -> Prop :=
| frac_none : frac_lit EmptyString
| frac_some s : digits s -> frac_lit ("." +:+ s).

(** [[ exp ]], [exp = e [ minus / plus ] 1*DIGIT] *)
Inductive exp_lit : string -> Prop :=
| exp_none : exp_lit EmptyString
| exp_some e sgn s :
    e = "e" \/ e = "E" ->
    sgn = EmptyString \/ sgn = "+" \/ sgn = "-" ->
    digits s ->
    exp_lit (e +:+ sgn +:+ s).

(** [number = [ minus ] int [ frac ] [ exp ]] *)
Inductive number_lit : string -> Prop :=
| number_parts sgn i f e :
    sgn = EmptyString \/ sgn = "-" ->
    int_lit i -> frac_lit f -> exp_lit e ->
    number_lit (sgn +:+ i +:+ f +:+ e).

(** [unescaped = %x20-21 / %x23-5B / %x5D-10FFFF] *)
Definition unescaped (c : ascii) : bool :=
  (32 <=? code c)%N && negb (Ascii.eqb c dquote) && negb (Ascii.eqb c backslash).

(** The character a two-character escape stands for. *)
Definition short_escape (x : ascii) : option ascii :=
  if Ascii.eqb x dquote then Some dquote
  else if Ascii.eqb x backslash then Some backslash
  else if Ascii.eqb x "/" then Some "/"%char
  else if Ascii.eqb x "b" then Some "008"%char
  else if Ascii.eqb x "f" then Some "012"%char
  else if Ascii.eqb x "n" then Some "010"%char
  else if Ascii.eqb x "r" then Some "013"%char
  else if Ascii.eqb x "t" then Some "009"%char
  else None.

Definition hex_value (c : ascii) : option N :=
  let n := code c in
  if is_digit c then Some (n - 48)%N
  else if (97 <=? n)%N && (n <=? 102)%N then Some (n - 87)%N
  else if (65 <=? n)%N && (n <=? 70)%N then Some (n - 55)%N
  else None.

(** [string_body e s]: the characters [e] between the quotes of a string
    literal denote the string [s]. *)
Inductive string_body : string -> string -> Prop :=
| body_nil : string_body EmptyString EmptyString
| body_char c e s :
    unescaped c = true -> string_body e s ->
    string_body (String c e) (String c s)
| body_escape x c e s :
    short_escape x = Some c -> string_body e s ->
    string_body (String backslash (String x e)) (String c s)
| body_unicode h1 h2 a b c e s :
    hex_value h1 = Some a -> hex_value h2 = Some b ->
    c = ascii_of_N (16 * a + b) -> string_body e s ->
    string_body (String backslash ("u00" +:+ String h1 (String h2 e)))
                (String c s).

Inductive parses : string -> json -> Prop :=
| parses_null : parses "null" JNull
| parses_true : parses "true" (JBool true)
| parses_false : parses "false" (JBool false)
| parses_number s : number_lit s -> parses s (JNumber s)
| parses_string e s : string_body e s -> parses (dq +:+ e +:+ dq) (JString s)
| parses_empty_array w : is_ws w = true -> parses ("[" +:+ w +:+ "]") (JArray [])
| parses_array es ts : elements es ts -> parses ("[" +:+ es +:+ "]") (JArray ts)
| parses_empty_object w : is_ws w = true -> parses ("{" +:+ w +:+ "}") (JObject [])
| parses_object ms kvs : members ms kvs -> parses ("{" +:+ ms +:+ "}") (JObject kvs)
(** [elements = element *( "," element )] *)
with elements : string -> list json -> Prop :=
| elements_one e t : element e t -> elements e [t]
| elements_more e t es ts :
    element e t -> elements es ts -> elements (e +:+ "," +:+ es) (t :: ts)
(** [element = ws value ws] *)
with element : string -> json -> Prop :=
| element_ws w1 s t w2 :
    is_ws w1 = true -> parses s t -> is_ws w2 = true ->
    element (w1 +:+ s +:+ w2) t
(** [members = member *( "," member )] *)
with members : string -> list (string * json) -> Prop :=
| members_one m kv : member m kv -> members m [kv]
| members_more m kv ms kvs :
    member m kv -> members ms kvs -> members (m +:+ "," +:+ ms) (kv :: kvs)
(** [member = ws string ws ":" element] *)
with member : string -> string * json -> Prop :=
| member_pair w1 ke k w2 e t :
    is_ws w1 = true -> string_body ke k -> is_ws w2 = true -> element e t ->
    member (w1 +:+ dq +:+ ke +:+ dq +:+ w2 +:+ ":" +:+ e) (k, t).

(** [JSON-text = ws value ws] *)
Definition json_text (s : string) (t : json) : Prop := element s t.

End Grammar.

(** The JSON value a JavaScript value stands for once serialized: a property
    holding [undefined] is absent, [undefined] in an array and a non-finite
    number are [null], a [Date] is its ISO string. *)
Fixpoint tree (v : value) : Grammar.json :=
  match v with
  | VUndefined | VNull => Grammar.JNull
  | VBool b => Grammar.JBool b
  | VNum (Finite neg i f e) => Grammar.JNumber (number_to_string (Finite neg i f e))
  | VNum _ => Grammar.JNull
  | VStr s => Grammar.JString s
  | VDate (Some iso) => Grammar.JString iso
  | VDate None => Grammar.JNull
  | VArr items => Grammar.JArray (List.map (fun x => tree x) items)
  | VObj props =>
      Grammar.JObject
        (List.flat_map (fun kv => match snd kv with
                                  | VUndefined => []
                                  | _ => [(fst kv, tree (snd kv))]
                                  end) props)
  end.

(** ** Scripts without failure *)

(** The rows a script of reads delivers before the cursor reports the end. *)
Fixpoint delivered (rs : list read_result) : list row :=
  match rs with
  | Rows (r :: b) :: rest => (r :: b) ++ delivered rest
  | _ => []
  end.

(** No read fails before the cursor reports the end. *)
Fixpoint reads_ok (rs : list read_result) : bool :=
  match rs with
  | Rows (_ :: _) :: rest => reads_ok rest
  | ReadFails _ :: _ => false
  | _ => true
  end.

Definition db_ok (d : db_script) : bool :=
  match connect_fails d, close_fails d with
  | None, None => reads_ok (reads d)
  | _, _ => false
  end.

(** The script of the batches [bs], all of them non-empty, as the cursor
    delivers them. *)
Definition script_of (bs : list batch) : db_script :=
  mkDb None (List.map Rows bs) None.

(** The batches a cursor read with [size] rows at a time cuts a result set
    into. *)
Fixpoint batches_from (fuel size : nat) (rows : list row) : list batch :=
  match rows, fuel with
  | [], _ => []
  | _, 0 => [rows]
  | _, S fuel' => take size rows :: batches_from fuel' size (drop size rows)
  end.

Definition batches_of (size : nat) (rows : list row) : list batch :=
  batches_from (length rows) size rows.

(** A sink that takes every chunk and, whenever it reports a full buffer,
    later signals [drain]. *)
Definition answer_ok (a : sink_answer) : bool :=
  match a with
  | Ready | Pending true => true
  | _ => false
  end.

Definition sink_ok (w : world) : bool := forallb answer_ok (sink_answers (env w)).

(** ** The text of the three row-oriented encodings *)

(** The bytes that left the encoder. *)
Definition output (w : world) : string := concat (encoded w).

(** Array of objects: an opening bracket, every record as one JSON object,
    nothing but a line feed before the first and a comma and a line feed
    before every other, a line feed and the closing bracket. *)
Fixpoint json_records (cols : list column) (first : bool) (rows : list row) : string :=
  match rows with
  | [] => EmptyString
  | r :: rest =>
      (if first then nl else "," +:+ nl) +:+
      JSON.stringify_object (JsonWriter.rekey cols r) +:+
      json_records cols false rest
  end.

Definition json_document (cols : list column) (rows : list row) : string :=
  "[" +:+ json_records cols true rows +:+ nl +:+ "]".

(** Markup tree: the declaration and the root, one [record] element per row
    with one child per column, the closing root. *)
Definition xml_record (cols : list column) (r : row) : string :=
  "  <record>" +:+ nl +:+
  concat (List.map (fun col => "    " +:+
                      XmlWriter.valueToXml (target col) (prop r (source col)) +:+ nl)
                   cols) +:+
  "  </record>" +:+ nl.

Definition xml_document (cols : list column) (rows : list row) : string :=
  XmlWriter.prolog +:+ concat (List.map (xml_record cols) rows) +:+ "</records>".

(** Delimited text: the header line, then one line per row, as the
    formatter prints them. *)
Definition csv_document (l : libraries) (cols : list column) (rows : list row) : string :=
  csv_format_header l (CsvWriter.options cols) +:+
  concat (List.map (fun r => csv_format_record l (CsvWriter.options cols)
                               (CsvWriter.mapped cols r)) rows).

(** ** Back-pressure on the trace of sink events *)

(** After a write that reported a full buffer, the next event, if there is
    one, is the [drain] signal. *)
Fixpoint throttled (l : list sink_event) : bool :=
  match l with
  | [] => true
  | EvWrite _ false :: rest =>
      match rest with
      | [] => true
      | EvDrain :: _ => throttled rest
      | _ => false
      end
  | _ :: rest => throttled rest
  end.

(** The writes that reported a full buffer and have not seen their [drain]
    yet. *)
Fixpoint unacknowledged (l : list sink_event) (pending : nat) : nat :=
  match l with
  | [] => pending
  | EvWrite _ false :: rest => unacknowledged rest (S pending)
  | EvDrain :: rest => unacknowledged rest (pred pending)
  | _ :: rest => unacknowledged rest pending
  end.

(** The trace does not end on a write that still waits for its [drain]. *)
Definition settled (l : list sink_event) : bool :=
  throttled l &&
  match last l with
  | Some (EvWrite _ false) => false
  | _ => true
  end.

(** ** Element names and text, in the words of the specification *)

(** Every character outside [[A-Za-z0-9_.-]] replaced with an underscore,
    and an underscore put in front when the first character is a digit. *)
Definition spec_element_name (tagName : string) : string :=
  let replaced :=
    string_of_list_ascii
      (List.map (fun c => if XmlWriter.name_char c then c else "_"%char)
                (chars tagName)) in
  match tagName with
  | String c _ => if is_digit c then "_" +:+ replaced else replaced
  | EmptyString => replaced
  end.

(** Each of the five metacharacters replaced with its entity, one character
    at a time. *)
Definition spec_escape_char (c : ascii) : string :=
  if Ascii.eqb c "&" then "&amp;"
  else if Ascii.eqb c "<" then "&lt;"
  else if Ascii.eqb c ">" then "&gt;"
  else if Ascii.eqb c dquote then "&quot;"
  else if Ascii.eqb c "'" then "&apos;"
  else str c.

Definition spec_escape (s : string) : string :=
  concat (List.map spec_escape_char (chars s)).

(** The metacharacters other than the ampersand. *)
Definition markup_char (c : ascii) : bool :=
  Ascii.eqb c "<" || Ascii.eqb c ">" || Ascii.eqb c dquote || Ascii.eqb c "'".

(** Every ampersand of the text starts one of the five entities. *)
Fixpoint entities_only (s : string) : bool :=
  match s with
  | EmptyString => true
  | String c rest =>
      (if Ascii.eqb c "&"
       then String.prefix "amp;" rest || String.prefix "lt;" rest
            || String.prefix "gt;" rest || String.prefix "quot;" rest
            || String.prefix "apos;" rest
       else true)
      && entities_only rest
  end.

(** ** The last column that declares an output name *)
Definition last_source (cols : list column) (name : string) : option string :=
  fold_left (fun found col =>
               if String.eqb (target col) name then Some (source col) else found)
            cols None.

(* ===================================================================== *)
(** * Vocabulary of the proofs *)
(* ===================================================================== *)

(** [keeps J J' m]: started where [J] holds, [m] ends where [J] holds when it
    settles, and where [J'] holds when it never does. *)
Definition keeps {A} (J J' : world -> Prop) (m : M A) : Prop :=
  forall w, J w ->
    match m w with
    | (Hang, w') => J' w'
    | (_, w') => J w'
    end.

(** The pipe of the staged encoder is scripted to end as [p]; a run that
    never settles has a pipe that stalls. *)
Definition pipe_is (p : pipe_outcome) (w : world) : Prop :=
  pipe_result (fs (env w)) = p.

Definition pipe_stalls (p : pipe_outcome) : Prop :=
  exists sent, p = PipeStalls sent.

(** Sample surroundings for the closed examples: libraries whose results are
    fixed strings, a file system without failures, and one row. *)
Definition sample_libs : libraries :=
  mkLibs (fun s => "gz:" +:+ s) (fun _ => "header;") (fun _ _ => "record;")
         (fun _ _ => "PAR1") (fun _ => None).

Definition sample_env (d : db_script) (answers : list sink_answer) : environment :=
  mkEnv d answers (mkFs None None [] None PipeEnds) sample_libs "0b5c".

Definition sample_row : row :=
  [("id", VStr "1"); ("name", VStr "Record_1");
   ("metadata", VObj [("a", VNum (Finite false (IPos Z1 []) [] None))])].

Definition sample_job (fmt : string) : Job :=
  mkJob "job-1" fmt [Column "id" "ID"; Column "metadata" "meta"] None "pending" 0.

(** [total P m Q]: started where [P] holds, [m] settles with a value and
    ends where [Q] holds of it. *)
Definition total {A} (P : world -> Prop) (m : M A) (Q : A -> world -> Prop) : Prop :=
  forall w, P w -> exists a w', m w = (Ok a, w') /\ Q a w'.

(** [w'] differs from [w] in the pool only. *)
Definition pool_only (w w' : world) : Prop :=
  store w' = store w /\ res w' = res w /\ sink_log w' = sink_log w /\
  encoded w' = encoded w /\ csv_started w' = csv_started w /\
  drain_due w' = drain_due w /\ files w' = files w /\ writer w' = writer w /\
  env w' = env w.

(** The sink takes everything and the encoder has put out [acc] so far. *)
Definition good (acc : string) (w : world) : Prop :=
  sink_ok w = true /\ output w = acc.

Definition is_nil {A} (l : list A) : bool :=
  match l with [] => true | _ => false end.

Definition csv_lines (l : libraries) (cols : list column) (rows : list row) : string :=
  concat (List.map (fun r => csv_format_record l (CsvWriter.options cols)
                               (CsvWriter.mapped cols r)) rows).

(** The stringifier's part of the state in a run without failure: once a row
    has been written, the header and the lines of the rows are out. *)
Definition csv_good (l : libraries) (cols : list column) (acc : string)
    (done : list row) (w : world) : Prop :=
  sink_ok w = true /\ libs (env w) = l /\
  csv_started w = negb (is_nil done) /\
  output w = acc +:+ (if is_nil done then EmptyString
                      else csv_format_header l (CsvWriter.options cols) +:+
                           csv_lines l cols done).

(** The trace ends on a write that reported a full buffer. *)
Definition ends_pending (l : list sink_event) : bool :=
  match last l with
  | Some (EvWrite _ false) => true
  | _ => false
  end.

(** A run that stopped waiting for [drain]. *)
Definition stalled (l : list sink_event) : bool := throttled l && ends_pending l.

Definition is_pending (ev : sink_event) : bool :=
  match ev with EvWrite _ false => true | _ => false end.

(** The invariant of an encoder between two steps, and what holds of a run
    that never ends. *)
Definition quiet (w : world) : Prop := settled (sink_log w) = true.

Definition waiting (w : world) : Prop := stalled (sink_log w) = true.

(** The text of an element of an array, and the value it is read as. *)
Definition item_text (x : value) : string := default "null" (JSON.stringify x).

(** The members an object prints and the members of its tree. *)
Definition member_texts (props : list (string * value)) : list string :=
  List.flat_map (fun kv => match JSON.stringify (snd kv) with
                           | Some s => [JSON.quote (fst kv) +:+ ":" +:+ s]
                           | None => []
                           end) props.

Definition member_trees (props : list (string * value)) : list (string * Grammar.json) :=
  List.flat_map (fun kv => match snd kv with
                           | VUndefined => []
                           | _ => [(fst kv, tree (snd kv))]
                           end) props.

Definition printed (v : value) : Prop :=
  match JSON.stringify v with
  | Some s => Grammar.parses s (tree v)
  | None => v = VUndefined
  end.

(** The JSON value of one record of the array. *)
Definition record_tree (cols : list column) (r : row) : Grammar.json :=
  tree (VObj (JsonWriter.rekey cols r)).

Inductive text_format := Csv | Json | Xml.

Definition text_writer (f : text_format) : db_script -> list column -> bool -> M unit :=
  match f with
  | Csv => CsvWriter.writeCsv
  | Json => JsonWriter.writeJson
  | Xml => XmlWriter.writeXml
  end.

Definition document (f : text_format) (l : libraries) (cols : list column)
    (rows : list row) : string :=
  match f with
  | Csv => csv_document l cols rows
  | Json => json_document cols rows
  | Xml => xml_document cols rows
  end.

(** The state a writer is started in by the handler: nothing sent, nothing
    encoded, no event on the sink. *)
Definition fresh (w : world) : bool :=
  negb (headersSent (res w)) && is_nil (encoded w) && negb (csv_started w)
  && is_nil (sink_log w).

(** The same state in front of a sink that is always ready. *)
Definition relieve (w : world) : world := with_env (Sink.with_answers []) w.

Definition sample_world (answers : list sink_answer) : world :=
  initial_world ∅ (sample_env (mkDb None [] None) answers).

Definition sample_row2 : row :=
  [("id", VStr "2"); ("name", VStr "Record_2"); ("metadata", VArr [VStr "x"; VNull])].

(** No writer touches the job store or the status code of the response. *)
Definition untouched (st : gmap string Job) (code : nat) (w : world) : Prop :=
  store w = st /\ statusCode (res w) = code.

Definition known_format (fmt : string) : bool :=
  existsb (String.eqb fmt) ["csv"; "json"; "xml"; "parquet"].

(* ===================================================================== *)
(** * routes/exports.js: the handler that creates a job *)
(* ===================================================================== *)

Module Js.

Definition zero_digit (d : digit) : bool :=
  match d with D0 => true | _ => false end.

(** [ToBoolean(v)]: [undefined], [null], [false], a zero, [NaN] and the
    empty string are falsy, everything else is truthy. *)
Definition truthy (v : value) : bool :=
  match v with
  | VUndefined | VNull => false
  | VBool b => b
  | VNum NaN => false
  | VNum (Finite _ IZero f _) => negb (forallb zero_digit f)
  | VNum _ => true
  | VStr s => negb (String.eqb s EmptyString)
  | VDate _ | VArr _ | VObj _ => true
  end.

(** [typeof v === 'string']. *)
Definition is_string (v : value) : bool :=
  match v with VStr _ => true | _ => false end.

(** [v === s] for a string [s]. *)
Definition equals (v : value) (s : string) : bool :=
  match v with VStr x => String.eqb x s | _ => false end.

(** The string a value is, once it is known to be one. *)
Definition text (v : value) : string :=
  match v with VStr s => s | _ => EmptyString end.

(** [v.k] for a name [k] that no built-in prototype defines (the handler
    reads [format], [columns], [compression], [source] and [target]): the
    own property of an object, [undefined] on a string, a number, a boolean,
    an array or a date, a [TypeError] on [null] and [undefined]. *)
Definition member (v : value) (k : string) : M value :=
  match v with
  | VUndefined =>
      throw ("Cannot read properties of undefined (reading '" +:+ k +:+ "')")
  | VNull =>
      throw ("Cannot read properties of null (reading '" +:+ k +:+ "')")
  | VObj o => ret (prop o k)
  | _ => ret VUndefined
  end.

End Js.

(** [createJob({format, columns, compression})] on the store of the
    process; [uuidv4()] is the identifier the environment supplies and [now]
    the time of the call. *)
Definition createJob (now : Z) (fmt : string) (cols : list column)
    (compr : option string) : M Job :=
  fun w =>
    let created := Jobs.createJob (uuid (env w)) now fmt cols compr (store w) in
    (Ok (fst created), with_store (fun _ => snd created) w).

Module Router.

Definition VALID_FORMATS : list string := ["csv"; "json"; "xml"; "parquet"].
Definition VALID_COMPRESSIONS : list string := ["gzip"].

(** [set.has(v)] for a set of strings. *)
Definition has (set : list string) (v : value) : bool :=
  match v with
  | VStr s => existsb (String.eqb s) set
  | _ => false
  end.

(** [return res.status(400).json({ error: message })]. *)
Definition bad_request (message : string) : M unit :=
  Res.status_json 400 [("error", VStr message)].

(** The loop over the entries of [columns]; [false] is the [return] of the
    rejection inside the loop.  The tests of the condition are evaluated
    from left to right, as [||] does. *)
Fixpoint columns_pass (cols : list value) : M bool :=
  match cols with
  | [] => ret true
  | col :: rest =>
      do src <- Js.member col "source";
      if negb (Js.truthy src) then ret false
      else
        do tgt <- Js.member col "target";
        if negb (Js.truthy tgt) || negb (Js.is_string src) || negb (Js.is_string tgt)
        then ret false
        else columns_pass rest
  end.

(** An entry of [columns] that passed the loop, as the later code reads it:
    by its [source] and its [target]. *)
Definition as_column (col : value) : column :=
  match col with
  | VObj o => Column (Js.text (prop o "source")) (Js.text (prop o "target"))
  | _ => Column EmptyString EmptyString
  end.

(** [POST /exports]. *)
Definition post (now : Z) (body : value) : M unit :=
  do fmt <- Js.member body "format";
  do cols <- Js.member body "columns";
  do compr <- Js.member body "compression";
  if negb (Js.truthy fmt) || negb (has VALID_FORMATS fmt) then
    bad_request ("Invalid or missing " +:+ dq +:+ "format" +:+ dq +:+
                 ". Must be one of: csv, json, xml, parquet.")
  else
    match cols with
    | VArr (c :: cs) =>
        do pass <- columns_pass (c :: cs);
        if negb pass then
          bad_request ("Each column must have non-empty " +:+ dq +:+ "source" +:+ dq +:+
                       " and " +:+ dq +:+ "target" +:+ dq +:+ " string fields.")
        else if Js.truthy compr && negb (has VALID_COMPRESSIONS compr) then
          bad_request ("Invalid " +:+ dq +:+ "compression" +:+ dq +:+ ". Supported: gzip.")
        else
          let columns := List.map as_column (c :: cs) in
          do refused <- try_catch (do _ <- Db.buildSelectClause columns; ret None)
                                  (fun err => ret (Some err));
          match refused with
          | Some message => bad_request message
          | None =>
              if Js.equals fmt "parquet" && Js.equals compr "gzip" then
                bad_request
                  "Parquet format does not support gzip compression (it is already compressed)."
              else
                do job <- createJob now (Js.text fmt) columns
                            (if Js.truthy compr then Some (Js.text compr) else None);
                Res.status_json 201
                  [("exportId", VStr (exportId job)); ("status", VStr (status job))]
          end
    | _ =>
        bad_request (dq +:+ "columns" +:+ dq +:+
                     " must be a non-empty array of {source, target} objects.")
    end.

End Router.

(* ===================================================================== *)
(** * index.js: the error handler of the application *)
(* ===================================================================== *)

Module App.

(** The global error handler. *)
Definition error_handler (err : error) : M unit :=
  do sent <- get (fun w => headersSent (res w));
  if sent then ret tt
  else Res.status_json 500
         [("error", VStr "Internal Server Error"); ("message", VStr err)].

(** A synchronous route handler under the application: what it throws goes
    to the error handler. *)
Definition handle (route : M unit) : M unit := try_catch route error_handler.

End App.

(* ===================================================================== *)
(** * Vocabulary of the further properties *)
(* ===================================================================== *)

(** A job as [POST /exports] stores it: one of the four formats, at least
    one column, every source a column of the table, every target non-empty,
    no compression or gzip, never gzip with Parquet, not yet run. *)
Definition storable (job : Job) : bool :=
  known_format (format job)
  && negb (is_nil (columns job))
  && forallb (fun c => Db.allowed (source c) && negb (String.eqb (target c) EmptyString))
             (columns job)
  && match compression job with
     | None => true
     | Some c => String.eqb c "gzip" && negb (String.eqb (format job) "parquet")
     end
  && String.eqb (status job) "pending".

(** The state the next request finds: the same process, a response of its
    own. *)
Definition next_request (w : world) : world := with_res (fun _ => fresh_response) w.

(** The batches [streamRows] yields for a script of reads: those in front of
    the first empty one. *)
Fixpoint yielded (rs : list read_result) : list batch :=
  match rs with
  | Rows (r :: b) :: rest => (r :: b) :: yielded rest
  | _ => []
  end.

(** The pool after one run of [streamRows] to its end. *)
Definition served (p : pool_state) : pool_state :=
  mkPool (S (acquired p)) (S (released p)) (S (cursors_opened p)) (S (cursors_closed p)).

(** The characters of a select clause: letters, the underscore, the double
    quote, the comma and the space. *)
Definition clause_char (c : ascii) : bool :=
  is_lower c || is_upper c || Ascii.eqb c "_" || Ascii.eqb c dquote
  || Ascii.eqb c "," || Ascii.eqb c " ".

(** The names an object holds, in order. *)
Definition keys {A} (o : list (string * A)) : list string := List.map fst o.

(** The value the last entry of [l] with key [k] gives. *)
Definition last_with {A B} (key : A -> string) (val : A -> B) (l : list A)
    (k : string) : option B :=
  fold_left (fun found x => if String.eqb (key x) k then Some (val x) else found)
            l None.

(** What a reader of XML text makes of the five entities; any other
    ampersand is left as it is.  [skip] counts the characters of an entity
    still to pass over. *)
Fixpoint unescape_from (skip : nat) (s : string) : string :=
  match s with
  | EmptyString => EmptyString
  | String c rest =>
      match skip with
      | S n => unescape_from n rest
      | O =>
          if Ascii.eqb c "&" then
            if String.prefix "amp;" rest then String "&" (unescape_from 4 rest)
            else if String.prefix "lt;" rest then String "<" (unescape_from 3 rest)
            else if String.prefix "gt;" rest then String ">" (unescape_from 3 rest)
            else if String.prefix "quot;" rest then String dquote (unescape_from 5 rest)
            else if String.prefix "apos;" rest then String "'" (unescape_from 5 rest)
            else String c (unescape_from 0 rest)
          else String c (unescape_from 0 rest)
      end
  end.

Definition unescape (s : string) : string := unescape_from 0 s.

(** The coercion of the staged encoder where [BigInt] accepts the value. *)
Definition coerced (src : string) (val : value) : pq_value :=
  if String.eqb src "id" then PqInt64 val
  else if String.eqb src "value" then PqDouble val
  else if String.eqb src "created_at" then PqTimestamp val
  else if String.eqb src "metadata" && ParquetWriter.typeof_object val
  then PqText (default "null" (JSON.stringify val))
  else PqRaw val.

(** The record appended for one row. *)
Definition record_of (cols : list column) (r : row) : pq_record :=
  fold_left (fun record col =>
               obj_set record (target col) (coerced (source col) (prop r (source col))))
            cols [].

(** A file system that fails nowhere and a pipe that ends. *)
Definition fs_ok (s : fs_script) : bool :=
  match mkdir_fails s, open_fails s, writer_close_fails s, pipe_result s with
  | None, None, None, PipeEnds => forallb (fun o => match o with None => true | Some _ => false end)
              (append_fails s)
  | _, _, _, _ => false
  end.

(** [ensures m Q]: whenever [m] returns, [Q] holds of the state it leaves. *)
Definition ensures {A} (m : M A) (Q : world -> Prop) : Prop :=
  forall w a w', m w = (Ok a, w') -> Q w'.

(** ** The pool along a run of [streamRows] *)

(** The client is released and the cursor is left open. *)
Definition released_only (p : pool_state) : pool_state :=
  mkPool (acquired p) (S (released p)) (cursors_opened p) (cursors_closed p).

(** The cursor is closed and the client is released. *)
Definition closed_and_released (p : pool_state) : pool_state :=
  mkPool (acquired p) (S (released p)) (cursors_opened p) (S (cursors_closed p)).

(** A client is acquired and a cursor is opened on it. *)
Definition connected (p : pool_state) : pool_state :=
  mkPool (S (acquired p)) (released p) (S (cursors_opened p)) (cursors_closed p).

(** What the first resumption of the generator does to the pool before its
    first read, and what a resumption that meets the end of the result set
    does to it. *)
Definition started (ph : Db.phase) (p : pool_state) : pool_state :=
  match ph with
  | Db.Start => connected p
  | _ => p
  end.

Definition finished (ph : Db.phase) (p : pool_state) : pool_state :=
  match ph with
  | Db.Start => served p
  | _ => closed_and_released p
  end.

(** ** Replies in JSON *)

(** The response after [res.status(code).json(payload)] on a response
    that was untouched. *)
Definition json_reply (code : nat) (payload : object) : response :=
  mkResponse [("Content-Type", "application/json")] code true
             [JSON.stringify_object payload] true false.

(** The reply of [POST /exports] to a request it accepts. *)
Definition created_reply (id : string) : response :=
  json_reply 201 [("exportId", VStr id); ("status", VStr "pending")].

(** The response has been ended. *)
Definition ended (w : world) : Prop := writableEnded (res w) = true.

(** ** Entries of [columns] in a request *)

(** An entry with a non-empty string [source] and a non-empty string
    [target]. *)
Definition column_valid (col : value) : bool :=
  match col with
  | VObj o =>
      match prop o "source", prop o "target" with
      | VStr s, VStr t => negb (String.eqb s EmptyString) && negb (String.eqb t EmptyString)
      | _, _ => false
      end
  | _ => false
  end.

(** [null] or [undefined]. *)
Definition nullish (v : value) : bool :=
  match v with VUndefined | VNull => true | _ => false end.

(** ** The staged encoder at work *)

Definition parquet_headers : list (string * string) :=
  [("Content-Type", "application/vnd.apache.parquet");
   ("Content-Disposition", "attachment; filename=" +:+ dq +:+ "export.parquet" +:+ dq)].

(** The writer is open on [path] with the records appended so far, nothing
    fails in the file system, and the response and the files are [r0] and
    [fl]. *)
Definition staged (l : libraries) (path : string) (schema : pq_schema)
    (r0 : response) (fl : gmap string string) (records : list pq_record)
    (w : world) : Prop :=
  libs (env w) = l /\ fs_ok (fs (env w)) = true /\
  writer w = Some (mkWriter path schema records) /\
  res w = r0 /\ files w = fl.

(** The same before the file is opened. *)
Definition prepared (l : libraries) (id : string) (r0 : response)
    (fl : gmap string string) (w : world) : Prop :=
  libs (env w) = l /\ uuid (env w) = id /\ fs_ok (fs (env w)) = true /\
  res w = r0 /\ files w = fl.

(** The Parquet type a coerced value is written as. *)
Definition type_of (v : pq_value) : pq_type :=
  match v with
  | PqInt64 _ => INT64
  | PqDouble _ => DOUBLE
  | PqTimestamp _ => TIMESTAMP_MILLIS
  | PqText _ | PqRaw _ => UTF8
  end.

(** ** The text encoders at work *)

(** The headers [text_headers] sets on an untouched response. *)
Definition text_headers_of (mime file : string) (compress : bool) : list (string * string) :=
  [("Content-Type", mime);
   ("Content-Disposition",
    "attachment; filename=" +:+ dq +:+ file +:+ (if compress then ".gz" +:+ dq else dq))]
  ++ (if compress then [("Content-Encoding", "gzip")] else []).

(** An encoder at work on a response with the headers [h]: the sink takes
    everything, the chunks written so far are [chunks], and they have gone
    to the response, or into the compressor when there is one. *)
Definition streaming (l : libraries) (compress : bool) (h : list (string * string))
    (chunks : list string) (w : world) : Prop :=
  sink_ok w = true /\ libs (env w) = l /\ encoded w = chunks /\
  res w = mkResponse h 200 (negb compress && negb (is_nil chunks))
            (if compress then [] else chunks) false false.

(** The response at the end of an export: the chunks as they were written,
    or their compression. *)
Definition delivered_response (l : libraries) (compress : bool)
    (h : list (string * string)) (chunks : list string) : response :=
  mkResponse h 200 true (if compress then [gzip l (concat chunks)] else chunks) true false.

Definition finished_with (l : libraries) (compress : bool) (h : list (string * string))
    (chunks : list string) (w : world) : Prop :=
  encoded w = chunks /\ res w = delivered_response l compress h chunks.

(** The chunk [writeJson] writes for each row. *)
Fixpoint json_chunks (cols : list column) (first : bool) (rows : list row) : list string :=
  match rows with
  | [] => []
  | r :: rest =>
      ((if first then nl else "," +:+ nl) +:+
       JSON.stringify_object (JsonWriter.rekey cols r))
      :: json_chunks cols false rest
  end.

(** The chunk the stringifier pushes for each row: the header line goes
    with the first. *)
Fixpoint csv_chunks (l : libraries) (cols : list column) (started : bool)
    (rows : list row) : list string :=
  match rows with
  | [] => []
  | r :: rest =>
      ((if started then EmptyString else csv_format_header l (CsvWriter.options cols)) +:+
       csv_format_record l (CsvWriter.options cols) (CsvWriter.mapped cols r))
      :: csv_chunks l cols true rest
  end.

(** The chunks each text encoder writes for the batches it is given: the
    delimited text one per row, or the header line alone when there is no
    row; the array its opening bracket, one per row, and its closing
    bracket; the markup the declaration with the root tag, one per batch,
    and the closing tag. *)
Definition chunks_of (f : text_format) (l : libraries) (cols : list column)
    (batches : list batch) : list string :=
  match f with
  | Csv =>
      match List.concat batches with
      | [] =>
          if String.eqb (csv_format_header l (CsvWriter.options cols)) EmptyString
          then [] else [csv_format_header l (CsvWriter.options cols)]
      | r :: rest => csv_chunks l cols false (r :: rest)
      end
  | Json => "[" :: json_chunks cols true (List.concat batches) ++ [nl +:+ "]"]
  | Xml => XmlWriter.prolog :: List.map (XmlWriter.batch_xml cols) batches ++ ["</records>"]
  end.

Definition headers_of (f : text_format) (compress : bool) : list (string * string) :=
  match f with
  | Csv => text_headers_of "text/csv" "export.csv" compress
  | Json => text_headers_of "application/json" "export.json" compress
  | Xml => text_headers_of "application/xml" "export.xml" compress
  end.

Definition csv_streaming (l : libraries) (compress : bool) (h : list (string * string))
    (cols : list column) (done : list row) (w : world) : Prop :=
  streaming l compress h (csv_chunks l cols false done) w /\
  csv_started w = negb (is_nil done).

(** The value of [job.format] that selects each text encoder, and
    [job.compression === 'gzip']. *)
Definition format_name (f : text_format) : string :=
  match f with
  | Csv => "csv"
  | Json => "json"
  | Xml => "xml"
  end.

Definition wants_gzip (job : Job) : bool :=
  match compression job with
  | Some c => String.eqb c "gzip"
  | None => false
  end.

(** ** Elements of a markup tree *)

(** A name as [sanitize] leaves it: characters of [[A-Za-z0-9_.-]], the
    first of them no digit. *)
Definition tag_name (name : string) : Prop :=
  forallb XmlWriter.name_char (chars name) = true /\
  match name with
  | String c _ => is_digit c = false
  | EmptyString => True
  end.

(** Text without markup characters, every ampersand of which starts an
    entity. *)
Definition character_data (text : string) : Prop :=
  forallb (fun c => negb (markup_char c)) (chars text) = true /\
  entities_only text = true.

(** [xml_element s]: the text [s] is one element: an empty-element tag, or
    a start tag and the end tag of the same name around character data or
    around elements. *)
Inductive xml_element : string -> Prop :=
| xml_empty (name : string) :
    tag_name name -> xml_element ("<" +:+ name +:+ "/>")
| xml_text (name text : string) :
    tag_name name -> character_data text ->
    xml_element (XmlWriter.open_tag name +:+ text +:+ XmlWriter.close_tag name)
| xml_parent (name : string) (children : list string) :
    tag_name name -> Forall xml_element children ->
    xml_element (XmlWriter.open_tag name +:+ concat children +:+ XmlWriter.close_tag name).

(** ** Sample requests *)

Definition sample_request : value :=
  VObj [("format", VStr "csv");
        ("columns", VArr [VObj [("source", VStr "id"); ("target", VStr "ID")];
                          VObj [("source", VStr "metadata"); ("target", VStr "meta")]]);
        ("compression", VStr "gzip")].

Definition sample_stored (fmt : string) (g : db_script) (answers : list sink_answer)
    : world :=
  initial_world {[ "job-1" := sample_job fmt ]} (sample_env g answers).

(** ** What holds of a response whatever fails *)

(** [triple P m Q E]: started where [P] holds, [m] ends where [Q] holds of
    its result when it returns and where [E] holds when it throws. *)
Definition triple {A} (P : world -> Prop) (m : M A) (Q : A -> world -> Prop)
    (E : world -> Prop) : Prop :=
  forall w, P w ->
    match m w with
    | (Ok a, w') => Q a w'
    | (Throw _, w') => E w'
    | (Hang, _) => True
    end.

(** The response of an export under way: status 200, the headers [h],
    neither ended nor destroyed, and in its body what the encoder has put
    out, or nothing yet when the output goes through the compressor. *)
Definition under_way (compress : bool) (h : list (string * string)) (w : world) : Prop :=
  statusCode (res w) = 200 /\ headers (res w) = h /\
  writableEnded (res w) = false /\ destroyed (res w) = false /\
  body (res w) = (if compress then [] else encoded w).

(** The response of an export that is over: ended, status 200, the headers
    [h], and in its body what the encoder has put out; under compression,
    the compressed output when the encoder finished and nothing when it was
    cut short. *)
Definition over (compress : bool) (h : list (string * string)) (w : world) : Prop :=
  statusCode (res w) = 200 /\ headers (res w) = h /\
  writableEnded (res w) = true /\
  if compress
  then body (res w) = [] \/ body (res w) = [gzip (libs (env w)) (concat (encoded w))]
  else body (res w) = encoded w.

(** The response is [r0]. *)
Definition response_is (r0 : response) (w : world) : Prop := res w = r0.

(* ===================================================================== *)
(** * Strings and objects: basic facts *)
(* ===================================================================== *)

Lemma append_nil_r (s : string) : s +:+ EmptyString = s.
Proof. induction s as [|c s IH]; simpl; [reflexivity | by rewrite IH]. Qed.

Lemma append_assoc (a b c : string) : (a +:+ b) +:+ c = a +:+ (b +:+ c).
Proof. induction a as [|x a IH]; simpl; [reflexivity | by rewrite IH]. Qed.

Lemma concat_app (l1 l2 : list string) :
  concat (l1 ++ l2) = concat l1 +:+ concat l2.
Proof.
  induction l1 as [|x l1 IH]; simpl; [reflexivity|].
  by rewrite IH, append_assoc.
Qed.

Lemma concat_snoc (l : list string) (x : string) :
  concat (l ++ [x]) = concat l +:+ x.
Proof. rewrite concat_app. simpl. by rewrite append_nil_r. Qed.

Lemma chars_append (a b : string) : chars (a +:+ b) = chars a ++ chars b.
Proof. induction a as [|x a IH]; simpl; [reflexivity | by rewrite IH]. Qed.

Lemma replace_all_append (c : ascii) (by_ a b : string) :
  replace_all c by_ (a +:+ b) = replace_all c by_ a +:+ replace_all c by_ b.
Proof.
  induction a as [|x a IH]; simpl; [reflexivity|].
  by rewrite IH, append_assoc.
Qed.

Lemma obj_get_set {A} (o : list (string * A)) (k k' : string) (v : A) :
  obj_get (obj_set o k v) k' = if String.eqb k k' then Some v else obj_get o k'.
Proof.
  induction o as [|[k0 v0] o IH]; simpl.
  - reflexivity.
  - destruct (String.eqb_spec k0 k) as [->|Hne]; simpl.
    + destruct (String.eqb_spec k k'); reflexivity.
    + rewrite IH. destruct (String.eqb_spec k0 k') as [->|]; [|reflexivity].
      destruct (String.eqb_spec k k'); [congruence | reflexivity].
Qed.

(** Case analysis on a character, all 256 of them. *)
Ltac each_char c :=
  destruct c as [[] [] [] [] [] [] [] []].

(* ===================================================================== *)
(** * jobs.js: a status update of an unknown job *)
(* ===================================================================== *)

(** C10.  For an [exportId] that the store does not hold,
    [updateJobStatus(exportId, status)] changes nothing: the store is the
    one it was (no entry created, no job modified), the call completes
    without an error and leaves the whole state as it was, and
    [getJob(exportId)] still finds nothing. *)
Theorem updateJobStatus_unknown_id (id s : string) (w : world) :
  store w !! id = None ->
  Jobs.updateJobStatus id s (store w) = store w /\
  updateJobStatus id s w = (Ok tt, w) /\
  (do _ <- updateJobStatus id s; getJob id) w = (Ok None, w).
Proof.
  intros Hnone.
  assert (Hst : Jobs.updateJobStatus id s (store w) = store w).
  { unfold Jobs.updateJobStatus. by rewrite Hnone. }
  assert (Hw : with_store (Jobs.updateJobStatus id s) w = w).
  { destruct w; unfold with_store; simpl in *. by rewrite Hst. }
  split; [exact Hst|]. split.
  - unfold updateJobStatus, modify. by rewrite Hw.
  - unfold bind, updateJobStatus, modify, getJob, get, Jobs.getJob.
    rewrite Hw. by rewrite Hnone.
Qed.

Lemma updateJobStatus_unknown_id_witness :
  let w := initial_world {[ "a" := mkJob "a" "csv" [Column "id" "ID"] None "pending" 0 ]}
             (mkEnv (mkDb None [] None) [] (mkFs None None [] None PipeEnds)
                    (mkLibs id (fun _ => EmptyString) (fun _ _ => EmptyString)
                            (fun _ _ => EmptyString) (fun _ => None))
                    "u") in
  Jobs.updateJobStatus "b" "complete" (store w) = store w /\
  updateJobStatus "b" "complete" w = (Ok tt, w) /\
  (do _ <- updateJobStatus "b" "complete"; getJob "b") w = (Ok None, w).
Proof.
  intros w. apply (updateJobStatus_unknown_id "b" "complete" w).
  vm_compute. reflexivity.
Defined.

(* ===================================================================== *)
(** * writers/parquetWriter.js: the schema *)
(* ===================================================================== *)

Lemma buildSchema_fold (cols : list column) (name : string)
    (fields : pq_schema) (found : option string) :
  obj_get fields name = ParquetWriter.getParquetFieldType <$> found ->
  obj_get (fold_left (fun fields col =>
                        obj_set fields (target col)
                                (ParquetWriter.getParquetFieldType (source col)))
                     cols fields) name
  = ParquetWriter.getParquetFieldType <$>
      fold_left (fun found col =>
                   if String.eqb (target col) name then Some (source col) else found)
                cols found.
Proof.
  revert fields found.
  induction cols as [|col cols IH]; intros fields found H; simpl; [exact H|].
  apply IH. rewrite obj_get_set.
  destruct (String.eqb (target col) name); [reflexivity | exact H].
Qed.

(** C9.  In the schema built for a column mapping, the type of an output
    column is the type of the source field declared for it (by the last
    column that names it) and of nothing else: [id] is a 64-bit integer,
    [value] a 64-bit float, [created_at] a millisecond timestamp,
    [metadata] text, and every other field text; the nested value of
    [metadata] is stored in that text column as its JSON string. *)
Theorem buildSchema_types_by_source :
  (forall (cols : list column) (name : string),
     obj_get (ParquetWriter.buildSchema cols) name
     = ParquetWriter.getParquetFieldType <$> last_source cols name) /\
  ParquetWriter.getParquetFieldType "id" = INT64 /\
  ParquetWriter.getParquetFieldType "value" = DOUBLE /\
  ParquetWriter.getParquetFieldType "created_at" = TIMESTAMP_MILLIS /\
  ParquetWriter.getParquetFieldType "metadata" = UTF8 /\
  (forall src : string,
     ParquetWriter.getParquetFieldType src
     = if decide (src = "id") then INT64
       else if decide (src = "value") then DOUBLE
       else if decide (src = "created_at") then TIMESTAMP_MILLIS
       else UTF8) /\
  (forall (props : object) (w : world),
     ParquetWriter.coerce "metadata" (VObj props) w
     = (Ok (PqText (JSON.stringify_object props)), w)) /\
  (forall (items : list value) (w : world),
     ParquetWriter.coerce "metadata" (VArr items) w
     = (Ok (PqText (default "null" (JSON.stringify (VArr items)))), w)).
Proof.
  split; [|repeat split].
  - intros cols name. unfold ParquetWriter.buildSchema, last_source.
    by apply buildSchema_fold.
  - intros src. unfold ParquetWriter.getParquetFieldType.
    repeat case_decide; subst; try reflexivity.
    repeat match goal with
           | H : ?a <> ?b |- context [String.eqb ?a ?b] =>
               destruct (String.eqb_spec a b); [contradiction|]
           end.
    by destruct (String.eqb src "metadata").
Qed.

(* ===================================================================== *)
(** * writers/xmlWriter.js: names, lists and text *)
(* ===================================================================== *)

Lemma replace_invalid_chars (s : string) :
  XmlWriter.replace_invalid s
  = string_of_list_ascii
      (List.map (fun c => if XmlWriter.name_char c then c else "_"%char) (chars s)).
Proof. induction s as [|c s IH]; simpl; [reflexivity | by rewrite IH]. Qed.

Lemma replaced_digit (c : ascii) :
  is_digit (if XmlWriter.name_char c then c else "_"%char) = is_digit c.
Proof. each_char c; reflexivity. Qed.

Lemma sanitize_spec (tagName : string) :
  XmlWriter.sanitize tagName = spec_element_name tagName.
Proof.
  unfold XmlWriter.sanitize, spec_element_name.
  rewrite <- replace_invalid_chars.
  destruct tagName as [|c s]; simpl; [reflexivity|].
  rewrite replaced_digit. destruct (is_digit c); reflexivity.
Qed.

Lemma escape_append (a b : string) :
  XmlWriter.escape (a +:+ b) = XmlWriter.escape a +:+ XmlWriter.escape b.
Proof. unfold XmlWriter.escape. by rewrite !replace_all_append. Qed.

Lemma escape_one (c : ascii) : XmlWriter.escape (str c) = spec_escape_char c.
Proof. each_char c; reflexivity. Qed.

Lemma escape_cons (c : ascii) (s : string) :
  XmlWriter.escape (String c s) = spec_escape_char c +:+ XmlWriter.escape s.
Proof.
  change (String c s) with (str c +:+ s).
  by rewrite escape_append, escape_one.
Qed.

Lemma escape_spec (s : string) : XmlWriter.escape s = spec_escape s.
Proof.
  unfold spec_escape.
  induction s as [|c s IH]; [reflexivity|].
  rewrite escape_cons, IH. reflexivity.
Qed.

Lemma escape_no_markup (s : string) :
  forallb (fun c => negb (markup_char c)) (chars (XmlWriter.escape s)) = true.
Proof.
  induction s as [|c s IH]; [reflexivity|].
  rewrite escape_cons, chars_append, forallb_app, IH, andb_true_r.
  each_char c; reflexivity.
Qed.

Lemma prefix_nil (s : string) : String.prefix EmptyString s = true.
Proof. destruct s; reflexivity. Qed.

Lemma escape_entities (s : string) : entities_only (XmlWriter.escape s) = true.
Proof.
  induction s as [|c s IH]; [reflexivity|].
  rewrite escape_cons.
  each_char c; cbn; rewrite ?prefix_nil, ?IH; reflexivity.
Qed.

Lemma valueToXml_element (tagName : string) (v : value) :
  XmlWriter.valueToXml tagName v = "<" +:+ XmlWriter.sanitize tagName +:+ "/>" \/
  exists inner,
    XmlWriter.valueToXml tagName v
    = XmlWriter.open_tag (XmlWriter.sanitize tagName) +:+ inner +:+
      XmlWriter.close_tag (XmlWriter.sanitize tagName).
Proof.
  destruct v; simpl;
    first [by left | right; eexists; reflexivity
          | right; exists EmptyString; reflexivity].
Qed.


(* ===================================================================== *)
(** * Invariants of monadic code *)
(* ===================================================================== *)

Section Keeps.
Context (J J' : world -> Prop).

Lemma keeps_ret {A} (a : A) : keeps J J' (ret a).
Proof. intros w H. exact H. Qed.

Lemma keeps_throw {A} (e : error) : keeps J J' (@throw A e).
Proof. intros w H. exact H. Qed.

Lemma keeps_hang {A} : (forall w, J w -> J' w) -> keeps J J' (@hang A).
Proof. intros H w Hw. by apply H. Qed.

Lemma keeps_get {A} (f : world -> A) : keeps J J' (get f).
Proof. intros w H. exact H. Qed.

Lemma keeps_modify (f : world -> world) :
  (forall w, J w -> J (f w)) -> keeps J J' (modify f).
Proof. intros Hf w H. by apply Hf. Qed.

Lemma keeps_may_fail (o : option error) : keeps J J' (may_fail o).
Proof. destruct o; [apply keeps_throw | apply keeps_ret]. Qed.

Lemma keeps_bind {A B} (m : M A) (k : A -> M B) :
  keeps J J' m -> (forall a, keeps J J' (k a)) -> keeps J J' (bind m k).
Proof.
  intros Hm Hk w H. unfold bind. specialize (Hm w H).
  destruct (m w) as [[a|e|] w1]; [by apply Hk | exact Hm | exact Hm].
Qed.

Lemma keeps_try_catch {A} (m : M A) (h : error -> M A) :
  keeps J J' m -> (forall e, keeps J J' (h e)) -> keeps J J' (try_catch m h).
Proof.
  intros Hm Hh w H. unfold try_catch. specialize (Hm w H).
  destruct (m w) as [[a|e|] w1]; [exact Hm | by apply Hh | exact Hm].
Qed.

Lemma keeps_try_finally {A} (m : M A) (f : M unit) :
  keeps J J' m -> keeps J J' f -> keeps J J' (try_finally m f).
Proof.
  intros Hm Hf w H. unfold try_finally. specialize (Hm w H).
  destruct (m w) as [[a|e|] w1]; [| |exact Hm].
  - apply (keeps_bind f (fun _ => ret a)); [exact Hf | intros; apply keeps_ret | exact Hm].
  - apply (keeps_bind f (fun _ => throw e)); [exact Hf | intros; apply keeps_throw | exact Hm].
Qed.

Lemma keeps_if {A} (b : bool) (m1 m2 : M A) :
  keeps J J' m1 -> keeps J J' m2 -> keeps J J' (if b then m1 else m2).
Proof. by destruct b. Qed.

Lemma keeps_for_of_fold {A S} (l : list A) (s : S) (body : S -> A -> M S) :
  (forall s x, keeps J J' (body s x)) -> keeps J J' (for_of_fold l s body).
Proof.
  intros Hb. revert s.
  induction l as [|x l IH]; intros s; simpl; [apply keeps_ret|].
  apply keeps_bind; [apply Hb | exact IH].
Qed.

Lemma keeps_for_of {A} (l : list A) (body : A -> M unit) :
  (forall x, keeps J J' (body x)) -> keeps J J' (for_of l body).
Proof.
  intros Hb. induction l as [|x l IH]; simpl; [apply keeps_ret|].
  apply keeps_bind; [apply Hb | intros _; exact IH].
Qed.

(** The generator only touches the pool. *)
Hypothesis J_pool : forall f w, J w -> J (with_pool f w).

Lemma keeps_on_pool (f : pool_state -> pool_state) : keeps J J' (Db.on_pool f).
Proof. apply keeps_modify. intros w. apply J_pool. Qed.

Lemma keeps_resume (d : db_script) (r : read_result) : keeps J J' (Db.resume d r).
Proof.
  unfold Db.resume, Db.loop_until_yield, Db.cursor_read, Db.cursor_close,
    Db.client_release.
  apply keeps_bind.
  - apply keeps_try_catch.
    + apply keeps_bind; [destruct r; [apply keeps_ret | apply keeps_throw]|].
      intros rows. apply keeps_if; [|apply keeps_ret].
      apply keeps_bind; [|intros; apply keeps_ret].
      apply keeps_bind; [apply keeps_may_fail | intros; apply keeps_on_pool].
    + intros e. apply keeps_bind; [apply keeps_on_pool | intros; apply keeps_throw].
  - intros [rows|]; [apply keeps_ret|].
    apply keeps_bind; [apply keeps_on_pool | intros; apply keeps_ret].
Qed.

Lemma keeps_next (d : db_script) (ph : Db.phase) (r : read_result) :
  keeps J J' (Db.next d ph r).
Proof.
  destruct ph; simpl; [|apply keeps_resume | apply keeps_ret].
  apply keeps_bind.
  - unfold Db.pool_connect.
    apply keeps_bind; [apply keeps_may_fail | intros; apply keeps_on_pool].
  - intros _. apply keeps_bind; [apply keeps_on_pool | intros; apply keeps_resume].
Qed.

Lemma keeps_for_await {S} (d : db_script) (ph : Db.phase)
    (rs : list read_result) (s : S) (body : S -> batch -> M S) :
  (forall s b, keeps J J' (body s b)) -> keeps J J' (Db.for_await d ph rs s body).
Proof.
  intros Hb. revert ph s.
  induction rs as [|r rs IH]; intros ph s; simpl.
  - apply keeps_bind; [apply keeps_next | intros; apply keeps_ret].
  - apply keeps_bind; [apply keeps_next|].
    intros [rows|]; [|apply keeps_ret].
    apply keeps_bind; [|intros; apply IH].
    apply keeps_try_catch; [apply Hb|].
    intros e. apply keeps_bind; [|intros; apply keeps_throw].
    apply keeps_on_pool.
Qed.

End Keeps.

Create HintDb pipeline.

#[local] Hint Unfold
  Res.write Res.end' Res.destroy Res.end_unless_ended Res.status_json
  Sink.log Sink.emit Sink.finish Sink.end' Sink.destroy
  text_headers abort_stream
  CsvWriter.header_if_due CsvWriter.stringifier_end
  CsvWriter.stringifier_destroy
  JsonWriter.write_row
  ParquetWriter.coerce ParquetWriter.build_record ParquetWriter.mkdirSync
  ParquetWriter.openFile ParquetWriter.appendRow ParquetWriter.writer_close
  ParquetWriter.pipe_to_response ParquetWriter.unlink
  Db.for_await_rows Db.streamRows getJob updateJobStatus : pipeline.

(** One structural step of an invariant proof; modifications of the state
    are left to the caller. *)
Ltac keeps_step :=
  lazymatch goal with
  | |- keeps _ _ (ret _) => apply keeps_ret
  | |- keeps _ _ (throw _) => apply keeps_throw
  | |- keeps _ _ hang => apply keeps_hang
  | |- keeps _ _ (get _) => apply keeps_get
  | |- keeps _ _ (may_fail _) => apply keeps_may_fail
  | |- keeps _ _ (bind _ _) => apply keeps_bind; [|intros ?]
  | |- keeps _ _ (try_catch _ _) => apply keeps_try_catch; [|intros ?]
  | |- keeps _ _ (try_finally _ _) => apply keeps_try_finally
  | |- keeps _ _ (for_of _ _) => apply keeps_for_of; intros ?
  | |- keeps _ _ (for_of_fold _ _ _) => apply keeps_for_of_fold; intros ? ?
  | |- keeps _ _ (Db.for_await _ _ _ _ _) => apply keeps_for_await; [|intros ? ?]
  | |- keeps _ _ (if ?b then _ else _) => destruct b
  | |- keeps _ _ (match ?x with _ => _ end) => destruct x
  | |- keeps _ _ (let _ := _ in _) => cbv zeta
  | |- keeps _ _ _ => progress autounfold with pipeline
  end.

(* ===================================================================== *)
(** * writers/parquetWriter.js: the staging file *)
(* ===================================================================== *)

Lemma setHeader_fresh (name val : string) (w : world) :
  headersSent (res w) = false ->
  exists w', Res.setHeader name val w = (Ok tt, w') /\
             headersSent (res w') = false /\ env w' = env w /\
             files w' = files w /\ encoded w' = encoded w /\
             sink_log w' = sink_log w /\ csv_started w' = csv_started w /\
             store w' = store w /\ pool w' = pool w.
Proof.
  intros H. unfold Res.setHeader. rewrite H.
  eexists. split; [reflexivity|]. destruct w; simpl in *. by rewrite H.
Qed.

(** A [catch] block that always completes swallows every error. *)
Lemma try_catch_swallows {A} (m : M A) (h : error -> M A) (w : world) :
  (forall e w1, exists a w2, h e w1 = (Ok a, w2)) ->
  forall e w', try_catch m h w <> (Throw e, w').
Proof.
  intros Hh e w'. unfold try_catch.
  destruct (m w) as [[a|e1|] w1]; try discriminate.
  destruct (Hh e1 w1) as (a & w2 & E). rewrite E. discriminate.
Qed.

(** The [try] block of the staged encoder settles unless its pipe stalls. *)
Lemma parquet_block_settles (p : pipe_outcome) (g : db_script)
    (cols : list column) (tmp : string) :
  keeps (pipe_is p) (fun _ => pipe_stalls p)
    (try_catch
       (do _ <- ParquetWriter.mkdirSync;
        let schema := ParquetWriter.buildSchema cols in
        do _ <- ParquetWriter.openFile schema tmp;
        do _ <- Db.for_await_rows g tt
                  (fun _ b =>
                     for_of b (fun r =>
                       do record <- ParquetWriter.build_record cols r;
                       ParquetWriter.appendRow record));
        do _ <- ParquetWriter.writer_close;
        ParquetWriter.pipe_to_response tmp)
       (fun err => Res.end_unless_ended)).
Proof.
  assert (Hpipe : keeps (pipe_is p) (fun _ => pipe_stalls p)
                    (ParquetWriter.pipe_to_response tmp)).
  { intros w H. unfold pipe_is in H.
    unfold ParquetWriter.pipe_to_response, Res.write, Res.end', bind, get, modify,
      ret, throw, hang.
    destruct (files w !! tmp); [|exact H]. rewrite H.
    destruct p as [|sent e|sent]; [exact H | |];
      destruct (String.eqb sent EmptyString); first [exact H | by exists sent]. }
  repeat lazymatch goal with
         | |- keeps _ _ (ParquetWriter.pipe_to_response _) => exact Hpipe
         | |- keeps _ _ (modify _) =>
             apply keeps_modify; intros [? ? ? ? ? ? ? ? ? [? ? [] ? ?]] ?;
             unfold pipe_is in *; cbn in *; repeat case_match; done
         | |- forall (f : _) (w : _), pipe_is _ w -> pipe_is _ (with_pool f w) =>
             intros ? [] ?; assumption
         | |- _ => keeps_step
         end.
Qed.

Lemma end_unless_ended_ok (w : world) :
  exists w', Res.end_unless_ended w = (Ok tt, w') /\ files w' = files w.
Proof.
  unfold Res.end_unless_ended, bind, get.
  destruct (writableEnded (res w)); eexists; (split; [reflexivity|]);
    by destruct w.
Qed.

(** However the steps of the staged encoder end, the encoder returns
    normally, the last thing it did being the [unlink] of its [finally]
    block, or it never returns, its pipe being stalled. *)
Lemma writeParquet_ends_with_unlink
    (g : db_script) (cols : list column) (w : world) :
  headersSent (res w) = false ->
  (exists w1,
     ParquetWriter.writeParquet g cols w
     = (Ok tt, with_files (fun m => delete (ParquetWriter.tmpFile (uuid (env w))) m) w1))
  \/
  (exists w1,
     ParquetWriter.writeParquet g cols w = (Hang, w1) /\
     pipe_stalls (pipe_result (fs (env w)))).
Proof.
  intros Hfresh.
  destruct (setHeader_fresh "Content-Type" "application/vnd.apache.parquet" w Hfresh)
    as (w1 & E1 & F1 & Henv1 & _).
  destruct (setHeader_fresh "Content-Disposition"
              ("attachment; filename=" +:+ dq +:+ "export.parquet" +:+ dq) w1 F1)
    as (w2 & E2 & F2 & Henv2 & _).
  set (tmp := ParquetWriter.tmpFile (uuid (env w))).
  assert (Hp : pipe_is (pipe_result (fs (env w))) w2).
  { unfold pipe_is. by rewrite Henv2, Henv1. }
  pose proof (parquet_block_settles _ g cols tmp w2 Hp) as Hhang.
  match type of Hhang with
  | context [try_catch ?b ?h w2] => set (blk := try_catch b h) in *
  end.
  assert (Erun : ParquetWriter.writeParquet g cols w
                 = try_finally blk (ParquetWriter.unlink tmp) w2).
  { unfold ParquetWriter.writeParquet.
    unfold bind at 1. rewrite E1. unfold bind at 1. rewrite E2.
    unfold bind at 1, get at 1. cbv zeta. by rewrite Henv2, Henv1. }
  rewrite Erun. unfold try_finally.
  assert (Hcatch : forall e w3, (blk w2) <> (Throw e, w3)).
  { intros e w3. subst blk. apply try_catch_swallows.
    intros e1 w4. destruct (end_unless_ended_ok w4) as (w5 & E5 & _). eauto. }
  destruct (blk w2) as [[[]|e|] w3] eqn:Eblk.
  - left. exists w3. reflexivity.
  - exfalso. by eapply Hcatch.
  - right. exists w3. split; [reflexivity | exact Hhang].
Qed.



(* ===================================================================== *)
(** * db.js: how [streamRows] ends *)
(* ===================================================================== *)

(** One resumption of the generator yields without touching the pool, or
    leaves the [try] block through [finally], which releases the client. *)
Lemma resume_cases (d : db_script) (r : read_result) (w : world) :
  match Db.resume d r w with
  | (Ok (Some _), w') => pool w' = pool w
  | (Ok None, w') | (Throw _, w') =>
      acquired (pool w') = acquired (pool w) /\
      released (pool w') = S (released (pool w))
  | (Hang, _) => False
  end.
Proof.
  unfold Db.resume, Db.loop_until_yield, Db.cursor_read, Db.cursor_close,
    Db.client_release, Db.on_pool, try_catch, bind, modify, may_fail, ret, throw.
  destruct r as [rows|e]; simpl.
  - destruct rows as [|x rows]; simpl; [|reflexivity].
    destruct (close_fails d); simpl; by destruct w.
  - by destruct w.
Qed.

(** Whatever ends the iteration (the end of the result set, a failing
    read, a consumer that throws), the client a suspended generator holds is
    released once, and none is acquired, by the time the loop is left. *)
Lemma for_await_suspended_releases_once {St} (d : db_script)
    (body : St -> batch -> M St) :
  (forall s b w, pool (body s b w).2 = pool w) ->
  forall (rs : list read_result) (s : St) (w : world),
    match Db.for_await d Db.Suspended rs s body w with
    | (Hang, _) => True
    | (_, w') =>
        acquired (pool w') = acquired (pool w) /\
        released (pool w') = S (released (pool w))
    end.
Proof.
  intros Hbody rs.
  induction rs as [|r rs IH]; intros s w; simpl; unfold bind.
  - unfold Db.resume, Db.loop_until_yield, Db.cursor_read, Db.cursor_close,
      Db.client_release, Db.on_pool, try_catch, bind, modify, may_fail, ret, throw.
    simpl. destruct (close_fails d); simpl; by destruct w.
  - pose proof (resume_cases d r w) as Hr.
    destruct (Db.resume d r w) as [[[rows|]|e|] w1]; simpl; try done.
    unfold try_catch.
    pose proof (Hbody s rows w1) as Hb.
    destruct (body s rows w1) as [[s'|e|] w2]; simpl in *.
    + specialize (IH s' w2).
      destruct (Db.for_await d Db.Suspended rs s' body w2) as [[?|?|] w3];
        try done; rewrite Hb, Hr in IH; exact IH.
    + unfold bind, Db.client_release, Db.on_pool, modify, throw. simpl.
      rewrite Hb, Hr. done.
    + exact I.
Qed.

(** The same from the start of the generator: either the connection is
    refused and nothing was acquired, or one client was acquired and that
    client was released once. *)
Lemma for_await_releases_once {St} (d : db_script) (body : St -> batch -> M St) :
  (forall s b w, pool (body s b w).2 = pool w) ->
  forall (rs : list read_result) (s : St) (w : world),
    match Db.for_await d Db.Start rs s body w with
    | (Hang, _) => True
    | (_, w') =>
        (acquired (pool w') = acquired (pool w) /\
         released (pool w') = released (pool w)) \/
        (acquired (pool w') = S (acquired (pool w)) /\
         released (pool w') = S (released (pool w)))
    end.
Proof.
  intros Hbody rs s w.
  destruct (connect_fails d) as [e|] eqn:Hc.
  - destruct rs; simpl; unfold bind, Db.pool_connect, bind, may_fail, throw;
      rewrite Hc; left; done.
  - set (w1 := with_pool (fun p => mkPool (S (acquired p)) (released p)
                                          (S (cursors_opened p)) (cursors_closed p)) w).
    assert (E : Db.for_await d Db.Start rs s body w
                = Db.for_await d Db.Suspended rs s body w1).
    { destruct rs; simpl; unfold bind at 1;
        unfold Db.next, Db.pool_connect, Db.client_query_cursor, Db.on_pool,
          bind, may_fail, modify, ret; rewrite Hc; destruct w; reflexivity. }
    rewrite E.
    pose proof (for_await_suspended_releases_once d body Hbody rs s w1) as H.
    destruct (Db.for_await d Db.Suspended rs s body w1) as [[?|?|] w2]; try done;
      right; destruct w; simpl in *; done.
Qed.

(** C3 (the code at the failing inputs).  A read that fails after a first
    batch, and a consumer that gives up at the first batch, both leave the
    generator through [finally]: the error reaches the consumer and the
    client is released once, but [cursor.close()], which stands after the
    loop inside the [try] block, is not called, and the cursor stays open.
    Only the run that exhausts the result set closes it. *)
Theorem streamRows_closes_cursor_only_on_exhaustion :
  let w0 := initial_world ∅ (sample_env (mkDb None [] None) []) in
  let run (d : db_script) (body : unit -> batch -> M unit) :=
    let '(r, w) := Db.for_await_rows d tt body w0 in (r, pool w) in
  run (mkDb None [Rows [sample_row]; ReadFails "read failed"] None)
      (fun _ _ => ret tt)
  = (Throw "read failed", mkPool 1 1 1 0) /\
  run (mkDb None [Rows [sample_row]; Rows [sample_row]] None)
      (fun _ _ => throw "consumer gone")
  = (Throw "consumer gone", mkPool 1 1 1 0) /\
  run (mkDb None [Rows [sample_row]; Rows [sample_row]] None)
      (fun _ _ => ret tt)
  = (Ok tt, mkPool 1 1 1 1).
Proof. repeat split; vm_compute; reflexivity. Qed.

(* ===================================================================== *)
(** * routes/exports.js: what a failed download reports *)
(* ===================================================================== *)

(** C1 (the code at the failing input).  A columnar job whose first read
    fails: no byte has reached the response when the error is raised, yet the
    caller gets no error payload.  The writer catches the error and ends the
    response, so the handler sees a normal return: the response is an empty
    [200] with the Parquet content type, and the job is recorded as
    complete. *)
Theorem download_error_before_first_byte_has_no_payload :
  let w0 := initial_world {[ "job-1" := sample_job "parquet" ]}
              (sample_env (mkDb None [ReadFails "connection terminated"] None) []) in
  let '(r, w) := Exports.download "job-1" w0 in
  r = Ok tt /\
  statusCode (res w) = 200 /\
  body (res w) = [] /\
  writableEnded (res w) = true /\
  obj_get (headers (res w)) "Content-Type" = Some "application/vnd.apache.parquet" /\
  status <$> store w !! "job-1" = Some "complete" /\
  pool w = mkPool 1 1 1 0 /\
  files w = ∅.
Proof. vm_compute. repeat split; reflexivity. Qed.

(** A response closed while the finished file is piped into it: the promise
    around the pipe is never settled, the encoder never returns, its
    [finally] block does not run and the staging file stays. *)
Example stalled_pipe_keeps_staging_file :
  let e := sample_env (script_of [[sample_row]]) [] in
  let w0 := initial_world {[ "job-1" := sample_job "parquet" ]}
              (mkEnv (db e) [] (mkFs None None [] None (PipeStalls "PAR")) (libs e) (uuid e)) in
  let '(r, w) := Exports.download "job-1" w0 in
  r = Hang /\
  files w !! ParquetWriter.tmpFile "0b5c" = Some "PAR1" /\
  status <$> store w !! "job-1" = Some "pending".
Proof. vm_compute. repeat split; reflexivity. Qed.

(** C2 (the code at the failing input).  A markup job whose second read
    fails: the encoder stops in the middle of the document and destroys the
    sink, and the job is nevertheless recorded as complete. *)
Theorem download_failed_encode_recorded_complete :
  let w0 := initial_world {[ "job-1" := sample_job "xml" ]}
              (sample_env (mkDb None [Rows [sample_row]; ReadFails "connection terminated"] None) []) in
  let '(r, w) := Exports.download "job-1" w0 in
  r = Ok tt /\
  last (sink_log w) = Some (EvDestroy "connection terminated") /\
  destroyed (res w) = true /\
  output w <> xml_document (columns (sample_job "xml")) [sample_row] /\
  status <$> store w !! "job-1" = Some "complete".
Proof. vm_compute. repeat split; try reflexivity. discriminate. Qed.

(* ===================================================================== *)
(** * Runs without failure *)
(* ===================================================================== *)

Lemma total_conseq {A} (P P' : world -> Prop) (Q Q' : A -> world -> Prop) (m : M A) :
  total P' m Q' -> (forall w, P w -> P' w) -> (forall a w, Q' a w -> Q a w) ->
  total P m Q.
Proof.
  intros Hm HP HQ w H. destruct (Hm w (HP w H)) as (a & w' & E & HQ').
  exists a, w'. split; [exact E | by apply HQ].
Qed.

Lemma total_bind {A B} (P : world -> Prop) (Q : A -> world -> Prop)
    (R : B -> world -> Prop) (m : M A) (k : A -> M B) :
  total P m Q -> (forall a, total (Q a) (k a) R) -> total P (bind m k) R.
Proof.
  intros Hm Hk w H. destruct (Hm w H) as (a & w1 & E & HQ).
  destruct (Hk a w1 HQ) as (b & w2 & E2 & HR).
  exists b, w2. split; [|exact HR]. unfold bind. by rewrite E.
Qed.

Lemma total_try_catch {A} (P : world -> Prop) (Q : A -> world -> Prop)
    (m : M A) (h : error -> M A) :
  total P m Q -> total P (try_catch m h) Q.
Proof.
  intros Hm w H. destruct (Hm w H) as (a & w1 & E & HQ).
  exists a, w1. split; [|exact HQ]. unfold try_catch. by rewrite E.
Qed.

Lemma total_for_of_fold {A S} (Inv : S -> list A -> world -> Prop)
    (body : S -> A -> M S) :
  (forall s x pre, total (Inv s pre) (body s x) (fun s' => Inv s' (pre ++ [x]))) ->
  forall l s pre,
    total (Inv s pre) (for_of_fold l s body) (fun s' => Inv s' (pre ++ l)).
Proof.
  intros Hb l. induction l as [|x l IH]; intros s pre; simpl.
  - intros w H. exists s, w. by rewrite app_nil_r.
  - eapply total_bind; [apply Hb|].
    intros s'. eapply total_conseq; [apply IH | done |].
    intros a w H. by rewrite <- app_assoc in H.
Qed.

Lemma total_for_of {A} (Inv : list A -> world -> Prop) (body : A -> M unit) :
  (forall x pre, total (Inv pre) (body x) (fun _ => Inv (pre ++ [x]))) ->
  forall l pre, total (Inv pre) (for_of l body) (fun _ => Inv (pre ++ l)).
Proof.
  intros Hb l. induction l as [|x l IH]; intros pre; simpl.
  - intros w H. exists tt, w. by rewrite app_nil_r.
  - eapply total_bind; [apply Hb|].
    intros ?. eapply total_conseq; [apply IH | done |].
    intros ? w H. by rewrite <- app_assoc in H.
Qed.

Lemma pool_only_refl (w : world) : pool_only w w.
Proof. by repeat split. Qed.

Lemma next_yield (d : db_script) (ph : Db.phase) (x : row) (b : batch) (w : world) :
  ph <> Db.Done -> connect_fails d = None ->
  exists w', Db.next d ph (Rows (x :: b)) w = (Ok (Some (x :: b)), w') /\ pool_only w w'.
Proof.
  intros Hph Hc.
  destruct ph; [| |done];
    unfold Db.next, Db.pool_connect, Db.client_query_cursor, Db.resume,
      Db.loop_until_yield, Db.cursor_read, Db.on_pool, try_catch, bind, modify,
      may_fail, ret; rewrite ?Hc; simpl.
  - eexists. split; [reflexivity|]. by repeat split.
  - eexists. split; [reflexivity|]. apply pool_only_refl.
Qed.

Lemma next_end (d : db_script) (ph : Db.phase) (w : world) :
  ph <> Db.Done -> connect_fails d = None -> close_fails d = None ->
  exists w', Db.next d ph (Rows []) w = (Ok None, w') /\ pool_only w w'.
Proof.
  intros Hph Hc Hcl.
  destruct ph; [| |done];
    unfold Db.next, Db.pool_connect, Db.client_query_cursor, Db.resume,
      Db.loop_until_yield, Db.cursor_read, Db.cursor_close, Db.client_release,
      Db.on_pool, try_catch, bind, modify, may_fail, ret;
    rewrite ?Hc, ?Hcl; simpl;
    (eexists; split; [reflexivity|]; by repeat split).
Qed.

(** The loop over a generator whose script has no failure: the body sees
    every delivered batch, in order, and the loop ends normally. *)
Lemma total_for_await {S} (Inv : S -> list row -> world -> Prop)
    (d : db_script) (body : S -> batch -> M S) :
  connect_fails d = None -> close_fails d = None ->
  (forall s pre w w', pool_only w w' -> Inv s pre w -> Inv s pre w') ->
  (forall s b pre, total (Inv s pre) (body s b) (fun s' => Inv s' (pre ++ b))) ->
  forall rs ph s pre,
    reads_ok rs = true -> ph <> Db.Done ->
    total (Inv s pre) (Db.for_await d ph rs s body)
          (fun s' => Inv s' (pre ++ delivered rs)).
Proof.
  intros Hc Hcl Hpool Hb rs.
  induction rs as [|r rs IH]; intros ph s pre Hok Hph w H.
  - simpl. rewrite app_nil_r.
    destruct (next_end d ph w Hph Hc Hcl) as (w' & E & Hw').
    exists s, w'. unfold bind. rewrite E. split; [reflexivity | by eapply Hpool].
  - destruct r as [[|x b]|e]; [| |discriminate].
    + simpl. rewrite app_nil_r.
      destruct (next_end d ph w Hph Hc Hcl) as (w' & E & Hw').
      exists s, w'. unfold bind. rewrite E. split; [reflexivity | by eapply Hpool].
    + destruct (next_yield d ph x b w Hph Hc) as (w1 & E & Hw1).
      destruct (Hb s (x :: b) pre w1 (Hpool _ _ _ _ Hw1 H)) as (s' & w2 & E2 & H2).
      destruct (IH Db.Suspended s' (pre ++ x :: b) Hok ltac:(done) w2 H2)
        as (s'' & w3 & E3 & H3).
      exists s'', w3.
      split; [|rewrite <- app_assoc in H3; exact H3].
      cbn [Db.for_await]. unfold bind at 1. rewrite E.
      unfold bind at 1, try_catch. rewrite E2. exact E3.
Qed.

Lemma good_pool_only (acc : string) (w w' : world) :
  pool_only w w' -> good acc w -> good acc w'.
Proof.
  intros (_ & _ & _ & He & _ & _ & _ & _ & Henv) [Hs Ho].
  unfold good, sink_ok, output in *. by rewrite He, Henv.
Qed.

Lemma write_total (compress : bool) (chunk acc : string) :
  total (good acc) (write compress chunk) (fun _ => good (acc +:+ chunk)).
Proof.
  intros w [Hs Ho].
  unfold good, sink_ok, output in *.
  unfold write, Sink.write, Sink.accept, Sink.emit, Sink.once_drain, Sink.log, get, hang, Res.write,
    bind, modify, ret.
  destruct (sink_answers (env w)) as [|a rest] eqn:E.
  - destruct compress; eexists _, _; (split; [reflexivity|]); simpl;
      by rewrite E, concat_snoc, Ho.
  - simpl in Hs. apply andb_true_iff in Hs as [Ha Hrest].
    destruct a as [|[]|]; try discriminate;
      destruct compress; eexists _, _; (split; [reflexivity|]); simpl;
      by rewrite concat_snoc, Ho.
Qed.

Lemma text_headers_total (mime file : string) (compress : bool) (acc : string) :
  total (fun w => headersSent (res w) = false /\ good acc w)
        (text_headers mime file compress) (fun _ => good acc).
Proof.
  intros w [Hf Hg]. unfold text_headers.
  destruct (setHeader_fresh "Content-Type" mime w Hf)
    as (w1 & E1 & F1 & Henv1 & _ & Henc1 & _).
  destruct (setHeader_fresh "Content-Disposition"
              ("attachment; filename=" +:+ dq +:+ file +:+
               (if compress then ".gz" +:+ dq else dq)) w1 F1)
    as (w2 & E2 & F2 & Henv2 & _ & Henc2 & _).
  assert (G2 : good acc w2).
  { destruct Hg as [Hs Ho]. unfold good, sink_ok, output in *.
    by rewrite Henv2, Henv1, Henc2, Henc1. }
  unfold bind. rewrite E1, E2.
  destruct compress; [|by exists tt, w2].
  destruct (setHeader_fresh "Content-Encoding" "gzip" w2 F2)
    as (w3 & E3 & F3 & Henv3 & _ & Henc3 & _).
  exists tt, w3. split; [exact E3|].
  destruct G2 as [Hs Ho]. unfold good, sink_ok, output in *.
  by rewrite Henv3, Henc3.
Qed.

Lemma sink_end_total (compress : bool) (acc : string) :
  total (good acc) (Sink.end' compress) (fun _ => good acc).
Proof.
  intros w Hg.
  unfold Sink.end', Sink.log, Sink.finish, Res.write, Res.end', bind, modify, get, ret.
  destruct compress; eexists _, _; (split; [reflexivity|]); exact Hg.
Qed.

(* ===================================================================== *)
(** * writers/jsonWriter.js: the document *)
(* ===================================================================== *)

Lemma json_records_app (cols : list column) (first : bool) (a b : list row) :
  json_records cols first (a ++ b)
  = json_records cols first a +:+ json_records cols (first && is_nil a) b.
Proof.
  revert first.
  induction a as [|r a IH]; intros first; cbn [json_records app is_nil String.append].
  - by rewrite andb_true_r.
  - rewrite IH, andb_false_r, !append_assoc. reflexivity.
Qed.

Lemma write_row_total (compress : bool) (cols : list column) (acc : string)
    (isFirst : bool) (r : row) (done : list row) :
  total (fun w => good (acc +:+ json_records cols true done) w /\ isFirst = is_nil done)
        (JsonWriter.write_row compress cols isFirst r)
        (fun isFirst' w =>
           good (acc +:+ json_records cols true (done ++ [r])) w /\
           isFirst' = is_nil (done ++ [r])).
Proof.
  intros w [Hg ->].
  assert (Hnil : is_nil (done ++ [r]) = false) by (by destruct done).
  rewrite json_records_app, Hnil. cbn [json_records]. rewrite append_nil_r.
  unfold JsonWriter.write_row.
  destruct (is_nil done); simpl andb.
  - destruct (write_total compress
                (nl +:+ JSON.stringify_object (JsonWriter.rekey cols r)) _ w Hg)
      as ([] & w' & E & Hg').
    exists false, w'. unfold bind. rewrite E. split; [reflexivity|].
    split; [|reflexivity]. rewrite append_assoc in Hg'. exact Hg'.
  - destruct (write_total compress
                ("," +:+ nl +:+ JSON.stringify_object (JsonWriter.rekey cols r)) _ w Hg)
      as ([] & w' & E & Hg').
    exists false, w'. unfold bind. rewrite E. split; [reflexivity|].
    split; [|reflexivity]. rewrite append_assoc in Hg'. exact Hg'.
Qed.

(** With a database and a sink that do not fail, [writeJson] completes and
    has put out the document of the delivered rows. *)
Lemma writeJson_total (g : db_script) (cols : list column) (compress : bool)
    (acc : string) :
  db_ok g = true ->
  total (fun w => headersSent (res w) = false /\ good acc w)
        (JsonWriter.writeJson g cols compress)
        (fun _ => good (acc +:+ json_document cols (delivered (reads g)))).
Proof.
  intros Hdb. unfold db_ok in Hdb.
  destruct (connect_fails g) eqn:Hc; [discriminate|].
  destruct (close_fails g) eqn:Hcl; [discriminate|].
  unfold JsonWriter.writeJson.
  eapply total_bind; [apply text_headers_total|]. intros ?.
  apply total_try_catch.
  eapply total_bind; [apply write_total|]. intros ?.
  eapply total_bind
    with (Q := fun _ => good ((acc +:+ "[") +:+
                              json_records cols true (delivered (reads g)))).
  { unfold Db.for_await_rows.
    eapply total_conseq;
      [apply (total_for_await
                (fun isFirst done w =>
                   good ((acc +:+ "[") +:+ json_records cols true done) w /\
                   isFirst = is_nil done) g _ Hc Hcl)
         with (pre := []); [| |exact Hdb|done] | |].
    - intros s pre w w' Hp [Hg Hs]. split; [by eapply good_pool_only | exact Hs].
    - intros s b pre.
      eapply total_conseq;
        [apply (total_for_of_fold
                  (fun isFirst done' w =>
                     good ((acc +:+ "[") +:+ json_records cols true (pre ++ done')) w /\
                     isFirst = is_nil (pre ++ done'))) with (pre := [])| |].
      + intros s0 x pre0. rewrite app_assoc. apply write_row_total.
      + intros w. by rewrite app_nil_r.
      + intros ? w. done.
    - intros w Hg. cbn [json_records]. rewrite append_nil_r. by split.
    - intros ? w [Hg _]. exact Hg. }
  intros isFirst.
  eapply total_conseq;
    [eapply total_bind; [apply write_total | intros ?; apply sink_end_total]
    | done |].
  intros [] w Hg. unfold json_document.
  by rewrite !append_assoc in *.
Qed.

(* ===================================================================== *)
(** * writers/xmlWriter.js: the document *)
(* ===================================================================== *)

Lemma concat_map_app {A} (f : A -> string) (a b : list A) :
  concat (List.map f (a ++ b)) = concat (List.map f a) +:+ concat (List.map f b).
Proof. by rewrite List.map_app, concat_app. Qed.

Lemma fold_left_append {A} (f : A -> string) (l : list A) (acc : string) :
  fold_left (fun acc x => acc +:+ f x) l acc = acc +:+ concat (List.map f l).
Proof.
  revert acc. induction l as [|x l IH]; intros acc; cbn [fold_left List.map concat].
  - by rewrite append_nil_r.
  - by rewrite IH, append_assoc.
Qed.

Lemma record_xml_spec (cols : list column) (xmlChunk : string) (r : row) :
  XmlWriter.record_xml cols xmlChunk r = xmlChunk +:+ xml_record cols r.
Proof.
  unfold XmlWriter.record_xml, xml_record. cbv zeta.
  rewrite (fold_left_append
             (fun col => "    " +:+ XmlWriter.valueToXml (target col) (prop r (source col))
                         +:+ nl)).
  by rewrite !append_assoc.
Qed.

Lemma batch_xml_spec (cols : list column) (b : batch) :
  XmlWriter.batch_xml cols b = concat (List.map (xml_record cols) b).
Proof.
  unfold XmlWriter.batch_xml.
  enough (H : forall acc,
             fold_left (XmlWriter.record_xml cols) b acc
             = acc +:+ concat (List.map (xml_record cols) b)) by apply H.
  induction b as [|r b IH]; intros acc; cbn [fold_left List.map concat].
  - by rewrite append_nil_r.
  - by rewrite IH, record_xml_spec, append_assoc.
Qed.

Example xml_document_of_sample_row :
  xml_document [Column "id" "ID"; Column "metadata" "meta"] [sample_row]
  = XmlWriter.prolog +:+
    "  <record>" +:+ nl +:+
    "    <ID>1</ID>" +:+ nl +:+
    "    <meta><a>1</a></meta>" +:+ nl +:+
    "  </record>" +:+ nl +:+
    "</records>".
Proof. reflexivity. Qed.

(** With a database and a sink that do not fail, [writeXml] completes and has
    put out the document of the delivered rows. *)
Lemma writeXml_total (g : db_script) (cols : list column) (compress : bool)
    (acc : string) :
  db_ok g = true ->
  total (fun w => headersSent (res w) = false /\ good acc w)
        (XmlWriter.writeXml g cols compress)
        (fun _ => good (acc +:+ xml_document cols (delivered (reads g)))).
Proof.
  intros Hdb. unfold db_ok in Hdb.
  destruct (connect_fails g) eqn:Hc; [discriminate|].
  destruct (close_fails g) eqn:Hcl; [discriminate|].
  unfold XmlWriter.writeXml.
  eapply total_bind; [apply text_headers_total|]. intros ?.
  apply total_try_catch.
  eapply total_bind; [apply write_total|]. intros ?.
  eapply total_bind
    with (Q := fun _ => good ((acc +:+ XmlWriter.prolog) +:+
                              concat (List.map (xml_record cols) (delivered (reads g))))).
  { unfold Db.for_await_rows.
    eapply total_conseq;
      [apply (total_for_await
                (fun (_ : unit) done w =>
                   good ((acc +:+ XmlWriter.prolog) +:+
                         concat (List.map (xml_record cols) done)) w)
                g _ Hc Hcl)
         with (pre := []); [| |exact Hdb|done] | |].
    - intros s pre w w' Hp Hg. by eapply good_pool_only.
    - intros s b pre.
      eapply total_conseq; [apply write_total | done |].
      intros ? w Hg. cbv beta in Hg.
      rewrite batch_xml_spec, append_assoc in Hg. by rewrite concat_map_app.
    - intros w Hg. cbn [List.map concat]. by rewrite append_nil_r.
    - intros ? w Hg. exact Hg. }
  intros ?.
  eapply total_conseq;
    [eapply total_bind; [apply write_total | intros ?; apply sink_end_total]
    | done |].
  intros [] w Hg. unfold xml_document.
  by rewrite !append_assoc in *.
Qed.

(* ===================================================================== *)
(** * writers/csvWriter.js: the document *)
(* ===================================================================== *)

Lemma csv_write_row_total (l : libraries) (cols : list column) (compress : bool)
    (acc : string) (r : row) (done : list row) :
  total (csv_good l cols acc done)
        (CsvWriter.write_row (CsvWriter.options cols) cols compress r)
        (fun _ => csv_good l cols acc (done ++ [r])).
Proof.
  intros w (Hs & Hl & Hst & Ho).
  assert (Hnil : is_nil (done ++ [r]) = false) by (by destruct done).
  unfold csv_good. rewrite Hnil. cbn [negb].
  unfold csv_lines in *. rewrite concat_map_app. cbn [List.map concat].
  rewrite append_nil_r.
  unfold sink_ok, output in *.
  destruct w as [st rs sl enc started due pl fl wr [d answers fsx lb id]].
  cbn [env sink_answers libs csv_started encoded] in *. subst lb started.
  unfold CsvWriter.write_row, CsvWriter.stringifier_write, CsvWriter.header_if_due,
    Sink.accept, Sink.emit, Sink.once_drain, Sink.log, get, hang, Res.write, bind, modify, ret, get.
  cbn [env sink_answers libs csv_started encoded].
  destruct answers as [|a rest].
  - destruct done; cbn [is_nil negb andb CsvWriter.options csv_header] in *;
      destruct compress; eexists _, _; (split; [reflexivity|]);
      cbn [env sink_answers libs csv_started encoded with_encoded with_res
           with_csv_started with_sink_log];
      rewrite concat_snoc, Ho, ?append_nil_r, ?append_assoc; done.
  - cbn [forallb] in Hs. apply andb_true_iff in Hs as [Ha Hrest].
    destruct a as [|[]|]; try discriminate;
      destruct done; cbn [is_nil negb andb CsvWriter.options csv_header] in *;
      destruct compress; eexists _, _; (split; [reflexivity|]);
      cbn [env sink_answers libs csv_started encoded with_encoded with_res
           with_csv_started with_sink_log with_drain_due with_env Sink.with_answers];
      rewrite concat_snoc, Ho, ?append_nil_r, ?append_assoc; done.
Qed.

Lemma text_headers_fresh (mime file : string) (compress : bool) (w : world) :
  headersSent (res w) = false ->
  exists w', text_headers mime file compress w = (Ok tt, w') /\
             env w' = env w /\ encoded w' = encoded w /\
             csv_started w' = csv_started w /\ sink_log w' = sink_log w /\
             store w' = store w /\ pool w' = pool w /\ files w' = files w.
Proof.
  intros Hf. unfold text_headers.
  destruct (setHeader_fresh "Content-Type" mime w Hf)
    as (w1 & E1 & F1 & Henv1 & Hfl1 & Henc1 & Hlog1 & Hcsv1 & Hst1 & Hp1).
  destruct (setHeader_fresh "Content-Disposition"
              ("attachment; filename=" +:+ dq +:+ file +:+
               (if compress then ".gz" +:+ dq else dq)) w1 F1)
    as (w2 & E2 & F2 & Henv2 & Hfl2 & Henc2 & Hlog2 & Hcsv2 & Hst2 & Hp2).
  unfold bind. rewrite E1, E2.
  destruct compress.
  - destruct (setHeader_fresh "Content-Encoding" "gzip" w2 F2)
      as (w3 & E3 & F3 & Henv3 & Hfl3 & Henc3 & Hlog3 & Hcsv3 & Hst3 & Hp3).
    exists w3. split; [exact E3|]. repeat split; congruence.
  - exists w2. split; [reflexivity|]. repeat split; congruence.
Qed.

Lemma stringifier_end_total (l : libraries) (cols : list column) (compress : bool)
    (acc : string) (done : list row) :
  total (csv_good l cols acc done)
        (CsvWriter.stringifier_end (CsvWriter.options cols) compress)
        (fun _ w => sink_ok w = true /\ output w = acc +:+ csv_document l cols done).
Proof.
  intros w (Hs & Hl & Hst & Ho).
  unfold csv_document. fold (csv_lines l cols done).
  unfold sink_ok, output in *.
  destruct w as [st rs sl enc started due pl fl wr [d answers fsx lb id]].
  cbn [env sink_answers libs csv_started encoded] in *. subst lb started.
  set (o := CsvWriter.options cols) in *.
  assert (Ho' : csv_header o = true) by reflexivity.
  clearbody o.
  unfold CsvWriter.stringifier_end, CsvWriter.header_if_due, Sink.log, Sink.emit,
    Sink.finish, Res.write, Res.end', bind, modify, ret, get.
  destruct done as [|r0 done]; cbn [is_nil negb] in *; cbn; rewrite Ho'; cbn.
  - unfold csv_lines. cbn [List.map concat]. rewrite append_nil_r in *.
    destruct (String.eqb_spec (csv_format_header l o) EmptyString) as [Eh|Eh].
    + rewrite Eh, append_nil_r.
      destruct compress; eexists _, _; (split; [reflexivity|]); by cbn.
    + destruct compress; eexists _, _; (split; [reflexivity|]); cbn;
        by rewrite concat_snoc, Ho.
  - destruct compress; eexists _, _; (split; [reflexivity|]); by cbn.
Qed.

(** With a database and a sink that do not fail, [writeCsv] completes and the
    stringifier has put out the header and one line per delivered row. *)
Lemma writeCsv_total (g : db_script) (cols : list column) (compress : bool)
    (l : libraries) :
  db_ok g = true ->
  total (fun w => headersSent (res w) = false /\ sink_ok w = true /\
                  libs (env w) = l /\ csv_started w = false /\ encoded w = [])
        (CsvWriter.writeCsv g cols compress)
        (fun _ w => sink_ok w = true /\
                    output w = csv_document l cols (delivered (reads g))).
Proof.
  intros Hdb. unfold db_ok in Hdb.
  destruct (connect_fails g) eqn:Hc; [discriminate|].
  destruct (close_fails g) eqn:Hcl; [discriminate|].
  unfold CsvWriter.writeCsv. cbv zeta.
  eapply total_bind with (Q := fun _ => csv_good l cols EmptyString []).
  { intros w (Hf & Hs & Hl & Hst & Henc).
    destruct (text_headers_fresh "text/csv" "export.csv" compress w Hf)
      as (w' & E & Henv & Henc' & Hcsv & _).
    exists tt, w'. split; [exact E|].
    unfold csv_good, sink_ok, output in *. rewrite Henv, Henc', Hcsv, Henc.
    by repeat split. }
  intros ?. apply total_try_catch.
  eapply total_bind
    with (Q := fun _ => csv_good l cols EmptyString (delivered (reads g))).
  { unfold Db.for_await_rows.
    eapply total_conseq;
      [apply (total_for_await
                (fun (_ : unit) done w => csv_good l cols EmptyString done w)
                g _ Hc Hcl)
         with (pre := []); [| |exact Hdb|done] | |].
    - intros s pre w w' (_ & _ & _ & He & Hcsv & _ & _ & _ & Henv) (Hs & Hl & Hst & Ho).
      unfold csv_good, sink_ok, output in *. by rewrite He, Henv, Hcsv.
    - intros s b pre.
      eapply total_conseq;
        [apply (total_for_of
                  (fun done' w => csv_good l cols EmptyString (pre ++ done') w))
           with (pre := []) | |].
      + intros x pre0. rewrite app_assoc. apply csv_write_row_total.
      + intros w. by rewrite app_nil_r.
      + intros ? w. done.
    - done.
    - intros ? w Hg. exact Hg. }
  intros ?.
  eapply total_conseq; [apply stringifier_end_total | done |].
  intros ? w. done.
Qed.

(* ===================================================================== *)
(** * Back-pressure: the trace of sink events *)
(* ===================================================================== *)

Lemma throttled_cons (x : sink_event) (l : list sink_event) :
  throttled (x :: l)
  = if is_pending x
    then match l with [] => true | EvDrain :: _ => throttled l | _ => false end
    else throttled l.
Proof. destruct x as [c []| | |]; reflexivity. Qed.

Lemma settled_cons (x : sink_event) (l : list sink_event) :
  settled (x :: l) = true -> l <> [] -> settled l = true.
Proof.
  unfold settled. rewrite throttled_cons, last_cons.
  intros H Hne. apply andb_true_iff in H as [Ht Hl].
  assert (Hlast : exists y, last l = Some y).
  { destruct l as [|y l] using rev_ind; [done|]. rewrite last_snoc. eauto. }
  destruct Hlast as [y Hy]. rewrite Hy in *. rewrite Hl, andb_true_r.
  destruct (is_pending x); [|exact Ht].
  destruct l as [|[]]; done.
Qed.

(** Once every pending write has seen its [drain], what follows is judged
    on its own. *)
Lemma throttled_app (l l' : list sink_event) :
  settled l = true -> throttled (l ++ l') = throttled l'.
Proof.
  induction l as [|x l IH]; intros Hs; [reflexivity|].
  destruct l as [|y l].
  - simpl app. rewrite throttled_cons.
    destruct (is_pending x) eqn:Hx; [|reflexivity].
    destruct x as [c []| | |]; discriminate.
  - specialize (IH (settled_cons _ _ Hs ltac:(done))).
    change ((x :: y :: l) ++ l') with (x :: (y :: l) ++ l').
    rewrite throttled_cons.
    destruct (is_pending x) eqn:Hx; [|exact IH].
    unfold settled in Hs. rewrite throttled_cons, Hx in Hs.
    destruct y; try discriminate. exact IH.
Qed.

Lemma settled_app (l l' : list sink_event) :
  settled l = true -> l' <> [] -> settled (l ++ l') = settled l'.
Proof.
  intros Hs Hne.
  assert (E : last (l ++ l') = last l').
  { destruct l' as [|x l']; [done|]. by rewrite last_app_cons. }
  unfold settled. by rewrite throttled_app, E.
Qed.

Lemma stalled_app (l l' : list sink_event) :
  settled l = true -> l' <> [] -> stalled (l ++ l') = stalled l'.
Proof.
  intros Hs Hne. unfold stalled, ends_pending. rewrite throttled_app by exact Hs.
  destruct l' as [|x l']; [done|]. by rewrite last_app_cons.
Qed.

Lemma throttled_prefix (p q : list sink_event) :
  throttled (p ++ q) = true -> throttled p = true.
Proof.
  induction p as [|x p IH]; [reflexivity|].
  change ((x :: p) ++ q) with (x :: p ++ q).
  rewrite !throttled_cons.
  destruct (is_pending x); [|exact IH].
  destruct p as [|[] p]; done.
Qed.

(** In a throttled trace at most one write waits for its [drain]. *)
Lemma throttled_unacknowledged (l : list sink_event) :
  throttled l = true ->
  (forall n, unacknowledged l n <= n + (if ends_pending l then 1 else 0)) /\
  (forall rest n, l = EvDrain :: rest ->
                  unacknowledged l (S n) <= n + (if ends_pending l then 1 else 0)).
Proof.
  induction l as [|x l IH]; intros Ht.
  - split; [intros n; simpl; lia | intros ? ? [=]].
  - rewrite throttled_cons in Ht.
    assert (Hend : l <> [] -> ends_pending (x :: l) = ends_pending l).
    { intros Hne. unfold ends_pending. rewrite last_cons.
      destruct l as [|y l] using rev_ind; [done|]. by rewrite last_snoc. }
    destruct (is_pending x) eqn:Hx.
    + destruct x as [c []| | |]; try discriminate.
      split; [|intros ? ? [=]].
      intros n. destruct l as [|y l]; [simpl; lia|].
      destruct y; try discriminate.
      rewrite Hend by done. simpl unacknowledged at 1.
      destruct (IH Ht) as [_ H2]. by apply (H2 l n).
    + destruct (IH Ht) as [H1 H2].
      assert (Hl : forall m, unacknowledged l m <= m + (if ends_pending (x :: l) then 1 else 0)).
      { intros m. destruct l as [|y l]; [simpl; lia|]. rewrite Hend by done. apply H1. }
      split.
      * intros n. destruct x as [c []| | |]; try discriminate; simpl unacknowledged;
          try apply Hl.
        etransitivity; [apply Hl|]. lia.
      * intros rest n [= -> ->]. simpl unacknowledged. apply Hl.
Qed.

Lemma throttled_at_most_one (l : list sink_event) (k : nat) :
  throttled l = true -> unacknowledged (take k l) 0 <= 1.
Proof.
  intros Ht.
  assert (Hp : throttled (take k l) = true).
  { apply (throttled_prefix _ (drop k l)). by rewrite take_drop. }
  destruct (throttled_unacknowledged _ Hp) as [H _].
  specialize (H 0). destruct (ends_pending (take k l)); lia.
Qed.

(** The predicate tells a run that writes on from one that waits. *)
Example throttled_rejects_a_write_after_pending :
  throttled [EvWrite (VStr "a") false; EvWrite (VStr "b") true] = false /\
  throttled [EvWrite (VStr "a") false; EvDrain; EvWrite (VStr "b") true] = true /\
  unacknowledged [EvWrite (VStr "a") false; EvWrite (VStr "b") false] 0 = 2.
Proof. repeat split. Qed.

Lemma setHeader_quiet (name val : string) : keeps quiet waiting (Res.setHeader name val).
Proof.
  intros w H. unfold Res.setHeader.
  destruct (headersSent (res w)); [exact H | by destruct w].
Qed.

(** The [write] helper: a write that reports a full buffer is followed by
    the wait for [drain], and by nothing else. *)
Lemma write_quiet (compress : bool) (chunk : string) :
  keeps quiet waiting (write compress chunk).
Proof.
  intros w H. unfold quiet, waiting in *.
  unfold write, Sink.write, Sink.accept, Sink.emit, Sink.once_drain, Sink.log, get, hang, Res.write,
    bind, modify, ret.
  destruct (sink_answers (env w)) as [|[|[]|e] rest];
    destruct compress; cbn;
    rewrite <- ?app_assoc, ?settled_app, ?stalled_app by done; done.
Qed.

Lemma csv_write_row_quiet (o : csv_options) (cols : list column) (compress : bool)
    (r : row) :
  keeps quiet waiting (CsvWriter.write_row o cols compress r).
Proof.
  intros w H. unfold quiet, waiting in *.
  unfold CsvWriter.write_row, CsvWriter.stringifier_write, CsvWriter.header_if_due,
    Sink.accept, Sink.emit, Sink.once_drain, Sink.log, get, hang, Res.write, bind, modify, ret, get.
  destruct w as [st rs sl enc started due pl fl wr [d answers fsx lb id]].
  cbn in *.
  destruct answers as [|[|[]|e] rest];
    destruct (csv_header o), started, compress; cbn;
    rewrite <- ?app_assoc, ?settled_app, ?stalled_app by done; done.
Qed.

(** One step of a back-pressure proof. *)
Ltac quiet_step :=
  lazymatch goal with
  | |- keeps _ _ (write _ _) => apply write_quiet
  | |- keeps _ _ (Res.setHeader _ _) => apply setHeader_quiet
  | |- keeps _ _ (CsvWriter.write_row _ _ _ _) => apply csv_write_row_quiet
  | |- keeps _ _ (modify _) =>
      apply keeps_modify; intros [] ?; unfold quiet in *; cbn in *;
      rewrite ?settled_app by done; done
  | |- forall (f : _) (w : _), quiet w -> quiet (with_pool f w) =>
      intros ? [] ?; assumption
  | |- _ => keeps_step
  end.

Lemma writeJson_quiet (g : db_script) (cols : list column) (compress : bool) :
  keeps quiet waiting (JsonWriter.writeJson g cols compress).
Proof.
  unfold JsonWriter.writeJson. repeat quiet_step.
Qed.

Lemma writeXml_quiet (g : db_script) (cols : list column) (compress : bool) :
  keeps quiet waiting (XmlWriter.writeXml g cols compress).
Proof.
  unfold XmlWriter.writeXml. repeat quiet_step.
Qed.

Lemma writeCsv_quiet (g : db_script) (cols : list column) (compress : bool) :
  keeps quiet waiting (CsvWriter.writeCsv g cols compress).
Proof.
  unfold CsvWriter.writeCsv. cbv zeta. repeat quiet_step.
Qed.

(* ===================================================================== *)
(** * [JSON.stringify] prints valid JSON *)
(* ===================================================================== *)

(** Induction on values through the lists they nest. *)
Lemma value_nested_ind (P : value -> Prop) :
  P VUndefined -> P VNull -> (forall b, P (VBool b)) -> (forall n, P (VNum n)) ->
  (forall s, P (VStr s)) -> (forall iso, P (VDate iso)) ->
  (forall items, Forall P items -> P (VArr items)) ->
  (forall props, Forall (fun kv => P (snd kv)) props -> P (VObj props)) ->
  forall v, P v.
Proof.
  intros Hu Hn Hb Hnum Hs Hd Ha Ho.
  fix IH 1. intros [| |b|n|s|iso|items|props].
  - exact Hu.
  - exact Hn.
  - apply Hb.
  - apply Hnum.
  - apply Hs.
  - apply Hd.
  - apply Ha. induction items as [|x items IHl]; constructor; [apply IH | exact IHl].
  - apply Ho. induction props as [|[k x] props IHl]; constructor; [apply IH | exact IHl].
Qed.

Lemma escape_char_body (c : ascii) (e s : string) :
  Grammar.string_body e s ->
  Grammar.string_body (JSON.escape_char c +:+ e) (String c s).
Proof.
  intros H.
  each_char c; cbn;
    first [ apply Grammar.body_char; [reflexivity | exact H]
          | apply Grammar.body_escape; [reflexivity | exact H]
          | eapply Grammar.body_unicode; [reflexivity | reflexivity | reflexivity | exact H] ].
Qed.

Lemma escape_body (s : string) : Grammar.string_body (JSON.escape s) s.
Proof.
  induction s as [|c s IH]; cbn [JSON.escape].
  - constructor.
  - by apply escape_char_body.
Qed.

Lemma digit_char_digit (d : digit) : is_digit (digit_char d) = true.
Proof. by destruct d. Qed.

Lemma digits_string_digits (d : digit) (ds : list digit) :
  Grammar.digits (digits_string (d :: ds)).
Proof.
  revert d. induction ds as [|d' ds IH]; intros d; cbn [digits_string].
  - apply Grammar.digits_one, digit_char_digit.
  - apply Grammar.digits_more; [apply digit_char_digit | apply IH].
Qed.

Lemma intpart_int (i : intpart) : Grammar.int_lit (intpart_string i).
Proof.
  destruct i as [|d ds]; cbn [intpart_string]; [constructor|].
  destruct ds as [|d' ds].
  - apply Grammar.int_digit. by destruct d.
  - apply Grammar.int_digits; [by destruct d | apply digits_string_digits].
Qed.

Lemma intpart_digits (i : intpart) : Grammar.digits (intpart_string i).
Proof.
  destruct i as [|d ds]; cbn [intpart_string].
  - by apply Grammar.digits_one.
  - destruct ds as [|d' ds].
    + apply Grammar.digits_one. by destruct d.
    + apply Grammar.digits_more; [by destruct d | apply digits_string_digits].
Qed.

Lemma finite_number_lit neg i f e :
  Grammar.number_lit (number_to_string (Finite neg i f e)).
Proof.
  cbn [number_to_string]. apply Grammar.number_parts.
  - destruct neg; [by right | by left].
  - apply intpart_int.
  - destruct f as [|d ds]; cbn [frac_string]; [constructor|].
    apply Grammar.frac_some, digits_string_digits.
  - destruct e as [[sgn ei]|]; cbn [exp_string]; [|constructor].
    apply (Grammar.exp_some "e" (if sgn then "-" else "+")).
    + by left.
    + destruct sgn; auto.
    + apply intpart_digits.
Qed.

Lemma element_plain (s : string) (t : Grammar.json) :
  Grammar.parses s t -> Grammar.element s t.
Proof.
  intros H.
  pose proof (Grammar.element_ws EmptyString s t EmptyString eq_refl H eq_refl) as E.
  cbn [String.append] in E. by rewrite append_nil_r in E.
Qed.

Lemma elements_join (items : list value) (x : value) :
  Forall (fun x => Grammar.parses (item_text x) (tree x)) (x :: items) ->
  Grammar.elements (join "," (List.map item_text (x :: items)))
                   (List.map tree (x :: items)).
Proof.
  revert x. induction items as [|y items IH]; intros x H.
  - cbn. apply Grammar.elements_one, element_plain. by inversion H.
  - inversion H as [|? ? Hx Hrest]; subst.
    change (join "," (List.map item_text (x :: y :: items)))
      with (item_text x +:+ "," +:+ join "," (List.map item_text (y :: items))).
    change (List.map tree (x :: y :: items)) with (tree x :: List.map tree (y :: items)).
    apply Grammar.elements_more; [by apply element_plain | by apply IH].
Qed.

Lemma member_text (k : string) (s : string) (t : Grammar.json) :
  Grammar.parses s t ->
  Grammar.member (JSON.quote k +:+ ":" +:+ s) (k, t).
Proof.
  intros H.
  pose proof (Grammar.member_pair EmptyString (JSON.escape k) k EmptyString s t
                eq_refl (escape_body k) eq_refl (element_plain _ _ H)) as E.
  cbn [String.append] in E. unfold JSON.quote.
  by rewrite !append_assoc.
Qed.

Lemma members_of_list (x : string * (string * Grammar.json))
    (l : list (string * (string * Grammar.json))) :
  Forall (fun p => Grammar.member (fst p) (snd p)) (x :: l) ->
  Grammar.members (join "," (List.map fst (x :: l))) (List.map snd (x :: l)).
Proof.
  revert x. induction l as [|y l IH]; intros x H.
  - cbn. apply Grammar.members_one. by inversion H.
  - inversion H as [|? ? Hx Hrest]; subst.
    change (join "," (List.map fst (x :: y :: l)))
      with (fst x +:+ "," +:+ join "," (List.map fst (y :: l))).
    change (List.map snd (x :: y :: l)) with (snd x :: List.map snd (y :: l)).
    apply Grammar.members_more; [exact Hx | by apply IH].
Qed.

Lemma members_paired (props : list (string * value)) :
  Forall (fun kv => printed (snd kv)) props ->
  exists l, member_texts props = List.map fst l /\
            member_trees props = List.map snd l /\
            Forall (fun p => Grammar.member (fst p) (snd p)) l.
Proof.
  induction props as [|[k x] props IH]; intros H.
  - exists []. by repeat split.
  - inversion H as [|? ? Hx Hrest]; subst.
    destruct (IH Hrest) as (l & E1 & E2 & Hl).
    unfold member_texts, member_trees in *. cbn [List.flat_map fst snd].
    unfold printed in Hx. cbn [snd] in Hx.
    destruct (JSON.stringify x) as [s|] eqn:Es.
    + exists ((JSON.quote k +:+ ":" +:+ s, (k, tree x)) :: l).
      rewrite E1, E2. split; [reflexivity|]. split.
      * destruct x; try reflexivity. discriminate.
      * constructor; [by apply member_text | exact Hl].
    + subst x. exists l. by repeat split.
Qed.

Lemma members_join (props : list (string * value)) :
  Forall (fun kv => printed (snd kv)) props ->
  member_texts props = [] /\ member_trees props = [] \/
  Grammar.members (join "," (member_texts props)) (member_trees props).
Proof.
  intros H. destruct (members_paired props H) as (l & E1 & E2 & Hl).
  rewrite E1, E2. destruct l as [|x l]; [by left | right].
  by apply members_of_list.
Qed.

(** What [JSON.stringify] prints for a value reads back, by the grammar, as
    the tree of the value. *)
Lemma stringify_parses (v : value) : printed v.
Proof.
  induction v as [| |b|n|s|iso|items IH|props IH] using value_nested_ind;
    unfold printed.
  - reflexivity.
  - constructor.
  - destruct b; constructor.
  - destruct n as [|neg|neg i f e]; cbn [JSON.stringify tree]; try constructor.
    apply finite_number_lit.
  - cbn [JSON.stringify tree]. apply Grammar.parses_string, escape_body.
  - destruct iso as [iso|]; cbn [JSON.stringify tree]; [|constructor].
    apply Grammar.parses_string, escape_body.
  - cbn [JSON.stringify tree]. fold item_text.
    change (List.map (fun x => tree x) items) with (List.map tree items).
    change (List.map (fun x => item_text x) items) with (List.map item_text items).
    destruct items as [|x items].
    + by apply (Grammar.parses_empty_array EmptyString).
    + apply Grammar.parses_array, elements_join.
      eapply Forall_impl; [exact IH|].
      intros y Hy. unfold printed, item_text in *.
      destruct (JSON.stringify y); [exact Hy | subst y; constructor].
  - cbn [JSON.stringify tree]. fold (member_texts props). fold (member_trees props).
    destruct (members_join props IH) as [[E1 E2]|H].
    + rewrite E1, E2. by apply (Grammar.parses_empty_object EmptyString).
    + by apply Grammar.parses_object.
Qed.

Lemma stringify_object_parses (o : object) :
  Grammar.parses (JSON.stringify_object o) (tree (VObj o)).
Proof. exact (stringify_parses (VObj o)). Qed.

Lemma json_records_elements (cols : list column) (r : row) (rest : list row) :
  Grammar.elements
    (nl +:+ JSON.stringify_object (JsonWriter.rekey cols r) +:+
     json_records cols false rest +:+ nl)
    (List.map (record_tree cols) (r :: rest)).
Proof.
  revert r. induction rest as [|r' rest IH]; intros r.
  - cbn [json_records List.map String.append].
    apply Grammar.elements_one.
    apply (Grammar.element_ws nl _ _ nl); [reflexivity | | reflexivity].
    apply stringify_object_parses.
  - cbn [json_records List.map].
    pose proof (Grammar.elements_more
                  (nl +:+ JSON.stringify_object (JsonWriter.rekey cols r) +:+ EmptyString)
                  (record_tree cols r) _ _
                  (Grammar.element_ws nl _ _ EmptyString eq_refl
                     (stringify_object_parses _) eq_refl)
                  (IH r')) as H.
    rewrite append_nil_r in H.
    cbn [List.map] in H.
    replace (nl +:+ JSON.stringify_object (JsonWriter.rekey cols r) +:+
             (("," +:+ nl) +:+ JSON.stringify_object (JsonWriter.rekey cols r') +:+
              json_records cols false rest) +:+ nl)
      with ((nl +:+ JSON.stringify_object (JsonWriter.rekey cols r)) +:+ "," +:+
            nl +:+ JSON.stringify_object (JsonWriter.rekey cols r') +:+
            json_records cols false rest +:+ nl); [exact H|].
    by rewrite !append_assoc.
Qed.

(** The document of the array-of-objects encoder is a JSON text: the array
    of the records. *)
Lemma json_document_valid (cols : list column) (rows : list row) :
  Grammar.json_text (json_document cols rows)
                    (Grammar.JArray (List.map (record_tree cols) rows)).
Proof.
  unfold Grammar.json_text, json_document. apply element_plain.
  destruct rows as [|r rest].
  - cbn [json_records List.map String.append].
    by apply (Grammar.parses_empty_array nl).
  - replace (json_records cols true (r :: rest) +:+ nl +:+ "]")
      with ((json_records cols true (r :: rest) +:+ nl) +:+ "]")
      by apply append_assoc.
    apply Grammar.parses_array.
    cbn [json_records]. rewrite !append_assoc.
    apply json_records_elements.
Qed.

(* ===================================================================== *)
(** * The three text encoders *)
(* ===================================================================== *)

Lemma fresh_fields (w : world) :
  fresh w = true ->
  headersSent (res w) = false /\ encoded w = [] /\ csv_started w = false /\
  sink_log w = [].
Proof.
  unfold fresh. intros H.
  apply andb_true_iff in H as [H H4]. apply andb_true_iff in H as [H H3].
  apply andb_true_iff in H as [H1 H2].
  destruct (headersSent (res w)), (encoded w), (csv_started w), (sink_log w); done.
Qed.

(** With a database and a sink that do not fail, a text encoder completes
    and has put out the document of the delivered rows. *)
Lemma text_writer_total (f : text_format) (g : db_script) (cols : list column)
    (compress : bool) (w : world) :
  db_ok g = true -> sink_ok w = true -> fresh w = true ->
  exists w',
    text_writer f g cols compress w = (Ok tt, w') /\
    output w' = document f (libs (env w)) cols (delivered (reads g)).
Proof.
  intros Hdb Hs Hf. destruct (fresh_fields w Hf) as (Hh & He & Hc & _).
  assert (Hg : good EmptyString w).
  { split; [exact Hs|]. unfold output. by rewrite He. }
  destruct f; cbn [text_writer document].
  - destruct (writeCsv_total g cols compress (libs (env w)) Hdb w) as ([] & w' & E & _ & Ho);
      [by repeat split|].
    by exists w'.
  - destruct (writeJson_total g cols compress EmptyString Hdb w (conj Hh Hg))
      as ([] & w' & E & _ & Ho).
    by exists w'.
  - destruct (writeXml_total g cols compress EmptyString Hdb w (conj Hh Hg))
      as ([] & w' & E & _ & Ho).
    by exists w'.
Qed.

Lemma script_of_ok (bs : list batch) :
  forallb (fun b => negb (is_nil b)) bs = true ->
  db_ok (script_of bs) = true /\ delivered (reads (script_of bs)) = List.concat bs.
Proof.
  unfold db_ok, script_of. cbn [connect_fails close_fails reads].
  induction bs as [|b bs IH]; intros H; [done|].
  cbn [forallb] in H. apply andb_true_iff in H as [Hb Hbs].
  destruct (IH Hbs) as [IH1 IH2].
  destruct b as [|r b]; [discriminate|].
  cbn [List.map reads_ok delivered List.concat]. by rewrite IH2.
Qed.

(** C5.  For each of the three text encoders, a column mapping and a sink
    that takes every chunk: whatever the partition of a row sequence into
    (non-empty) batches, the run completes and the bytes put out are the
    same; they are the document of the rows, each row once, in the order the
    source delivers them. *)
Theorem batching_does_not_change_output
    (f : text_format) (cols : list column) (compress : bool)
    (bs1 bs2 : list batch) (w : world) :
  forallb (fun b => negb (is_nil b)) bs1 = true ->
  forallb (fun b => negb (is_nil b)) bs2 = true ->
  List.concat bs1 = List.concat bs2 ->
  sink_ok w = true -> fresh w = true ->
  exists w1 w2,
    text_writer f (script_of bs1) cols compress w = (Ok tt, w1) /\
    text_writer f (script_of bs2) cols compress w = (Ok tt, w2) /\
    output w1 = output w2 /\
    output w1 = document f (libs (env w)) cols (List.concat bs1).
Proof.
  intros H1 H2 Hrows Hs Hf.
  destruct (script_of_ok bs1 H1) as [Hdb1 Hd1].
  destruct (script_of_ok bs2 H2) as [Hdb2 Hd2].
  destruct (text_writer_total f _ cols compress w Hdb1 Hs Hf) as (w1 & E1 & O1).
  destruct (text_writer_total f _ cols compress w Hdb2 Hs Hf) as (w2 & E2 & O2).
  exists w1, w2. rewrite Hd1 in O1. rewrite Hd2, <- Hrows in O2.
  repeat split; [exact E1 | exact E2 | by rewrite O1, O2 | exact O1].
Qed.

Lemma batching_does_not_change_output_witness :
  let cols := [Column "id" "ID"; Column "metadata" "meta"] in
  let w := sample_world [Ready; Pending true] in
  exists w1 w2,
    text_writer Xml (script_of [[sample_row]; [sample_row2]; [sample_row]]) cols false w
    = (Ok tt, w1) /\
    text_writer Xml (script_of [[sample_row; sample_row2; sample_row]]) cols false w
    = (Ok tt, w2) /\
    output w1 = output w2 /\
    output w1 = document Xml (libs (env w)) cols
                  (List.concat [[sample_row]; [sample_row2]; [sample_row]]).
Proof.
  intros cols w.
  apply (batching_does_not_change_output Xml cols false
           [[sample_row]; [sample_row2]; [sample_row]]
           [[sample_row; sample_row2; sample_row]] w);
    reflexivity.
Defined.

Lemma batches_from_concat (fuel size : nat) (rows : list row) :
  List.concat (batches_from fuel (S size) rows) = rows.
Proof.
  revert rows. induction fuel as [|fuel IH]; intros rows.
  - destruct rows; [reflexivity|]. cbn. by rewrite app_nil_r.
  - destruct rows as [|r rows]; [reflexivity|].
    cbn [batches_from List.concat]. rewrite IH. apply take_drop.
Qed.

Lemma batches_from_nonempty (fuel size : nat) (rows : list row) :
  forallb (fun b => negb (is_nil b)) (batches_from fuel (S size) rows) = true.
Proof.
  revert rows. induction fuel as [|fuel IH]; intros rows.
  - by destruct rows.
  - destruct rows as [|r rows]; [reflexivity|].
    cbn [batches_from forallb]. rewrite IH. reflexivity.
Qed.

(** Whatever the size of the reads (1, 7, 10000, ...), a text encoder puts
    out the same bytes for the same rows. *)
Corollary batch_size_does_not_change_output
    (f : text_format) (cols : list column) (compress : bool)
    (size1 size2 : nat) (rows : list row) (w : world) :
  sink_ok w = true -> fresh w = true ->
  exists w1 w2,
    text_writer f (script_of (batches_of (S size1) rows)) cols compress w = (Ok tt, w1) /\
    text_writer f (script_of (batches_of (S size2) rows)) cols compress w = (Ok tt, w2) /\
    output w1 = output w2 /\
    output w1 = document f (libs (env w)) cols rows.
Proof.
  intros Hs Hf. unfold batches_of.
  destruct (script_of_ok _ (batches_from_nonempty (length rows) size1 rows)) as [Hdb1 Hd1].
  destruct (script_of_ok _ (batches_from_nonempty (length rows) size2 rows)) as [Hdb2 Hd2].
  destruct (text_writer_total f _ cols compress w Hdb1 Hs Hf) as (w1 & E1 & O1).
  destruct (text_writer_total f _ cols compress w Hdb2 Hs Hf) as (w2 & E2 & O2).
  rewrite Hd1, batches_from_concat in O1. rewrite Hd2, batches_from_concat in O2.
  exists w1, w2. repeat split; [exact E1 | exact E2 | by rewrite O1, O2 | exact O1].
Qed.

Example batches_of_sizes :
  batches_of 1 [sample_row; sample_row2; sample_row]
  = [[sample_row]; [sample_row2]; [sample_row]] /\
  batches_of 2 [sample_row; sample_row2; sample_row]
  = [[sample_row; sample_row2]; [sample_row]] /\
  batches_of 7 [sample_row; sample_row2; sample_row]
  = [[sample_row; sample_row2; sample_row]].
Proof. repeat split. Qed.



(** A nested field of a record is a nested JSON value in its object, not a
    string: the record of the sample row, whose [metadata] is [{a: 1}]. *)
Example json_nested_field_is_an_object :
  record_tree [Column "id" "ID"; Column "metadata" "meta"] sample_row
  = Grammar.JObject
      [("ID", Grammar.JString "1");
       ("meta", Grammar.JObject [("a", Grammar.JNumber "1")])].
Proof. reflexivity. Qed.



(* ===================================================================== *)
(** * routes/exports.js: the handler never sees a writer fail *)
(* ===================================================================== *)

Ltac untouched_modify :=
  apply keeps_modify; intros [? [? ? ? ? [] []] ? ? ? ? ? ? ? ?] [? ?];
  split; cbn in *; repeat case_match; cbn; done.

Lemma setHeader_untouched st code (name val : string) :
  keeps (untouched st code) (fun _ => True) (Res.setHeader name val).
Proof.
  intros w H. unfold Res.setHeader.
  destruct (headersSent (res w)); [exact H|].
  destruct w as [? [] ? ? ? ? ? ? ? ?]. exact H.
Qed.

Lemma write_untouched st code (compress : bool) (chunk : string) :
  keeps (untouched st code) (fun _ => True) (write compress chunk).
Proof.
  intros w H.
  unfold write, Sink.write, Sink.accept, Sink.emit, Sink.once_drain, Sink.log, get, hang, Res.write,
    bind, modify, ret.
  destruct w as [? [? ? ? ? ended gone] ? ? ? due ? ? ? [? answers ? ? ?]].
  unfold untouched in *. cbn in *.
  destruct answers as [|[|[]|e] rest]; destruct compress, ended, gone; cbn; done.
Qed.

Lemma csv_write_row_untouched st code (o : csv_options) (cols : list column)
    (compress : bool) (r : row) :
  keeps (untouched st code) (fun _ => True) (CsvWriter.write_row o cols compress r).
Proof.
  intros w H.
  unfold CsvWriter.write_row, CsvWriter.stringifier_write, CsvWriter.header_if_due,
    Sink.accept, Sink.emit, Sink.once_drain, Sink.log, get, hang, Res.write, bind, modify, ret, get.
  destruct w as [? [? ? ? ? ended gone] ? ? started due ? ? ? [? answers ? ? ?]].
  unfold untouched in *. cbn in *.
  destruct answers as [|[|[]|e] rest];
    destruct (csv_header o), started, compress, ended, gone; cbn; done.
Qed.

Ltac untouched_step :=
  lazymatch goal with
  | |- keeps _ _ (write _ _) => apply write_untouched
  | |- keeps _ _ (Res.setHeader _ _) => apply setHeader_untouched
  | |- keeps _ _ (CsvWriter.write_row _ _ _ _) => apply csv_write_row_untouched
  | |- keeps _ _ (modify _) => untouched_modify
  | |- keeps _ _ hang => apply keeps_hang; done
  | |- forall (f : _) (w : _), untouched _ _ w -> untouched _ _ (with_pool f w) =>
      intros ? [] ?; assumption
  | |- _ => keeps_step
  end.

Lemma text_writer_untouched st code (f : text_format) (g : db_script)
    (cols : list column) (compress : bool) :
  keeps (untouched st code) (fun _ => True) (text_writer f g cols compress).
Proof.
  destruct f; cbn [text_writer];
    unfold CsvWriter.writeCsv, JsonWriter.writeJson, XmlWriter.writeXml;
    repeat untouched_step.
Qed.

Lemma writeParquet_untouched st code (g : db_script) (cols : list column) :
  keeps (untouched st code) (fun _ => True) (ParquetWriter.writeParquet g cols).
Proof.
  unfold ParquetWriter.writeParquet. repeat untouched_step.
Qed.

Lemma abort_stream_completes (compress : bool) (e : error) (w : world) :
  exists a w', abort_stream compress e w = (Ok a, w').
Proof.
  unfold abort_stream, Sink.destroy, Sink.log, Res.destroy, Res.end_unless_ended,
    Res.end', bind, modify, get, ret.
  destruct w as [? [? ? ? ? [] ?] ? ? ? ? ? ? ? ?], compress; cbn; eauto.
Qed.

Lemma csv_catch_completes (e : error) (w : world) :
  exists a w',
    (do _ <- CsvWriter.stringifier_destroy e; Res.end_unless_ended) w = (Ok a, w').
Proof.
  unfold CsvWriter.stringifier_destroy, Sink.log, Res.end_unless_ended,
    Res.end', bind, modify, get, ret.
  destruct w as [? [? ? ? ? [] ?] ? ? ? ? ? ? ? ?]; cbn; eauto.
Qed.

(** No error leaves a text writer that was given a response whose headers
    are not out: the [catch] block of the writer keeps it. *)
Lemma text_writer_never_throws (f : text_format) (g : db_script)
    (cols : list column) (compress : bool) (w : world) :
  headersSent (res w) = false ->
  forall e w', text_writer f g cols compress w <> (Throw e, w').
Proof.
  intros Hf e w'.
  destruct f; cbn [text_writer];
    unfold CsvWriter.writeCsv, JsonWriter.writeJson, XmlWriter.writeXml; cbv zeta;
    unfold bind at 1;
    match goal with
    | |- context [text_headers ?m ?n ?c w] =>
        destruct (text_headers_fresh m n c w Hf) as (w1 & E & _); rewrite E
    end;
    apply try_catch_swallows; intros; first [apply abort_stream_completes | apply csv_catch_completes].
Qed.

(** What the [switch] of the handler can observe of a writer: it returns
    normally, or it never returns. *)
Lemma run_writer_cases (job : Job) (g : db_script) (compress : bool) (w : world) :
  known_format (format job) = true ->
  headersSent (res w) = false ->
  match Exports.run_writer job g compress w with
  | (Ok written, w') =>
      written = true /\ store w' = store w /\ statusCode (res w') = statusCode (res w)
  | (Throw _, _) => False
  | (Hang, _) => True
  end.
Proof.
  intros Hk Hf.
  assert (Hcase : forall m : M unit,
            keeps (untouched (store w) (statusCode (res w))) (fun _ => True) m ->
            (forall e w', m w <> (Throw e, w')) ->
            match (do _ <- m; ret true) w with
            | (Ok written, w') =>
                written = true /\ store w' = store w /\
                statusCode (res w') = statusCode (res w)
            | (Throw _, _) => False
            | (Hang, _) => True
            end).
  { intros m Hkeep Hthrow. unfold bind.
    specialize (Hkeep w (conj eq_refl eq_refl)).
    destruct (m w) as [[[]|e|] w1] eqn:E; cbn.
    - destruct Hkeep. by repeat split.
    - by eapply Hthrow.
    - exact I. }
  unfold Exports.run_writer, known_format in *. cbn [existsb] in Hk.
  destruct (String.eqb (format job) "csv").
  { apply Hcase; [apply (text_writer_untouched _ _ Csv)
                 | apply (text_writer_never_throws Csv); exact Hf]. }
  destruct (String.eqb (format job) "json").
  { apply Hcase; [apply (text_writer_untouched _ _ Json)
                 | apply (text_writer_never_throws Json); exact Hf]. }
  destruct (String.eqb (format job) "xml").
  { apply Hcase; [apply (text_writer_untouched _ _ Xml)
                 | apply (text_writer_never_throws Xml); exact Hf]. }
  destruct (String.eqb (format job) "parquet"); [|discriminate].
  apply Hcase; [apply writeParquet_untouched|].
  intros e w' E.
  destruct (writeParquet_ends_with_unlink g (columns job) w Hf)
    as [(w2 & E2)|(w2 & E2 & _)]; congruence.
Qed.

(** Whatever the database, the sink and the file system do, a download of a
    stored job in one of the four formats never reaches the [catch] block of
    the handler: when it returns, the job is recorded as complete and the
    status code of the response is the one it had. *)
Lemma download_always_records_complete (id : string) (job : Job) (w : world) :
  store w !! id = Some job -> exportId job = id ->
  known_format (format job) = true ->
  forallb (fun c => Db.allowed (source c)) (columns job) = true ->
  headersSent (res w) = false ->
  match Exports.download id w with
  | (Ok _, w') =>
      status <$> store w' !! id = Some "complete" /\
      statusCode (res w') = statusCode (res w)
  | (Throw _, _) => False
  | (Hang, _) => True
  end.
Proof.
  intros Hjob Hid Hk Hcols Hf.
  unfold Exports.download, getJob, Jobs.getJob.
  unfold bind at 1, get at 1. rewrite Hjob.
  assert (Hsel : List.filter (fun c => negb (Db.allowed (source c))) (columns job) = []).
  { induction (columns job) as [|c cs IH]; [reflexivity|].
    cbn [forallb] in Hcols. apply andb_true_iff in Hcols as [Hc Hcs].
    cbn [List.filter]. rewrite Hc. cbn [negb]. by apply IH. }
  unfold bind at 1, Db.buildSelectClause. rewrite Hsel. unfold ret at 1.
  cbv zeta. unfold bind at 1, Db.streamRows, get at 1.
  unfold try_catch. unfold bind at 1.
  match goal with
  | |- context [Exports.run_writer job ?g ?c w] =>
      pose proof (run_writer_cases job g c w Hk Hf) as Hrun;
      destruct (Exports.run_writer job g c w) as [[written|e|] w1]
  end; [|contradiction|exact I].
  destruct Hrun as (-> & Hst & Hcode).
  unfold updateJobStatus, modify. split; [|by destruct w1].
  destruct w1 as [st1 ? ? ? ? ? ? ? ? ?]. cbn in *. subst st1.
  unfold Jobs.updateJobStatus. rewrite Hid, Hjob.
  by rewrite lookup_insert_eq.
Qed.

(* ===================================================================== *)
(** * jobs.js: creating, finding and updating a job *)
(* ===================================================================== *)

(** X1.  [createJob] stores the job it returns under its [exportId], so
    [getJob] finds it; the job is pending; its compression is gzip exactly
    when the caller asked for gzip and is never the empty string ([''] is
    turned into [null]); every other entry of the store is as it was. *)
Theorem createJob_then_getJob (id : string) (now : Z) (fmt : string)
    (cols : list column) (compr : option string) (st : gmap string Job) :
  let created := Jobs.createJob id now fmt cols compr st in
  Jobs.getJob id (snd created) = Some (fst created) /\
  exportId (fst created) = id /\ status (fst created) = "pending" /\
  (compression (fst created) = Some "gzip" <-> compr = Some "gzip") /\
  compression (fst created) <> Some EmptyString /\
  forall id', id' <> id -> Jobs.getJob id' (snd created) = Jobs.getJob id' st.
Proof.
  cbn. unfold Jobs.getJob. rewrite lookup_insert_eq.
  repeat split.
  - destruct compr as [c|]; [|done]. destruct (String.eqb_spec c EmptyString) as [->|]; [done|]. done.
  - intros ->. done.
  - destruct compr as [c|]; [|done]. destruct (String.eqb_spec c EmptyString) as [->|]; [done|]. congruence.
  - intros id' Hne. by rewrite lookup_insert_ne.
Qed.

Lemma last_with_snoc {A B} (key : A -> string) (val : A -> B) (l : list A) (x : A)
    (k : string) :
  last_with key val (l ++ [x]) k
  = if String.eqb (key x) k then Some (val x) else last_with key val l k.
Proof. unfold last_with. by rewrite fold_left_app. Qed.

Lemma updateJobStatus_lookup (id id' s : string) (st : gmap string Job) :
  Jobs.updateJobStatus id s st !! id'
  = (fun job => if String.eqb id id' then Jobs.set_status s job else job) <$> st !! id'.
Proof.
  unfold Jobs.updateJobStatus.
  destruct (String.eqb_spec id id') as [<-|Hne].
  - destruct (st !! id) as [job|] eqn:E.
    + by rewrite lookup_insert_eq.
    + by rewrite E.
  - destruct (st !! id) as [job|] eqn:E.
    + rewrite lookup_insert_ne by done. by destruct (st !! id').
    + by destruct (st !! id').
Qed.

(** X2.  Whatever status updates are made, in whatever order and for
    whatever identifiers, [getJob] afterwards finds exactly the jobs it
    found before: none is created, none is lost, and each is the job it was
    except for its status, which is the one of the last update made for its
    identifier, or its old status when there was none. *)
Theorem updateJobStatus_changes_status_only (updates : list (string * string))
    (st : gmap string Job) (id : string) :
  Jobs.getJob id (fold_left (fun s u => Jobs.updateJobStatus (fst u) (snd u) s) updates st)
  = (fun job => match last_with fst snd updates id with
                | Some s => Jobs.set_status s job
                | None => job
                end) <$> Jobs.getJob id st.
Proof.
  unfold Jobs.getJob.
  induction updates as [|u updates IH] using rev_ind.
  - cbn. by destruct (st !! id).
  - rewrite fold_left_app, last_with_snoc. cbn [fold_left].
    rewrite updateJobStatus_lookup, IH.
    destruct (st !! id) as [job|]; [|done]. cbn.
    destruct (String.eqb (fst u) id); [|done].
    by destruct (last_with fst snd updates id).
Qed.

(* ===================================================================== *)
(** * db.js: the select clause *)
(* ===================================================================== *)

Lemma join_chars (P : ascii -> bool) (sep : string) (l : list string) :
  forallb P (chars sep) = true ->
  Forall (fun s => forallb P (chars s) = true) l ->
  forallb P (chars (join sep l)) = true.
Proof.
  intros Hsep Hl. induction Hl as [|x l Hx Hl IH]; [reflexivity|].
  destruct l as [|y l]; [exact Hx|].
  change (join sep (x :: y :: l)) with (x +:+ sep +:+ join sep (y :: l)).
  rewrite !chars_append, !forallb_app, Hx, Hsep. exact IH.
Qed.

Lemma allowed_chars (s : string) :
  Db.allowed s = true -> forallb clause_char (chars s) = true.
Proof.
  unfold Db.allowed, Db.ALLOWED_COLUMNS. cbn [existsb].
  repeat match goal with
         | |- context [String.eqb s ?k] =>
             destruct (String.eqb_spec s k) as [->|_]; [reflexivity|]
         end.
  cbn. discriminate.
Qed.

Lemma filter_nil_forallb {A} (p : A -> bool) (l : list A) :
  List.filter (fun x => negb (p x)) l = [] <-> forallb p l = true.
Proof.
  induction l as [|x l IH]; cbn; [done|].
  destruct (p x); cbn; [exact IH|]. split; discriminate.
Qed.

(** X3.  [buildSelectClause] returns only when every source is one of the
    five columns of the table; the clause is then the sources in request
    order, each between double quotes, separated by a comma and a space,
    and it holds nothing but letters, underscores, double quotes, commas
    and spaces.  Otherwise it throws, naming in its message exactly the
    sources outside the list, in request order.  Either way it changes
    nothing. *)
Theorem buildSelectClause_allowlist (cols : list column) (w : world) :
  match Db.buildSelectClause cols w with
  | (Ok clause, w') =>
      w' = w /\
      forallb (fun c => Db.allowed (source c)) cols = true /\
      clause = join ", " (List.map (fun c => dq +:+ source c +:+ dq) cols) /\
      forallb clause_char (chars clause) = true
  | (Throw e, w') =>
      w' = w /\
      (exists c, In c cols /\ Db.allowed (source c) = false) /\
      e = "Invalid column(s): " +:+
          join ", " (List.map source
                       (List.filter (fun c => negb (Db.allowed (source c))) cols))
  | (Hang, _) => False
  end.
Proof.
  unfold Db.buildSelectClause.
  destruct (List.filter (fun c => negb (Db.allowed (source c))) cols) as [|c bad] eqn:E.
  - apply (filter_nil_forallb (fun c => Db.allowed (source c))) in E.
    cbn. repeat split; [exact E|].
    apply join_chars; [reflexivity|].
    apply Forall_map, Forall_forall. intros c Hc.
    rewrite forallb_forall in E. apply list_elem_of_In in Hc. specialize (E c Hc).
    cbn. rewrite chars_append, forallb_app, (allowed_chars _ E). reflexivity.
  - unfold throw. split; [reflexivity|]. split; [|reflexivity].
    exists c. assert (Hin : In c (List.filter (fun c => negb (Db.allowed (source c))) cols))
      by (rewrite E; left; reflexivity).
    destruct (proj1 (filter_In _ _ _) Hin) as [Hin' Hb]. split; [exact Hin'|].
    by destruct (Db.allowed (source c)).
Qed.

(* ===================================================================== *)
(** * db.js: the pool and the batches of [streamRows] *)
(* ===================================================================== *)

Lemma resume_accounts (d : db_script) (r : read_result) (w : world) :
  match Db.resume d r w with
  | (Ok (Some _), w') => pool w' = pool w
  | (Ok None, w') => pool w' = closed_and_released (pool w)
  | (Throw _, w') => pool w' = released_only (pool w)
  | (Hang, _) => False
  end.
Proof.
  unfold Db.resume, Db.loop_until_yield, Db.cursor_read, Db.cursor_close,
    Db.client_release, Db.on_pool, try_catch, bind, modify, may_fail, ret, throw.
  destruct r as [rows|e]; simpl.
  - destruct rows as [|x rows]; simpl; [|reflexivity].
    destruct (close_fails d); simpl; by destruct w.
  - by destruct w.
Qed.

Lemma for_await_suspended_accounts {St} (d : db_script) (body : St -> batch -> M St) :
  (forall s b w, pool (body s b w).2 = pool w) ->
  forall (rs : list read_result) (s : St) (w : world),
    match Db.for_await d Db.Suspended rs s body w with
    | (Ok _, w') => pool w' = closed_and_released (pool w)
    | (Throw _, w') => pool w' = released_only (pool w)
    | (Hang, w') => pool w' = pool w
    end.
Proof.
  intros Hbody rs.
  induction rs as [|r rs IH]; intros s w; cbn [Db.for_await Db.next]; unfold bind.
  - unfold Db.resume, Db.loop_until_yield, Db.cursor_read, Db.cursor_close,
      Db.client_release, Db.on_pool, try_catch, bind, modify, may_fail, ret, throw.
    simpl. destruct (close_fails d); simpl; by destruct w.
  - pose proof (resume_accounts d r w) as Hr.
    destruct (Db.resume d r w) as [[[rows|]|e|] w1]; try done.
    unfold try_catch.
    pose proof (Hbody s rows w1) as Hb.
    destruct (body s rows w1) as [[s'|e|] w2]; cbn [snd] in Hb.
    + specialize (IH s' w2).
      destruct (Db.for_await d Db.Suspended rs s' body w2) as [[?|?|] w3];
        rewrite Hb, Hr in IH; exact IH.
    + unfold bind, Db.return_, Db.client_release, Db.on_pool, modify, throw.
      cbn. by rewrite Hb, Hr.
    + by rewrite Hb, Hr.
Qed.

(** X4.  The pool after a loop over [streamRows], for every script of the
    database and every consumer that leaves the pool alone.  A loop that
    ends normally has acquired one client, opened one cursor, closed it and
    released the client.  A loop that ends with an error either was refused
    its connection, and then the pool is untouched, or has acquired one
    client, opened one cursor and released the client without closing the
    cursor.  A loop whose consumer never returns still holds its client and
    its open cursor. *)
Theorem streamRows_pool_accounting {St} (d : db_script) (body : St -> batch -> M St)
    (rs : list read_result) (s : St) (w : world) :
  (forall s b w, pool (body s b w).2 = pool w) ->
  match Db.for_await d Db.Start rs s body w with
  | (Ok _, w') => pool w' = served (pool w)
  | (Throw e, w') =>
      (connect_fails d = Some e /\ pool w' = pool w) \/
      (connect_fails d = None /\ pool w' = released_only (connected (pool w)))
  | (Hang, w') => pool w' = connected (pool w)
  end.
Proof.
  intros Hbody.
  destruct (connect_fails d) as [e|] eqn:Hc.
  - destruct rs; cbn [Db.for_await Db.next];
      unfold bind, Db.pool_connect, bind, may_fail, throw;
      rewrite Hc; left; done.
  - set (w1 := with_pool connected w).
    assert (E : Db.for_await d Db.Start rs s body w
                = Db.for_await d Db.Suspended rs s body w1).
    { destruct rs; cbn [Db.for_await Db.next]; unfold bind at 1;
        unfold Db.next, Db.pool_connect, Db.client_query_cursor, Db.on_pool,
          bind, may_fail, modify, ret; rewrite Hc; destruct w; reflexivity. }
    rewrite E.
    pose proof (for_await_suspended_accounts d body Hbody rs s w1) as H.
    destruct (Db.for_await d Db.Suspended rs s body w1) as [[?|?|] w2];
      rewrite H; [|right; split; [reflexivity|]|]; by destruct w as [? ? ? ? ? ? [] ? ? ?].
Qed.

Lemma streamRows_pool_accounting_witness :
  let d := mkDb None [Rows [sample_row]; ReadFails "read failed"] None in
  let w := sample_world [] in
  match Db.for_await d Db.Start (reads d) tt (fun _ _ => ret tt) w with
  | (Ok _, w') => pool w' = served (pool w)
  | (Throw e, w') =>
      (connect_fails d = Some e /\ pool w' = pool w) \/
      (connect_fails d = None /\ pool w' = released_only (connected (pool w)))
  | (Hang, w') => pool w' = connected (pool w)
  end.
Proof.
  intros d w.
  apply (streamRows_pool_accounting d (fun _ _ => ret tt) (reads d) tt w).
  intros; reflexivity.
Defined.

Lemma next_end_eq (d : db_script) (ph : Db.phase) (w : world) :
  connect_fails d = None -> close_fails d = None -> ph <> Db.Done ->
  Db.next d ph (Rows []) w = (Ok None, with_pool (finished ph) w).
Proof.
  intros Hc Hcl Hph.
  destruct ph; [| |done];
    unfold Db.next, Db.pool_connect, Db.client_query_cursor, Db.resume,
      Db.loop_until_yield, Db.cursor_read, Db.cursor_close, Db.client_release,
      Db.on_pool, try_catch, bind, modify, may_fail, ret;
    rewrite ?Hc, ?Hcl; destruct w; reflexivity.
Qed.

Lemma next_yield_eq (d : db_script) (ph : Db.phase) (x : row) (b : batch) (w : world) :
  connect_fails d = None -> ph <> Db.Done ->
  Db.next d ph (Rows (x :: b)) w = (Ok (Some (x :: b)), with_pool (started ph) w).
Proof.
  intros Hc Hph.
  destruct ph; [| |done];
    unfold Db.next, Db.pool_connect, Db.client_query_cursor, Db.resume,
      Db.loop_until_yield, Db.cursor_read, Db.on_pool, try_catch, bind, modify,
      may_fail, ret;
    rewrite ?Hc; destruct w as [? ? ? ? ? ? [] ? ? ?]; reflexivity.
Qed.

Lemma collect_from (d : db_script) :
  connect_fails d = None -> close_fails d = None ->
  forall (rs : list read_result) (ph : Db.phase) (seen : list batch) (w : world),
    reads_ok rs = true -> ph <> Db.Done ->
    Db.for_await d ph rs seen (fun seen b => ret (seen ++ [b])) w
    = (Ok (seen ++ yielded rs), with_pool (finished ph) w).
Proof.
  intros Hc Hcl rs.
  induction rs as [|r rs IH]; intros ph seen w Hok Hph.
  - cbn [Db.for_await yielded]. unfold bind.
    rewrite (next_end_eq d ph w Hc Hcl Hph), app_nil_r. reflexivity.
  - destruct r as [[|x b]|e]; [| |discriminate].
    + cbn [Db.for_await yielded]. unfold bind.
      rewrite (next_end_eq d ph w Hc Hcl Hph), app_nil_r. reflexivity.
    + cbn [Db.for_await yielded]. unfold bind at 1.
      rewrite (next_yield_eq d ph x b w Hc Hph).
      unfold bind at 1, try_catch, ret at 1.
      rewrite (IH Db.Suspended _ _ Hok ltac:(done)), <- app_assoc.
      destruct ph; [| |done]; destruct w as [? ? ? ? ? ? [] ? ? ?]; reflexivity.
Qed.

(** X5.  With a database that does not fail, a consumer that collects what
    [streamRows] yields ends normally with the batches the cursor read, in
    order, up to the first empty read; none of them is empty, together
    they are the delivered rows, and each counter of the pool has gone up
    by one. *)
Theorem streamRows_yields_every_batch (g : db_script) (w : world) :
  db_ok g = true ->
  Db.for_await_rows g [] (fun seen b => ret (seen ++ [b])) w
  = (Ok (yielded (reads g)), with_pool served w) /\
  Forall (fun b => is_nil b = false) (yielded (reads g)) /\
  List.concat (yielded (reads g)) = delivered (reads g).
Proof.
  intros Hdb. unfold db_ok in Hdb.
  destruct (connect_fails g) eqn:Hc; [discriminate|].
  destruct (close_fails g) eqn:Hcl; [discriminate|].
  split; [|split].
  - unfold Db.for_await_rows.
    by rewrite (collect_from g Hc Hcl (reads g) Db.Start [] w Hdb).
  - clear. induction (reads g) as [|[[|x b]|e] rs IH]; cbn; auto.
  - clear. induction (reads g) as [|[[|x b]|e] rs IH]; cbn; try reflexivity.
    by rewrite IH.
Qed.

Lemma streamRows_yields_every_batch_witness :
  let g := script_of [[sample_row]; [sample_row2; sample_row]] in
  let w := sample_world [] in
  Db.for_await_rows g [] (fun seen b => ret (seen ++ [b])) w
  = (Ok (yielded (reads g)), with_pool served w) /\
  Forall (fun b => is_nil b = false) (yielded (reads g)) /\
  List.concat (yielded (reads g)) = delivered (reads g).
Proof.
  intros g w. apply (streamRows_yields_every_batch g w). reflexivity.
Defined.

(* ===================================================================== *)
(** * routes/exports.js: creating a job *)
(* ===================================================================== *)

Lemma status_json_fresh (code : nat) (payload : object) (w : world) :
  res w = fresh_response ->
  Res.status_json code payload w
  = (Ok tt, with_res (fun _ => json_reply code payload) w).
Proof.
  intros Hr. destruct w as [? r ? ? ? ? ? ? ? ?]. cbn in Hr. subst r. reflexivity.
Qed.

Lemma bad_request_fresh (message : string) (w : world) :
  res w = fresh_response ->
  Router.bad_request message w
  = (Ok tt, with_res (fun _ => json_reply 400 [("error", VStr message)]) w).
Proof. apply status_json_fresh. Qed.

Lemma columns_pass_object (o : object) (items : list value) (w : world) :
  Router.columns_pass (VObj o :: items) w
  = if column_valid (VObj o) then Router.columns_pass items w else (Ok false, w).
Proof.
  cbn [Router.columns_pass column_valid]. unfold bind, Js.member, ret.
  destruct (prop o "source") as [| |b|n|s|iso|l|o'];
    destruct (prop o "target") as [| |b'|n'|t|iso'|l'|o''];
    cbn;
    repeat match goal with
           | |- context [String.eqb ?a EmptyString] =>
               destruct (String.eqb a EmptyString); cbn
           | |- context [forallb Js.zero_digit ?f] =>
               destruct (forallb Js.zero_digit f); cbn
           | b : bool |- _ => destruct b; cbn
           | n : number |- _ => destruct n as [| |? [] ? ?]; cbn
           end;
    reflexivity.
Qed.

Lemma columns_pass_cases (items : list value) (w : world) :
  match Router.columns_pass items w with
  | (Ok pass, w') => w' = w /\ pass = forallb column_valid items
  | (Throw e, w') =>
      w' = w /\
      exists pre col rest,
        items = pre ++ col :: rest /\ forallb column_valid pre = true /\ nullish col = true
  | (Hang, _) => False
  end.
Proof.
  induction items as [|col items IH]; [by split|].
  destruct col as [| |b|n|s|iso|l|o];
    try (cbn; split; [reflexivity|]; eexists [], _, items; repeat split; reflexivity);
    try (cbn; by split).
  rewrite columns_pass_object. cbn [forallb].
  destruct (column_valid (VObj o)) eqn:Ev; [|by split].
  destruct (Router.columns_pass items w) as [[pass|e|] w']; [exact IH| |exact IH].
  destruct IH as (-> & pre & c & rest & -> & Hpre & Hc).
  split; [reflexivity|].
  exists (VObj o :: pre), c, rest. split; [reflexivity|]. split; [|exact Hc].
  cbn [forallb]. by rewrite Ev, Hpre.
Qed.

Lemma column_valid_target (items : list value) :
  forallb column_valid items = true ->
  forallb (fun c => negb (String.eqb (target c) EmptyString))
          (List.map Router.as_column items) = true.
Proof.
  induction items as [|v items IH]; [reflexivity|].
  cbn [forallb List.map]. intros H. apply andb_true_iff in H as [Hv Hi].
  rewrite (IH Hi), andb_true_r.
  destruct v; try discriminate. cbn in *.
  destruct (prop props "source"); try discriminate.
  destruct (prop props "target"); try discriminate.
  cbn. by apply andb_true_iff in Hv as [_ ->].
Qed.

Lemma forallb_both {A} (p q : A -> bool) (l : list A) :
  forallb p l = true -> forallb q l = true -> forallb (fun x => p x && q x) l = true.
Proof.
  induction l as [|x l IH]; [reflexivity|]. cbn.
  intros [-> Hp]%andb_true_iff [-> Hq]%andb_true_iff. by apply IH.
Qed.

(** What [POST /exports] does with a request, whatever its body. *)
Lemma post_cases (now : Z) (body : value) (w : world) :
  res w = fresh_response ->
  match Router.post now body w with
  | (Ok _, w') =>
      (exists o items job,
         body = VObj o /\ prop o "format" = VStr (format job) /\
         prop o "columns" = VArr items /\
         columns job = List.map Router.as_column items /\
         exportId job = uuid (env w) /\ createdAt job = now /\
         storable job = true /\
         w' = with_res (fun _ => created_reply (uuid (env w)))
                (with_store (fun st => <[uuid (env w) := job]> st) w))
      \/
      (exists message,
         w' = with_res (fun _ => json_reply 400 [("error", VStr message)]) w)
  | (Throw _, w') => w' = w
  | (Hang, _) => False
  end.
Proof.
  intros Hr.
  assert (Hbad : forall message,
            match Router.bad_request message w with
            | (Ok _, w') =>
                (exists o items job,
                   body = VObj o /\ prop o "format" = VStr (format job) /\
                   prop o "columns" = VArr items /\
                   columns job = List.map Router.as_column items /\
                   exportId job = uuid (env w) /\ createdAt job = now /\
                   storable job = true /\
                   w' = with_res (fun _ => created_reply (uuid (env w)))
                          (with_store (fun st => <[uuid (env w) := job]> st) w))
                \/
                (exists message,
                   w' = with_res (fun _ => json_reply 400 [("error", VStr message)]) w)
            | (Throw _, w') => w' = w
            | (Hang, _) => False
            end).
  { intros message. rewrite (bad_request_fresh _ _ Hr). right. by exists message. }
  unfold Router.post.
  destruct body as [| |b|n|s|iso|l|o]; try reflexivity;
    try (unfold bind, Js.member, ret; cbn [Js.truthy negb orb]; apply Hbad).
  unfold bind at 1, Js.member at 1, ret at 1.
  unfold bind at 1, Js.member at 1, ret at 1.
  unfold bind at 1, Js.member at 1, ret at 1.
  destruct (negb (Js.truthy (prop o "format"))
            || negb (Router.has Router.VALID_FORMATS (prop o "format"))) eqn:Ef;
    [apply Hbad|].
  apply orb_false_iff in Ef as [_ Hfmt]. apply negb_false_iff in Hfmt.
  destruct (prop o "format") as [| | | |f| | |] eqn:Efmt; try discriminate.
  destruct (prop o "columns") as [| | | | | |[|c cs]|] eqn:Ecols; try apply Hbad.
  unfold bind at 1.
  pose proof (columns_pass_cases (c :: cs) w) as Hpass.
  destruct (Router.columns_pass (c :: cs) w) as [[pass|e|] w1];
    [destruct Hpass as [-> ->] | by destruct Hpass | contradiction].
  destruct (forallb column_valid (c :: cs)) eqn:Hvalid; cbn [negb]; [|apply Hbad].
  destruct (Js.truthy (prop o "compression")
            && negb (Router.has Router.VALID_COMPRESSIONS (prop o "compression")))
    eqn:Ecompr; [apply Hbad|].
  cbv zeta. unfold bind at 1, try_catch, bind at 1, Db.buildSelectClause.
  destruct (List.filter (fun c0 => negb (Db.allowed (source c0)))
              (List.map Router.as_column (c :: cs))) as [|bad1 bad] eqn:Efilter;
    [|apply Hbad].
  unfold ret at 1. unfold ret at 1.
  destruct (Js.equals (VStr f) "parquet" && Js.equals (prop o "compression") "gzip")
    eqn:Epq; [apply Hbad|].
  unfold bind at 1, createJob. cbn [fst snd Jobs.createJob exportId status].
  apply (filter_nil_forallb (fun c0 => Db.allowed (source c0))) in Efilter.
  match goal with
  | |- context [mkJob ?a ?b ?c ?d ?e ?g] => set (job := mkJob a b c d e g)
  end.
  assert (Hst : storable job = true).
  { unfold storable. subst job. cbn [format columns compression status Js.text].
    rewrite (forallb_both _ _ _ Efilter (column_valid_target _ Hvalid)).
    replace (known_format f) with true by (symmetry; exact Hfmt).
    cbn [is_nil List.map negb andb].
    destruct (Js.truthy (prop o "compression")) eqn:Et; [|reflexivity].
    cbn [andb] in Ecompr. apply negb_false_iff in Ecompr.
    destruct (prop o "compression") as [| | | |z| | |]; try discriminate.
    cbn in Ecompr. rewrite orb_false_r in Ecompr.
    apply String.eqb_eq in Ecompr as ->. cbn in Epq. rewrite andb_true_r in Epq.
    cbn. by rewrite Epq. }
  destruct w as [st r sl enc cs' dd pl fl wr en]. cbn in Hr. subst r.
  left. exists o, (c :: cs), job.
  repeat split; try reflexivity; try assumption.
Qed.

(** X6.  [POST /exports] on any body.  When the handler returns, it has
    either answered 201 with the new identifier and the status pending,
    having stored under that identifier one job made of the format and the
    columns of the request, which is one of the four formats, has at least
    one column, only sources of the table and non-empty targets, no
    compression or gzip, never gzip with Parquet; or answered 400 with an
    error message, the store and everything else but the response being
    as before.  When it throws, nothing at all has changed.  It always
    settles. *)
Theorem post_stores_only_valid_jobs (now : Z) (body : value) (w : world) :
  res w = fresh_response ->
  match Router.post now body w with
  | (Ok _, w') =>
      (exists o items job,
         body = VObj o /\ prop o "format" = VStr (format job) /\
         prop o "columns" = VArr items /\
         columns job = List.map Router.as_column items /\
         exportId job = uuid (env w) /\ createdAt job = now /\
         storable job = true /\
         w' = with_res (fun _ => created_reply (uuid (env w)))
                (with_store (fun st => <[uuid (env w) := job]> st) w))
      \/
      (exists message,
         w' = with_res (fun _ => json_reply 400 [("error", VStr message)]) w)
  | (Throw _, w') => w' = w
  | (Hang, _) => False
  end.
Proof. apply post_cases. Qed.

Lemma post_stores_only_valid_jobs_witness :
  let w := sample_world [] in
  match Router.post 0 sample_request w with
  | (Ok _, w') =>
      (exists o items job,
         sample_request = VObj o /\ prop o "format" = VStr (format job) /\
         prop o "columns" = VArr items /\
         columns job = List.map Router.as_column items /\
         exportId job = uuid (env w) /\ createdAt job = 0%Z /\
         storable job = true /\
         w' = with_res (fun _ => created_reply (uuid (env w)))
                (with_store (fun st => <[uuid (env w) := job]> st) w))
      \/
      (exists message,
         w' = with_res (fun _ => json_reply 400 [("error", VStr message)]) w)
  | (Throw _, w') => w' = w
  | (Hang, _) => False
  end.
Proof.
  intros w. apply (post_stores_only_valid_jobs 0 sample_request w). reflexivity.
Defined.

Lemma columns_pass_nullish (pre : list value) (col : value) (rest : list value)
    (w : world) :
  forallb column_valid pre = true -> nullish col = true ->
  Router.columns_pass (pre ++ col :: rest) w
  = (Throw ("Cannot read properties of " +:+
            (match col with VNull => "null" | _ => "undefined" end) +:+
            " (reading 'source')"), w).
Proof.
  intros Hpre Hcol. induction pre as [|v pre IH].
  - destruct col; try discriminate; reflexivity.
  - cbn [forallb] in Hpre. apply andb_true_iff in Hpre as [Hv Hpre].
    destruct v; try discriminate.
    cbn [app]. rewrite columns_pass_object, Hv. by apply IH.
Qed.

(** X7.  A request with a known format whose [columns] array holds [null]
    (or [undefined]) after entries that are all valid makes the handler of
    [POST /exports] throw a TypeError on [col.source]; the error handler of
    the application turns it into a 500 reply carrying the message of the
    TypeError, and no job is stored. *)
Theorem post_null_column_is_a_server_error (now : Z) (o : object) (f : string)
    (pre : list value) (col : value) (rest : list value) (w : world) :
  res w = fresh_response ->
  prop o "format" = VStr f -> known_format f = true ->
  prop o "columns" = VArr (pre ++ col :: rest) ->
  forallb column_valid pre = true -> nullish col = true ->
  App.handle (Router.post now (VObj o)) w
  = (Ok tt,
     with_res (fun _ => json_reply 500
                 [("error", VStr "Internal Server Error");
                  ("message",
                   VStr ("Cannot read properties of " +:+
                         (match col with VNull => "null" | _ => "undefined" end) +:+
                         " (reading 'source')"))]) w).
Proof.
  intros Hr Hfmt Hk Hcols Hpre Hcol.
  unfold App.handle, try_catch, Router.post.
  unfold bind at 1, Js.member at 1, ret at 1.
  unfold bind at 1, Js.member at 1, ret at 1.
  unfold bind at 1, Js.member at 1, ret at 1.
  rewrite Hfmt, Hcols.
  replace (Router.has Router.VALID_FORMATS (VStr f)) with true by (symmetry; exact Hk).
  assert (Hf : Js.truthy (VStr f) = true).
  { cbn. destruct f; [discriminate | reflexivity]. }
  rewrite Hf. cbn [negb orb].
  destruct (pre ++ col :: rest) as [|c cs] eqn:E; [by destruct pre|].
  unfold bind at 1. rewrite <- E, (columns_pass_nullish pre col rest w Hpre Hcol).
  unfold App.error_handler, bind at 1, get. rewrite Hr. cbn [headersSent fresh_response].
  by apply status_json_fresh.
Qed.

Lemma post_null_column_is_a_server_error_witness :
  let valid := VObj [("source", VStr "id"); ("target", VStr "ID")] in
  let o := [("format", VStr "json"); ("columns", VArr [valid; VNull; valid])] in
  let w := sample_world [] in
  App.handle (Router.post 0 (VObj o)) w
  = (Ok tt,
     with_res (fun _ => json_reply 500
                 [("error", VStr "Internal Server Error");
                  ("message",
                   VStr "Cannot read properties of null (reading 'source')")]) w).
Proof.
  intros valid o w.
  apply (post_null_column_is_a_server_error 0 o "json" [valid] VNull [valid] w);
    reflexivity.
Defined.

Lemma storable_allowed (job : Job) :
  storable job = true ->
  known_format (format job) = true /\
  forallb (fun c => Db.allowed (source c)) (columns job) = true.
Proof.
  unfold storable. intros H.
  repeat match type of H with
         | _ && _ = true => apply andb_true_iff in H as [H ?]
         end.
  split; [assumption|].
  match goal with
  | Hc : forallb _ (columns job) = true |- _ =>
      rewrite forallb_forall in Hc; apply forallb_forall; intros c Hin;
      specialize (Hc c Hin); by apply andb_true_iff in Hc as [-> _]
  end.
Qed.

(** X8.  A job that [POST /exports] accepted can be downloaded: the reply
    to the request carries its identifier, and the download of that
    identifier by a later request never throws, whatever the database, the
    sink and the file system do; when it returns, the job is recorded as
    complete and the status code of the response is 200. *)
Theorem posted_job_downloads (now : Z) (body : value) (w w1 : world) :
  res w = fresh_response ->
  Router.post now body w = (Ok tt, w1) ->
  statusCode (res w1) = 201 ->
  res w1 = created_reply (uuid (env w)) /\
  match Exports.download (uuid (env w)) (next_request w1) with
  | (Ok _, w2) =>
      status <$> store w2 !! uuid (env w) = Some "complete" /\
      statusCode (res w2) = 200
  | (Throw _, _) => False
  | (Hang, _) => True
  end.
Proof.
  intros Hr Hpost Hcode.
  pose proof (post_cases now body w Hr) as H. rewrite Hpost in H.
  destruct H as [(o & items & job & _ & _ & _ & _ & Hid & _ & Hst & ->)
                |(message & ->)]; [|discriminate].
  split; [reflexivity|].
  destruct (storable_allowed job Hst) as [Hk Hcols].
  apply (download_always_records_complete (uuid (env w)) job); try assumption.
  - cbn. by rewrite lookup_insert_eq.
  - reflexivity.
Qed.

Lemma posted_job_downloads_witness :
  let w := sample_world [] in
  let w1 := snd (Router.post 0 sample_request w) in
  res w1 = created_reply (uuid (env w)) /\
  match Exports.download (uuid (env w)) (next_request w1) with
  | (Ok _, w2) =>
      status <$> store w2 !! uuid (env w) = Some "complete" /\
      statusCode (res w2) = 200
  | (Throw _, _) => False
  | (Hang, _) => True
  end.
Proof.
  intros w w1.
  apply (posted_job_downloads 0 sample_request w w1); reflexivity.
Defined.

(* ===================================================================== *)
(** * routes/exports.js: the replies of a download *)
(* ===================================================================== *)

(** X9.  The download of an identifier the store does not hold answers 404
    with the error [Export job not found.] and does nothing else: no
    client is acquired, no job is touched, no file is written. *)
Theorem download_unknown_job (id : string) (w : world) :
  store w !! id = None -> res w = fresh_response ->
  Exports.download id w
  = (Ok tt, with_res (fun _ => json_reply 404 [("error", VStr "Export job not found.")]) w).
Proof.
  intros Hid Hr. unfold Exports.download, getJob, Jobs.getJob, bind at 1, get.
  rewrite Hid. by apply status_json_fresh.
Qed.

Lemma download_unknown_job_witness :
  let w := sample_stored "csv" (mkDb None [] None) [] in
  Exports.download "job-2" w
  = (Ok tt, with_res (fun _ => json_reply 404 [("error", VStr "Export job not found.")]) w).
Proof.
  intros w. apply (download_unknown_job "job-2" w); reflexivity.
Defined.

(** X10.  The download of a stored job whose format is none of the four
    takes the [default] branch of the [switch]: it answers 500 with the
    error [Unknown format.] and returns before the status update, so the
    job keeps the status it had, and nothing else has changed. *)
Theorem download_unknown_format (id : string) (job : Job) (w : world) :
  store w !! id = Some job ->
  known_format (format job) = false ->
  forallb (fun c => Db.allowed (source c)) (columns job) = true ->
  res w = fresh_response ->
  Exports.download id w
  = (Ok tt, with_res (fun _ => json_reply 500 [("error", VStr "Unknown format.")]) w).
Proof.
  intros Hid Hk Hcols Hr.
  unfold Exports.download, getJob, Jobs.getJob, bind at 1, get.
  rewrite Hid.
  apply (filter_nil_forallb (fun c => Db.allowed (source c))) in Hcols.
  unfold bind at 1, Db.buildSelectClause. rewrite Hcols. unfold ret at 1. cbv zeta.
  unfold bind at 1, Db.streamRows, get. unfold try_catch, bind at 1.
  unfold Exports.run_writer, known_format in *. cbn [existsb] in Hk.
  repeat match type of Hk with
         | context [String.eqb ?a ?b] => destruct (String.eqb a b); [discriminate|]
         end.
  unfold bind at 1. rewrite (status_json_fresh _ _ _ Hr). reflexivity.
Qed.

Lemma download_unknown_format_witness :
  let w := sample_stored "avro" (mkDb None [] None) [] in
  Exports.download "job-1" w
  = (Ok tt, with_res (fun _ => json_reply 500 [("error", VStr "Unknown format.")]) w).
Proof.
  intros w. apply (download_unknown_format "job-1" (sample_job "avro") w); reflexivity.
Defined.

Lemma ensures_bind {A B} (m : M A) (k : A -> M B) (Q : world -> Prop) :
  (forall a, ensures (k a) Q) -> ensures (bind m k) Q.
Proof.
  intros Hk w b w' E. unfold bind in E.
  destruct (m w) as [[a|e|] w1]; [|discriminate..]. by eapply Hk.
Qed.

Lemma ensures_try_catch {A} (m : M A) (h : error -> M A) (Q : world -> Prop) :
  ensures m Q -> (forall e, ensures (h e) Q) -> ensures (try_catch m h) Q.
Proof.
  intros Hm Hh w a w' E. unfold try_catch in E.
  destruct (m w) as [[a0|e|] w1] eqn:E1; [|by eapply Hh|discriminate].
  inversion E; subst. by eapply Hm.
Qed.

Lemma ensures_try_finally {A} (m : M A) (f : M unit) (Q : world -> Prop) :
  ensures m Q -> (forall w u w', Q w -> f w = (Ok u, w') -> Q w') ->
  ensures (try_finally m f) Q.
Proof.
  intros Hm Hf w a w' E. unfold try_finally, bind in E.
  destruct (m w) as [[a0|e|] w1] eqn:E1; [| |discriminate].
  - destruct (f w1) as [[u|e|] w2] eqn:E2; [|discriminate..].
    inversion E; subst. eapply Hf; [|exact E2]. by eapply Hm.
  - destruct (f w1) as [[u|e'|] w2] eqn:E2; discriminate.
Qed.

Lemma end_ensures_ended : ensures Res.end' ended.
Proof. intros w a w' E. inversion E. reflexivity. Qed.

Lemma end_unless_ended_ensures_ended : ensures Res.end_unless_ended ended.
Proof.
  intros w a w' E. unfold Res.end_unless_ended, bind, get in E.
  destruct (writableEnded (res w)) eqn:Hw; inversion E; subst; [exact Hw | reflexivity].
Qed.

Lemma finish_ensures_ended (compress : bool) : ensures (Sink.finish compress) ended.
Proof. apply ensures_bind. intros _. apply end_ensures_ended. Qed.

Lemma text_writer_ensures_ended (f : text_format) (g : db_script)
    (cols : list column) (compress : bool) :
  ensures (text_writer f g cols compress) ended.
Proof.
  destruct f; cbn [text_writer];
    unfold CsvWriter.writeCsv, JsonWriter.writeJson, XmlWriter.writeXml,
      CsvWriter.stringifier_end, Sink.end', abort_stream;
    repeat first
      [ apply finish_ensures_ended
      | apply end_unless_ended_ensures_ended
      | apply ensures_try_catch
      | apply ensures_bind; intros ?
      | intros ? ].
Qed.

Lemma writeParquet_ensures_ended (g : db_script) (cols : list column) :
  ensures (ParquetWriter.writeParquet g cols) ended.
Proof.
  unfold ParquetWriter.writeParquet.
  do 3 (apply ensures_bind; intros ?).
  apply ensures_try_finally.
  - apply ensures_try_catch; [|intros ?; apply end_unless_ended_ensures_ended].
    do 4 (apply ensures_bind; intros ?).
    unfold ParquetWriter.pipe_to_response.
    apply ensures_bind. intros [bytes|]; [|intros ? ? ? E; discriminate].
    apply ensures_bind. intros [| |].
    + apply ensures_bind. intros ?. apply end_ensures_ended.
    + apply ensures_bind. intros ? ? ? ? E. discriminate.
    + apply ensures_bind. intros ? ? ? ? E. discriminate.
  - intros w u w' H E. inversion E. exact H.
Qed.

Lemma status_json_ensures_ended (code : nat) (payload : object) :
  ensures (Res.status_json code payload) ended.
Proof.
  unfold Res.status_json. do 3 (apply ensures_bind; intros ?). apply end_ensures_ended.
Qed.

Lemma status_json_completes (code : nat) (payload : object) (w : world) :
  headersSent (res w) = false ->
  exists w', Res.status_json code payload w = (Ok tt, w').
Proof.
  intros Hf. destruct w as [? [? ? sent ? ? ?] ? ? ? ? ? ? ? ?]. cbn in Hf. subst sent.
  eexists. reflexivity.
Qed.


Lemma run_writer_keeps_store (job : Job) (g : db_script) (compress : bool) (w : world) :
  match Exports.run_writer job g compress w with
  | (Hang, _) => True
  | (_, w') => store w' = store w
  end.
Proof.
  assert (Hcase : forall m : M unit,
            (forall st code, keeps (untouched st code) (fun _ => True) m) ->
            match (do _ <- m; ret true) w with
            | (Hang, _) => True
            | (_, w') => store w' = store w
            end).
  { intros m Hkeep. unfold bind.
    specialize (Hkeep (store w) (statusCode (res w)) w (conj eq_refl eq_refl)).
    destruct (m w) as [[[]|e|] w1]; cbn; [apply Hkeep | apply Hkeep | exact I]. }
  unfold Exports.run_writer.
  destruct (String.eqb (format job) "csv").
  { apply Hcase. intros. apply (text_writer_untouched _ _ Csv). }
  destruct (String.eqb (format job) "json").
  { apply Hcase. intros. apply (text_writer_untouched _ _ Json). }
  destruct (String.eqb (format job) "xml").
  { apply Hcase. intros. apply (text_writer_untouched _ _ Xml). }
  destruct (String.eqb (format job) "parquet").
  { apply Hcase. intros. apply writeParquet_untouched. }
  unfold bind, Res.status_json, bind, modify, Res.setHeader, Res.write, Res.end', ret.
  destruct w as [? [? ? [] ? ? ?] ? ? ? ? ? ? ? ?]; reflexivity.
Qed.

Lemma status_json_keeps_store (code : nat) (payload : object) (w : world) :
  store (Res.status_json code payload w).2 = store w.
Proof.
  unfold Res.status_json, bind, modify, Res.setHeader, Res.write, Res.end', ret.
  destruct w as [? [? ? [] ? ? ?] ? ? ? ? ? ? ? ?]; reflexivity.
Qed.

(** X12.  A download that returns or throws leaves the job store as it
    was, or as one status update of the job it serves makes it: no other
    job is touched, and of that job nothing but the status is changed. *)
Theorem download_changes_only_its_status (id : string) (w : world) :
  match Exports.download id w with
  | (Hang, _) => True
  | (_, w') =>
      store w' = store w \/
      exists job s,
        store w !! id = Some job /\
        store w' = Jobs.updateJobStatus (exportId job) s (store w)
  end.
Proof.
  unfold Exports.download, getJob, Jobs.getJob, bind at 1, get at 1.
  destruct (store w !! id) as [job|] eqn:Hjob.
  - unfold bind at 1.
    destruct (Db.buildSelectClause (columns job) w) as [[clause|e|] w1] eqn:Eb.
    + assert (w1 = w) as ->.
      { revert Eb. unfold Db.buildSelectClause. case_match; [|discriminate].
        unfold ret. congruence. }
      cbv zeta. unfold bind at 1, Db.streamRows, get at 1. unfold try_catch, bind at 1.
      pose proof (run_writer_keeps_store job (db (env w))
                    (match compression job with
                     | Some c => String.eqb c "gzip" | None => false end) w) as Hrun.
      destruct (Exports.run_writer job _ _ w) as [[written|e|] w2]; [| |exact I].
      * destruct written; [|by left].
        right. exists job, "complete". split; [reflexivity|].
        unfold updateJobStatus, modify. destruct w2. cbn in *. by rewrite Hrun.
      * unfold bind at 1, updateJobStatus, modify.
        unfold bind at 1, get at 1.
        match goal with
        | |- match (if ?b then Res.end' else ?m) ?w0 with _ => _ end =>
            assert (Hs : store ((if b then Res.end' else m) w0).2
                         = Jobs.updateJobStatus (exportId job) "error" (store w));
            [destruct b;
             [destruct w2; cbn in *; by rewrite Hrun
             |rewrite status_json_keeps_store; destruct w2; cbn in *; by rewrite Hrun]
            |destruct ((if b then Res.end' else m) w0) as [[u|e'|] w3]; cbn in Hs;
             [right; by exists job, "error" | right; by exists job, "error" | exact I]]
        end.
    + revert Eb. unfold Db.buildSelectClause. case_match; [discriminate|].
      unfold throw. intros [= _ <-]. by left.
    + revert Eb. unfold Db.buildSelectClause. case_match; discriminate.
  - pose proof (status_json_keeps_store 404 [("error", VStr "Export job not found.")] w) as Hs.
    destruct (Res.status_json 404 _ w) as [[u|e|] w1]; cbn in Hs; [by left | by left | exact I].
Qed.

(* ===================================================================== *)
(** * writers/xmlWriter.js: names, text and nesting *)
(* ===================================================================== *)

Lemma replace_invalid_names (s : string) :
  forallb XmlWriter.name_char (chars (XmlWriter.replace_invalid s)) = true.
Proof.
  induction s as [|c s IH]; [reflexivity|].
  cbn [XmlWriter.replace_invalid chars forallb]. rewrite IH, andb_true_r.
  destruct (XmlWriter.name_char c) eqn:E; [exact E | reflexivity].
Qed.

Lemma replace_invalid_fixes_names (s : string) :
  forallb XmlWriter.name_char (chars s) = true -> XmlWriter.replace_invalid s = s.
Proof.
  induction s as [|c s IH]; [reflexivity|].
  cbn [XmlWriter.replace_invalid chars forallb]. intros H.
  apply andb_true_iff in H as [Hc Hs]. by rewrite Hc, IH.
Qed.

Lemma sanitize_names (s : string) :
  forallb XmlWriter.name_char (chars (XmlWriter.sanitize s)) = true.
Proof.
  unfold XmlWriter.sanitize, XmlWriter.guard_leading_digit.
  pose proof (replace_invalid_names s) as H.
  destruct (XmlWriter.replace_invalid s) as [|c r]; [reflexivity|].
  destruct (is_digit c); [|exact H].
  cbn [chars forallb] in *. exact H.
Qed.

Lemma sanitize_head (s : string) (c : ascii) (rest : string) :
  XmlWriter.sanitize s = String c rest -> is_digit c = false.
Proof.
  unfold XmlWriter.sanitize, XmlWriter.guard_leading_digit.
  destruct (XmlWriter.replace_invalid s) as [|x r]; [discriminate|].
  destruct (is_digit x) eqn:E; intros H; inversion H; subst; [reflexivity | exact E].
Qed.


Lemma unescape_char (c : ascii) (t : string) :
  unescape_from 0 (spec_escape_char c +:+ t) = String c (unescape_from 0 t).
Proof. each_char c; cbn; rewrite ?prefix_nil; reflexivity. Qed.

(** X14.  The escape of the text of a scalar loses nothing: reading the
    five entities back gives the text that was escaped, so two different
    texts never have the same escape. *)
Theorem escape_can_be_undone (s : string) :
  unescape (XmlWriter.escape s) = s /\
  forall s', XmlWriter.escape s = XmlWriter.escape s' -> s = s'.
Proof.
  assert (H : forall t, unescape (XmlWriter.escape t) = t).
  { intros t. unfold unescape.
    induction t as [|c t IH]; [reflexivity|].
    by rewrite escape_cons, unescape_char, IH. }
  split; [apply H|].
  intros s' E. rewrite <- (H s), <- (H s'). by rewrite E.
Qed.

Lemma sanitize_tag_name (tagName : string) : tag_name (XmlWriter.sanitize tagName).
Proof.
  split; [apply sanitize_names|].
  destruct (XmlWriter.sanitize tagName) as [|c rest] eqn:E; [exact I|].
  by eapply sanitize_head.
Qed.

Lemma escape_character_data (s : string) : character_data (XmlWriter.escape s).
Proof. split; [apply escape_no_markup | apply escape_entities]. Qed.


(* ===================================================================== *)
(** * The objects the writers build *)
(* ===================================================================== *)

Lemma obj_set_keys_in {A} (o : list (string * A)) (k k' : string) (v : A) :
  In k' (keys (obj_set o k v)) <-> k' = k \/ In k' (keys o).
Proof.
  unfold keys. induction o as [|[k0 v0] o IH]; cbn.
  - intuition.
  - destruct (String.eqb_spec k0 k) as [->|Hne]; cbn; [intuition|].
    rewrite IH. intuition.
Qed.

Lemma obj_set_keys_NoDup {A} (o : list (string * A)) (k : string) (v : A) :
  List.NoDup (keys (obj_set o k v)) <-> List.NoDup (keys o).
Proof.
  induction o as [|[k0 v0] o IH]; cbn.
  - split; intros _; constructor; [intros [] | constructor].
  - destruct (String.eqb_spec k0 k) as [->|Hne]; cbn; [reflexivity|].
    split; intros H; inversion H as [|? ? Hin Hnd]; subst; constructor.
    + intros Hin'. apply Hin. apply obj_set_keys_in. by right.
    + by apply IH.
    + intros Hin'. apply obj_set_keys_in in Hin' as [->|Hin']; [done | by apply Hin].
    + by apply IH.
Qed.

Lemma obj_set_keys_same {A B} (o : list (string * A)) (o' : list (string * B))
    (k : string) (v : A) (v' : B) :
  keys o = keys o' -> keys (obj_set o k v) = keys (obj_set o' k v').
Proof.
  revert o'. induction o as [|[k0 v0] o IH]; intros [|[k1 v1] o'] H; cbn in *;
    try discriminate; [reflexivity|].
  inversion H; subst. destruct (String.eqb k1 k); cbn; [done|].
  f_equal. by apply IH.
Qed.

Section FoldSet.
Context {A B : Type} (key : A -> string) (val : A -> B).

Lemma fold_set_get (l : list A) (acc : list (string * B)) (k : string) :
  obj_get (fold_left (fun o x => obj_set o (key x) (val x)) l acc) k
  = match last_with key val l k with
    | Some v => Some v
    | None => obj_get acc k
    end.
Proof.
  induction l as [|x l IH] using rev_ind; [reflexivity|].
  rewrite fold_left_app, last_with_snoc. cbn [fold_left].
  rewrite obj_get_set, IH. by destruct (String.eqb (key x) k).
Qed.

Lemma fold_set_keys_in (l : list A) (acc : list (string * B)) (k : string) :
  In k (keys (fold_left (fun o x => obj_set o (key x) (val x)) l acc))
  <-> In k (List.map key l) \/ In k (keys acc).
Proof.
  revert acc. induction l as [|x l IH]; intros acc; cbn [fold_left List.map In];
    [intuition|].
  rewrite IH, obj_set_keys_in. intuition congruence.
Qed.

Lemma fold_set_keys_NoDup (l : list A) (acc : list (string * B)) :
  List.NoDup (keys acc) ->
  List.NoDup (keys (fold_left (fun o x => obj_set o (key x) (val x)) l acc)).
Proof.
  revert acc. induction l as [|x l IH]; intros acc H; cbn [fold_left]; [exact H|].
  apply IH. by apply obj_set_keys_NoDup.
Qed.

End FoldSet.

Lemma fold_set_keys_same {A B C} (key : A -> string) (val : A -> B) (val' : A -> C)
    (l : list A) (acc : list (string * B)) (acc' : list (string * C)) :
  keys acc = keys acc' ->
  keys (fold_left (fun o x => obj_set o (key x) (val x)) l acc)
  = keys (fold_left (fun o x => obj_set o (key x) (val' x)) l acc').
Proof.
  revert acc acc'. induction l as [|x l IH]; intros acc acc' H; cbn; [exact H|].
  apply IH. by apply obj_set_keys_same.
Qed.

Lemma last_with_map {A B C} (key : A -> string) (val : A -> B) (f : B -> C)
    (l : list A) (k : string) :
  last_with key (fun x => f (val x)) l k = f <$> last_with key val l k.
Proof.
  induction l as [|x l IH] using rev_ind; [reflexivity|].
  rewrite !last_with_snoc, IH. by destruct (String.eqb (key x) k).
Qed.

Lemma last_with_some {A B} (key : A -> string) (val : A -> B) (l : list A) (k : string) :
  In k (List.map key l) -> exists x, In x l /\ key x = k /\ last_with key val l k = Some (val x).
Proof.
  induction l as [|x l IH] using rev_ind; [intros []|].
  rewrite map_app, in_app_iff, last_with_snoc. cbn.
  destruct (String.eqb_spec (key x) k) as [E|Hne].
  - intros _. exists x. rewrite in_app_iff. cbn. auto.
  - intros [H|[H|[]]]; [|done].
    destruct (IH H) as (y & Hy & Hk & Hl). exists y. rewrite in_app_iff. auto.
Qed.

(** X16.  The object [writeJson] prints for a row has one property per
    distinct target, whatever the number of columns that name it, and the
    value of a property is the row's value at the source of the last column
    that names it. *)
Theorem rekey_one_property_per_target (cols : list column) (r : row) :
  List.NoDup (keys (JsonWriter.rekey cols r)) /\
  (forall name, In name (keys (JsonWriter.rekey cols r)) <-> In name (List.map target cols)) /\
  (forall name, obj_get (JsonWriter.rekey cols r) name = prop r <$> last_source cols name).
Proof.
  unfold JsonWriter.rekey. split; [|split].
  - apply (fold_set_keys_NoDup target (fun c => prop r (source c))). constructor.
  - intros name.
    rewrite (fold_set_keys_in target (fun c => prop r (source c))). cbn. intuition.
  - intros name.
    rewrite (fold_set_get target (fun c => prop r (source c))).
    rewrite (last_with_map target source (prop r)). cbn.
    change (last_with target source cols name) with (last_source cols name).
    by destruct (last_source cols name).
Qed.

(** X17.  The record [writeCsv] hands to the stringifier and the header
    mapping it gives it have the same names, one per distinct source:
    columns that share a source make one field, headed by the target of the
    last of them, and the field holds the row's value at that source. *)
Theorem csv_one_field_per_source (cols : list column) (r : row) :
  let header := csv_columns (CsvWriter.options cols) in
  let record := CsvWriter.mapped cols r in
  List.NoDup (keys header) /\
  keys record = keys header /\
  (forall src, In src (keys header) <-> In src (List.map source cols)) /\
  (forall src, obj_get header src = last_with source target cols src) /\
  (forall src, In src (List.map source cols) -> obj_get record src = Some (prop r src)).
Proof.
  cbv zeta. cbn [csv_columns CsvWriter.options]. unfold CsvWriter.mapped.
  split; [|split; [|split; [|split]]].
  - apply (fold_set_keys_NoDup source target). constructor.
  - by apply (fold_set_keys_same source).
  - intros src. rewrite (fold_set_keys_in source target). cbn. intuition.
  - intros src. rewrite (fold_set_get source target). cbn.
    by destruct (last_with source target cols src).
  - intros src Hin. rewrite (fold_set_get source (fun c => prop r (source c))).
    destruct (last_with_some source (fun c => prop r (source c)) cols src Hin)
      as (x & _ & Hk & ->). by rewrite Hk.
Qed.

(* ===================================================================== *)
(** * writers/parquetWriter.js: records and the finished file *)
(* ===================================================================== *)

Lemma coerce_cases (src : string) (val : value) (w : world) :
  match ParquetWriter.coerce src val w with
  | (Ok v, w') => v = coerced src val /\ w' = w
  | (Throw e, w') =>
      w' = w /\ src = "id" /\ bigint_error (libs (env w)) val = Some e
  | (Hang, _) => False
  end.
Proof.
  unfold ParquetWriter.coerce, coerced.
  destruct (String.eqb_spec src "id") as [->|_].
  - unfold bind, get, may_fail. by destruct (bigint_error (libs (env w)) val).
  - unfold ret. repeat case_match; simplify_eq; by split.
Qed.

Lemma build_record_from (cols : list column) (r : row) (acc : pq_record) (w : world) :
  match for_of_fold cols acc
          (fun record col =>
             do val <- ParquetWriter.coerce (source col) (prop r (source col));
             ret (obj_set record (target col) val)) w with
  | (Ok record, w') =>
      w' = w /\
      record = fold_left (fun record col =>
                            obj_set record (target col)
                              (coerced (source col) (prop r (source col))))
                         cols acc
  | (Throw e, w') =>
      w' = w /\ In "id" (List.map source cols) /\
      bigint_error (libs (env w)) (prop r "id") = Some e
  | (Hang, _) => False
  end.
Proof.
  revert acc. induction cols as [|c cols IH]; intros acc; cbn [for_of_fold fold_left].
  - by split.
  - unfold bind at 1, bind at 1.
    pose proof (coerce_cases (source c) (prop r (source c)) w) as Hc.
    destruct (ParquetWriter.coerce (source c) (prop r (source c)) w) as [[v|e|] w1].
    + destruct Hc as [-> ->]. unfold ret at 1.
      specialize (IH (obj_set acc (target c) (coerced (source c) (prop r (source c))))).
      destruct (for_of_fold cols _ _ w) as [[record|e|] w']; [exact IH| |exact IH].
      destruct IH as (-> & Hin & He). split; [reflexivity|]. split; [by right | exact He].
    + destruct Hc as (-> & Hs & He). split; [reflexivity|].
      split; [left; exact Hs | by rewrite Hs in He].
    + exact Hc.
Qed.

Lemma build_record_cases (cols : list column) (r : row) (w : world) :
  match ParquetWriter.build_record cols r w with
  | (Ok record, w') => w' = w /\ record = record_of cols r
  | (Throw e, w') =>
      w' = w /\ In "id" (List.map source cols) /\
      bigint_error (libs (env w)) (prop r "id") = Some e
  | (Hang, _) => False
  end.
Proof. apply (build_record_from cols r [] w). Qed.

Lemma type_of_coerced (src : string) (val : value) :
  type_of (coerced src val) = ParquetWriter.getParquetFieldType src.
Proof.
  unfold coerced, ParquetWriter.getParquetFieldType.
  repeat case_match; reflexivity.
Qed.


Lemma total_for_of_in {A} (Inv : list A -> world -> Prop) (body : A -> M unit)
    (l : list A) :
  (forall x pre, In x l -> total (Inv pre) (body x) (fun _ => Inv (pre ++ [x]))) ->
  forall pre, total (Inv pre) (for_of l body) (fun _ => Inv (pre ++ l)).
Proof.
  induction l as [|x l IH]; intros Hb pre; cbn [for_of].
  - intros w H. exists tt, w. by rewrite app_nil_r.
  - eapply total_bind; [apply Hb; by left|].
    intros ?. eapply total_conseq; [apply IH | done |].
    + intros y pre' Hy. apply Hb. by right.
    + intros ? w H. by rewrite <- app_assoc in H.
Qed.

Lemma total_for_await_yielded {St} (Inv : St -> list batch -> world -> Prop)
    (d : db_script) (body : St -> batch -> M St) :
  connect_fails d = None -> close_fails d = None ->
  (forall s pre w w', pool_only w w' -> Inv s pre w -> Inv s pre w') ->
  forall rs ph s pre,
    (forall s b pre, In b (yielded rs) ->
       total (Inv s pre) (body s b) (fun s' => Inv s' (pre ++ [b]))) ->
    reads_ok rs = true -> ph <> Db.Done ->
    total (Inv s pre) (Db.for_await d ph rs s body)
          (fun s' => Inv s' (pre ++ yielded rs)).
Proof.
  intros Hc Hcl Hpool rs.
  induction rs as [|r rs IH]; intros ph s pre Hb Hok Hph w H.
  - cbn [Db.for_await yielded]. rewrite app_nil_r.
    destruct (next_end d ph w Hph Hc Hcl) as (w' & E & Hw').
    exists s, w'. unfold bind. rewrite E. split; [reflexivity | by eapply Hpool].
  - destruct r as [[|x b]|e]; [| |discriminate].
    + cbn [Db.for_await yielded]. rewrite app_nil_r.
      destruct (next_end d ph w Hph Hc Hcl) as (w' & E & Hw').
      exists s, w'. unfold bind. rewrite E. split; [reflexivity | by eapply Hpool].
    + destruct (next_yield d ph x b w Hph Hc) as (w1 & E & Hw1).
      destruct (Hb s (x :: b) pre ltac:(by left) w1 (Hpool _ _ _ _ Hw1 H))
        as (s' & w2 & E2 & H2).
      destruct (IH Db.Suspended s' (pre ++ [x :: b])
                  ltac:(intros ? ? ? Hin; apply Hb; by right) Hok ltac:(done) w2 H2)
        as (s'' & w3 & E3 & H3).
      exists s'', w3.
      split; [|cbn [yielded]; rewrite <- app_assoc in H3; exact H3].
      cbn [Db.for_await]. unfold bind at 1. rewrite E.
      unfold bind at 1, try_catch. rewrite E2. exact E3.
Qed.

Lemma concat_snoc_list (pre : list batch) (b : batch) :
  List.concat (pre ++ [b]) = List.concat pre ++ b.
Proof. rewrite List.concat_app. cbn. by rewrite app_nil_r. Qed.

Lemma yielded_concat (rs : list read_result) :
  List.concat (yielded rs) = delivered rs.
Proof.
  induction rs as [|[[|x b]|e] rs IH]; cbn; try reflexivity. by rewrite IH.
Qed.

Lemma yielded_delivered (rs : list read_result) (b : batch) (r : row) :
  In b (yielded rs) -> In r b -> In r (delivered rs).
Proof.
  induction rs as [|[[|x b0]|e] rs IH]; cbn [yielded delivered In]; try (by intros []).
  intros [<-|Hin] Hr; apply in_app_iff; [by left | right; by apply IH].
Qed.

Lemma coerce_ok (src : string) (r : row) (w : world) :
  bigint_error (libs (env w)) (prop r "id") = None ->
  ParquetWriter.coerce src (prop r src) w = (Ok (coerced src (prop r src)), w).
Proof.
  intros Hid. unfold ParquetWriter.coerce, coerced.
  destruct (String.eqb_spec src "id") as [->|_].
  - unfold bind, get, may_fail. by rewrite Hid.
  - repeat case_match; reflexivity.
Qed.

Lemma build_record_ok (cols : list column) (r : row) (w : world) :
  bigint_error (libs (env w)) (prop r "id") = None ->
  ParquetWriter.build_record cols r w = (Ok (record_of cols r), w).
Proof.
  intros Hid. unfold ParquetWriter.build_record, record_of.
  generalize (@nil (string * pq_value)) as acc.
  induction cols as [|c cols IH]; intros acc; cbn [for_of_fold fold_left]; [reflexivity|].
  unfold bind at 1. unfold bind at 1. rewrite (coerce_ok _ _ _ Hid). unfold ret at 1.
  apply IH.
Qed.

Lemma appendRow_staged (l : libraries) (path : string) (schema : pq_schema)
    (r0 : response) (fl : gmap string string) (records : list pq_record)
    (record : pq_record) :
  total (staged l path schema r0 fl records) (ParquetWriter.appendRow record)
        (fun _ => staged l path schema r0 fl (records ++ [record])).
Proof.
  intros w (Hl & Hfs & Hw & Hr & Hf).
  destruct w as [st r sl enc cs dd pl f wr [d answers [mk op ap cl pi] lb id]].
  cbn in *. subst lb wr r f.
  unfold fs_ok in Hfs. cbn in Hfs.
  destruct mk, op, cl, pi; try discriminate.
  unfold ParquetWriter.appendRow, bind, get, modify, may_fail. cbn.
  destruct ap as [|[e|] ap]; cbn in Hfs; try discriminate;
    eexists tt, _; (split; [reflexivity|]); by repeat split.
Qed.

Lemma staged_pool_only (l : libraries) (path : string) (schema : pq_schema)
    (r0 : response) (fl : gmap string string) (records : list pq_record)
    (w w' : world) :
  pool_only w w' -> staged l path schema r0 fl records w ->
  staged l path schema r0 fl records w'.
Proof.
  intros (_ & Hr & _ & _ & _ & _ & Hf & Hw & He) (H1 & H2 & H3 & H4 & H5).
  unfold staged. by rewrite He, Hw, Hr, Hf.
Qed.

Lemma parquet_rows_staged (l : libraries) (path : string) (cols : list column)
    (r0 : response) (fl : gmap string string) (g : db_script) :
  db_ok g = true ->
  Forall (fun r => bigint_error l (prop r "id") = None) (delivered (reads g)) ->
  total (staged l path (ParquetWriter.buildSchema cols) r0 fl [])
        (Db.for_await_rows g tt
           (fun _ b =>
              for_of b (fun r =>
                do record <- ParquetWriter.build_record cols r;
                ParquetWriter.appendRow record)))
        (fun _ => staged l path (ParquetWriter.buildSchema cols) r0 fl
                    (List.map (record_of cols) (delivered (reads g)))).
Proof.
  intros Hdb Hid. unfold db_ok in Hdb.
  destruct (connect_fails g) eqn:Hc; [discriminate|].
  destruct (close_fails g) eqn:Hcl; [discriminate|].
  unfold Db.for_await_rows.
  eapply total_conseq;
    [apply (total_for_await_yielded
              (fun _ pre => staged l path (ParquetWriter.buildSchema cols) r0 fl
                              (List.map (record_of cols) (List.concat pre)))
              g _ Hc Hcl) with (pre := []); [| |exact Hdb|done] | done |].
  - intros _ pre w w'. apply staged_pool_only.
  - intros _ b pre Hb.
    eapply total_conseq;
      [apply (total_for_of_in
                (fun done' => staged l path (ParquetWriter.buildSchema cols) r0 fl
                                (List.map (record_of cols) (List.concat pre ++ done'))))
         with (pre := []) | |].
    + intros r pre' Hr w Hw.
      assert (Hb' : bigint_error (libs (env w)) (prop r "id") = None).
      { destruct Hw as (-> & _). rewrite List.Forall_forall in Hid.
        apply Hid. by eapply yielded_delivered. }
      destruct (appendRow_staged l path (ParquetWriter.buildSchema cols) r0 fl
                  (List.map (record_of cols) (List.concat pre ++ pre'))
                  (record_of cols r) w Hw)
        as (u & w' & E & H').
      exists u, w'. unfold bind. rewrite (build_record_ok cols r w Hb').
      split; [exact E|]. by rewrite app_assoc, map_app.
    + intros w. by rewrite app_nil_r.
    + intros ? w. by rewrite concat_snoc_list.
  - intros ? w. cbn [app]. by rewrite yielded_concat.
Qed.

Lemma total_try_finally {A} (P : world -> Prop) (Q R : A -> world -> Prop)
    (m : M A) (f : M unit) :
  total P m Q -> (forall a, total (Q a) f (fun _ => R a)) ->
  total P (try_finally m f) R.
Proof.
  intros Hm Hf w H. destruct (Hm w H) as (a & w1 & E & HQ).
  destruct (Hf a w1 HQ) as ([] & w2 & E2 & HR).
  exists a, w2. split; [|exact HR]. unfold try_finally, bind. by rewrite E, E2.
Qed.

Lemma total_get {A} (P : world -> Prop) (f : world -> A) :
  total P (get f) (fun a w => P w /\ a = f w).
Proof. intros w H. by exists (f w), w. Qed.

Lemma setHeader_prepared (l : libraries) (id : string) (r0 : response)
    (fl : gmap string string) (name val : string) :
  headersSent r0 = false ->
  total (prepared l id r0 fl) (Res.setHeader name val)
        (fun _ => prepared l id (Res.set_headers (obj_set (headers r0) name val) r0) fl).
Proof.
  intros Hs w (Hl & Hu & Hfs & Hr & Hf).
  unfold Res.setHeader. rewrite Hr, Hs.
  eexists tt, _. split; [reflexivity|].
  destruct w. cbn in *. subst. by repeat split.
Qed.

Lemma mkdirSync_prepared (l : libraries) (id : string) (r0 : response)
    (fl : gmap string string) :
  total (prepared l id r0 fl) ParquetWriter.mkdirSync (fun _ => prepared l id r0 fl).
Proof.
  intros w H. pose proof H as (_ & _ & Hfs & _).
  unfold ParquetWriter.mkdirSync, bind, get, may_fail.
  unfold fs_ok in Hfs. destruct (mkdir_fails (fs (env w))); [discriminate|].
  by exists tt, w.
Qed.

Lemma openFile_prepared (l : libraries) (id : string) (r0 : response)
    (fl : gmap string string) (schema : pq_schema) (path : string) :
  total (prepared l id r0 fl) (ParquetWriter.openFile schema path)
        (fun _ => staged l path schema r0 (<[path := EmptyString]> fl) []).
Proof.
  intros w (Hl & Hu & Hfs & Hr & Hf).
  unfold ParquetWriter.openFile, bind, get, may_fail, modify.
  pose proof Hfs as Hfs'. unfold fs_ok in Hfs'.
  destruct (mkdir_fails (fs (env w))); [discriminate|].
  destruct (open_fails (fs (env w))); [discriminate|].
  eexists tt, _. split; [reflexivity|].
  destruct w. cbn in *. subst. by repeat split.
Qed.

Lemma writer_close_staged (l : libraries) (path : string) (schema : pq_schema)
    (r0 : response) (fl : gmap string string) (records : list pq_record) :
  total (staged l path schema r0 fl records) ParquetWriter.writer_close
        (fun _ => staged l path schema r0
                    (<[path := parquet_bytes l schema records]> fl) records).
Proof.
  intros w (Hl & Hfs & Hw & Hr & Hf).
  destruct w as [? ? ? ? ? ? ? ? ? [? ? [mk op ap cl pi] ? ?]].
  unfold fs_ok in Hfs. cbn in *. subst.
  destruct mk, op, cl, pi; try discriminate.
  eexists tt, _. split; [reflexivity|]. by repeat split.
Qed.

Lemma pipe_staged (l : libraries) (path : string) (schema : pq_schema)
    (r0 : response) (fl : gmap string string) (records : list pq_record)
    (bytes : string) :
  fl !! path = Some bytes ->
  total (staged l path schema r0 fl records) (ParquetWriter.pipe_to_response path)
        (fun _ => staged l path schema (Res.end_ (Res.write_chunk bytes r0)) fl records).
Proof.
  intros Hb w (Hl & Hfs & Hw & Hr & Hf).
  destruct w as [? ? ? ? ? ? ? ? ? [? ? [mk op ap cl pi] ? ?]].
  unfold fs_ok in Hfs. cbn in *. subst.
  destruct mk, op, cl, pi; try discriminate.
  unfold ParquetWriter.pipe_to_response, bind, get, Res.write, Res.end', modify.
  cbn [files]. rewrite Hb. cbn.
  eexists tt, _. split; [reflexivity|]. by repeat split.
Qed.

Lemma unlink_staged (l : libraries) (path : string) (schema : pq_schema)
    (r0 : response) (fl : gmap string string) (records : list pq_record) :
  total (staged l path schema r0 fl records) (ParquetWriter.unlink path)
        (fun _ => staged l path schema r0 (delete path fl) records).
Proof.
  intros w (Hl & Hfs & Hw & Hr & Hf).
  eexists tt, _. split; [reflexivity|].
  destruct w. cbn in *. subst. by repeat split.
Qed.



(* ===================================================================== *)
(** * The response of the three text encoders *)
(* ===================================================================== *)

Lemma is_nil_snoc {A} (l : list A) (x : A) : is_nil (l ++ [x]) = false.
Proof. by destruct l. Qed.

Lemma streaming_pool_only (l : libraries) (compress : bool) (h : list (string * string))
    (chunks : list string) (w w' : world) :
  pool_only w w' -> streaming l compress h chunks w -> streaming l compress h chunks w'.
Proof.
  intros (_ & Hr & _ & He & _ & _ & _ & _ & Henv) (H1 & H2 & H3 & H4).
  unfold streaming, sink_ok in *. by rewrite Henv, He, Hr.
Qed.

Lemma write_streaming (l : libraries) (compress : bool) (h : list (string * string))
    (chunks : list string) (chunk : string) :
  total (streaming l compress h chunks) (write compress chunk)
        (fun _ => streaming l compress h (chunks ++ [chunk])).
Proof.
  intros w (Hs & Hl & He & Hr).
  destruct w as [st r sl enc started due pl fl wr [d answers fsx lb id]].
  unfold sink_ok in Hs. cbn in Hs, Hl, He, Hr. subst lb enc r.
  unfold streaming, sink_ok. rewrite is_nil_snoc.
  unfold write, Sink.write, Sink.accept, Sink.emit, Sink.once_drain, Sink.log, get, hang,
    Res.write, bind, modify, ret.
  cbn [env sink_answers].
  destruct answers as [|a rest].
  - destruct compress; eexists _, _; (split; [reflexivity|]); cbn; by repeat split.
  - cbn [forallb] in Hs. apply andb_true_iff in Hs as [Ha Hrest].
    destruct a as [|[]|]; try discriminate;
      destruct compress; eexists _, _; (split; [reflexivity|]); cbn; by repeat split.
Qed.

Lemma text_headers_streaming (l : libraries) (mime file : string) (compress : bool) :
  total (fun w => res w = fresh_response /\ sink_ok w = true /\ libs (env w) = l /\
                  encoded w = [])
        (text_headers mime file compress)
        (fun _ => streaming l compress (text_headers_of mime file compress) []).
Proof.
  intros w (Hr & Hs & Hl & He).
  destruct w as [st r sl enc started due pl fl wr en]. cbn in Hr, Hl, He. subst r enc.
  unfold text_headers, bind, Res.setHeader.
  destruct compress; eexists tt, _; (split; [reflexivity|]); by repeat split.
Qed.

Lemma sink_end_streaming (l : libraries) (compress : bool) (h : list (string * string))
    (chunks : list string) :
  total (streaming l compress h chunks) (Sink.end' compress)
        (fun _ => finished_with l compress h chunks).
Proof.
  intros w (Hs & Hl & He & Hr).
  destruct w as [st r sl enc started due pl fl wr [d answers fsx lb id]].
  cbn in Hl, He, Hr. subst lb enc r.
  unfold Sink.end', Sink.log, Sink.finish, Res.write, Res.end', bind, modify, get, ret.
  destruct compress; eexists tt, _; (split; [reflexivity|]); by split.
Qed.

Lemma json_chunks_app (cols : list column) (first : bool) (a b : list row) :
  json_chunks cols first (a ++ b)
  = json_chunks cols first a ++ json_chunks cols (first && is_nil a) b.
Proof.
  revert first. induction a as [|r a IH]; intros first; cbn [json_chunks app is_nil].
  - by rewrite andb_true_r.
  - by rewrite IH, andb_false_r.
Qed.

Lemma write_row_streaming (l : libraries) (compress : bool) (h : list (string * string))
    (cols : list column) (isFirst : bool) (r : row) (done : list row) :
  total (fun w => streaming l compress h ("[" :: json_chunks cols true done) w /\
                  isFirst = is_nil done)
        (JsonWriter.write_row compress cols isFirst r)
        (fun isFirst' w =>
           streaming l compress h ("[" :: json_chunks cols true (done ++ [r])) w /\
           isFirst' = is_nil (done ++ [r])).
Proof.
  intros w [Hg ->].
  rewrite json_chunks_app, is_nil_snoc. cbn [json_chunks andb].
  unfold JsonWriter.write_row.
  destruct (is_nil done).
  - destruct (write_streaming l compress h _
                (nl +:+ JSON.stringify_object (JsonWriter.rekey cols r)) w Hg)
      as ([] & w' & E & Hg').
    exists false, w'. unfold bind. rewrite E. split; [reflexivity|]. split; [exact Hg' | reflexivity].
  - destruct (write_streaming l compress h _
                ("," +:+ nl +:+ JSON.stringify_object (JsonWriter.rekey cols r)) w Hg)
      as ([] & w' & E & Hg').
    exists false, w'. unfold bind. rewrite E. split; [reflexivity|]. split; [exact Hg' | reflexivity].
Qed.

Lemma writeJson_streams (l : libraries) (g : db_script) (cols : list column)
    (compress : bool) :
  db_ok g = true ->
  total (fun w => res w = fresh_response /\ sink_ok w = true /\ libs (env w) = l /\
                  encoded w = [])
        (JsonWriter.writeJson g cols compress)
        (fun _ => finished_with l compress (headers_of Json compress)
                    (chunks_of Json l cols (yielded (reads g)))).
Proof.
  intros Hdb. unfold db_ok in Hdb.
  destruct (connect_fails g) eqn:Hc; [discriminate|].
  destruct (close_fails g) eqn:Hcl; [discriminate|].
  unfold JsonWriter.writeJson. cbn [headers_of chunks_of].
  set (h := text_headers_of "application/json" "export.json" compress).
  eapply total_bind; [apply text_headers_streaming|]. intros ?.
  apply total_try_catch.
  eapply total_bind; [apply write_streaming|]. intros ?. cbn [app].
  eapply total_bind
    with (Q := fun _ => streaming l compress h
                          ("[" :: json_chunks cols true (List.concat (yielded (reads g))))).
  { unfold Db.for_await_rows.
    eapply total_conseq;
      [apply (total_for_await_yielded
                (fun isFirst pre w =>
                   streaming l compress h
                     ("[" :: json_chunks cols true (List.concat pre)) w /\
                   isFirst = is_nil (List.concat pre)) g _ Hc Hcl)
         with (pre := []); [| |exact Hdb|done] | |].
    - intros s pre w w' Hp [Hg Hs]. split; [by eapply streaming_pool_only | exact Hs].
    - intros s b pre _.
      eapply total_conseq;
        [apply (total_for_of_fold
                  (fun isFirst done' w =>
                     streaming l compress h
                       ("[" :: json_chunks cols true (List.concat pre ++ done')) w /\
                     isFirst = is_nil (List.concat pre ++ done'))) with (pre := [])| |].
      + intros s0 x pre0. rewrite app_assoc. apply write_row_streaming.
      + intros w. by rewrite app_nil_r.
      + intros ? w. by rewrite concat_snoc_list.
    - intros w Hg. by split.
    - intros ? w [Hg _]. exact Hg. }
  intros isFirst.
  eapply total_bind; [apply write_streaming|]. intros ?.
  eapply total_conseq; [apply sink_end_streaming | done |].
  intros [] w H. exact H.
Qed.

Lemma writeXml_streams (l : libraries) (g : db_script) (cols : list column)
    (compress : bool) :
  db_ok g = true ->
  total (fun w => res w = fresh_response /\ sink_ok w = true /\ libs (env w) = l /\
                  encoded w = [])
        (XmlWriter.writeXml g cols compress)
        (fun _ => finished_with l compress (headers_of Xml compress)
                    (chunks_of Xml l cols (yielded (reads g)))).
Proof.
  intros Hdb. unfold db_ok in Hdb.
  destruct (connect_fails g) eqn:Hc; [discriminate|].
  destruct (close_fails g) eqn:Hcl; [discriminate|].
  unfold XmlWriter.writeXml. cbn [headers_of chunks_of].
  set (h := text_headers_of "application/xml" "export.xml" compress).
  eapply total_bind; [apply text_headers_streaming|]. intros ?.
  apply total_try_catch.
  eapply total_bind; [apply write_streaming|]. intros ?. cbn [app].
  eapply total_bind
    with (Q := fun _ => streaming l compress h
                          (XmlWriter.prolog ::
                           List.map (XmlWriter.batch_xml cols) (yielded (reads g)))).
  { unfold Db.for_await_rows.
    eapply total_conseq;
      [apply (total_for_await_yielded
                (fun _ pre w =>
                   streaming l compress h
                     (XmlWriter.prolog :: List.map (XmlWriter.batch_xml cols) pre) w)
                g _ Hc Hcl)
         with (pre := []); [| |exact Hdb|done] | |].
    - intros s pre w w'. apply streaming_pool_only.
    - intros s b pre _.
      eapply total_conseq;
        [apply (write_streaming l compress h
                  (XmlWriter.prolog :: List.map (XmlWriter.batch_xml cols) pre))
        | done |].
      intros ? w. by rewrite map_app.
    - intros w Hg. exact Hg.
    - intros ? w Hg. exact Hg. }
  intros ?.
  eapply total_bind; [apply write_streaming|]. intros ?.
  eapply total_conseq; [apply sink_end_streaming | done |].
  intros [] w H. exact H.
Qed.

Lemma csv_chunks_app (l : libraries) (cols : list column) (started : bool)
    (a b : list row) :
  csv_chunks l cols started (a ++ b)
  = csv_chunks l cols started a ++ csv_chunks l cols (started || negb (is_nil a)) b.
Proof.
  revert started. induction a as [|r a IH]; intros started; cbn [csv_chunks app is_nil negb].
  - by rewrite orb_false_r.
  - by rewrite IH, orb_true_r.
Qed.

Lemma csv_write_row_streaming (l : libraries) (compress : bool)
    (h : list (string * string)) (cols : list column) (r : row) (done : list row) :
  total (csv_streaming l compress h cols done)
        (CsvWriter.write_row (CsvWriter.options cols) cols compress r)
        (fun _ => csv_streaming l compress h cols (done ++ [r])).
Proof.
  intros w ((Hs & Hl & He & Hr) & Hst).
  unfold csv_streaming, streaming. rewrite csv_chunks_app, !is_nil_snoc.
  cbn [csv_chunks orb negb].
  destruct w as [st rs sl enc started due pl fl wr [d answers fsx lb id]].
  unfold sink_ok in *. cbn in Hs, Hl, He, Hr, Hst. subst lb enc rs started.
  unfold CsvWriter.write_row, CsvWriter.stringifier_write, CsvWriter.header_if_due,
    Sink.accept, Sink.emit, Sink.once_drain, Sink.log, get, hang, Res.write, bind, modify, ret.
  cbn [env sink_answers libs csv_started CsvWriter.options csv_header].
  destruct answers as [|a rest].
  - destruct done; cbn [is_nil negb andb];
      destruct compress; eexists _, _; (split; [reflexivity|]); cbn;
      rewrite ?append_nil_r; by repeat split.
  - cbn [forallb] in Hs. apply andb_true_iff in Hs as [Ha Hrest].
    destruct a as [|[]|]; try discriminate;
      destruct done; cbn [is_nil negb andb];
      destruct compress; eexists _, _; (split; [reflexivity|]); cbn;
      rewrite ?append_nil_r; by repeat split.
Qed.

Lemma stringifier_end_streaming (l : libraries) (compress : bool)
    (h : list (string * string)) (cols : list column) (done : list row) :
  total (csv_streaming l compress h cols done)
        (CsvWriter.stringifier_end (CsvWriter.options cols) compress)
        (fun _ => finished_with l compress h
                    (match done with
                     | [] =>
                         if String.eqb (csv_format_header l (CsvWriter.options cols))
                                       EmptyString
                         then []
                         else [csv_format_header l (CsvWriter.options cols)]
                     | r :: rest => csv_chunks l cols false (r :: rest)
                     end)).
Proof.
  intros w ((Hs & Hl & He & Hr) & Hst).
  destruct w as [st rs sl enc started due pl fl wr [d answers fsx lb id]].
  cbn in Hl, He, Hr, Hst. subst lb enc rs started. clear Hs.
  unfold CsvWriter.stringifier_end, CsvWriter.header_if_due, Sink.log, Sink.emit,
    Sink.finish, Res.write, Res.end', get, bind, modify, ret.
  unfold finished_with, delivered_response.
  destruct done as [|r done].
  - cbn [csv_chunks is_nil negb].
    assert (Ho : csv_header (CsvWriter.options cols) = true) by reflexivity.
    set (o := CsvWriter.options cols) in *. clearbody o.
    cbn. rewrite Ho. cbn.
    destruct (String.eqb (csv_format_header l o) EmptyString) eqn:Eh;
      destruct compress; cbn; rewrite ?append_nil_r;
      eexists tt, _; (split; [reflexivity|]); by split.
  - set (chunks := csv_chunks l cols false (r :: done)).
    assert (Hn : is_nil chunks = false) by reflexivity. clearbody chunks.
    cbn. rewrite ?andb_false_r. cbn.
    destruct compress; cbn; rewrite ?Hn; cbn;
      eexists tt, _; (split; [reflexivity|]); by split.
Qed.

Lemma writeCsv_streams (l : libraries) (g : db_script) (cols : list column)
    (compress : bool) :
  db_ok g = true ->
  total (fun w => res w = fresh_response /\ sink_ok w = true /\ libs (env w) = l /\
                  encoded w = [] /\ csv_started w = false)
        (CsvWriter.writeCsv g cols compress)
        (fun _ => finished_with l compress (headers_of Csv compress)
                    (chunks_of Csv l cols (yielded (reads g)))).
Proof.
  intros Hdb. unfold db_ok in Hdb.
  destruct (connect_fails g) eqn:Hc; [discriminate|].
  destruct (close_fails g) eqn:Hcl; [discriminate|].
  unfold CsvWriter.writeCsv. cbn [headers_of chunks_of]. cbv zeta.
  set (h := text_headers_of "text/csv" "export.csv" compress).
  eapply total_bind
    with (Q := fun _ => csv_streaming l compress h cols []).
  { intros w (Hr & Hs & Hl & He & Hst).
    destruct (text_headers_streaming l "text/csv" "export.csv" compress w)
      as ([] & w' & E & H'); [by repeat split|].
    exists tt, w'. split; [exact E|]. split; [exact H'|].
    destruct (text_headers_fresh "text/csv" "export.csv" compress w) as (w2 & E2 & Hk);
      [by rewrite Hr|].
    rewrite E in E2. inversion E2; subst w2.
    destruct Hk as (_ & _ & -> & _). exact Hst. }
  intros ?.
  apply total_try_catch.
  eapply total_bind
    with (Q := fun _ => csv_streaming l compress h cols (List.concat (yielded (reads g)))).
  { unfold Db.for_await_rows.
    eapply total_conseq;
      [apply (total_for_await_yielded
                (fun _ pre w => csv_streaming l compress h cols (List.concat pre) w)
                g _ Hc Hcl)
         with (pre := []); [| |exact Hdb|done] | |].
    - intros s pre w w' Hp [Hg Hs]. split; [by eapply streaming_pool_only|].
      destruct Hp as (_ & _ & _ & _ & -> & _). exact Hs.
    - intros s b pre _.
      eapply total_conseq;
        [apply (total_for_of
                  (fun done' w => csv_streaming l compress h cols
                                    (List.concat pre ++ done') w)) with (pre := [])| |].
      + intros x pre0. rewrite app_assoc. apply csv_write_row_streaming.
      + intros w. by rewrite app_nil_r.
      + intros ? w. by rewrite concat_snoc_list.
    - intros w Hg. exact Hg.
    - intros ? w Hg. exact Hg. }
  intros ?. apply stringifier_end_streaming.
Qed.

(** The run of a text encoder that meets no failure, chunk by chunk. *)
Lemma text_writer_streams (f : text_format) (g : db_script) (cols : list column)
    (compress : bool) (w : world) :
  res w = fresh_response -> encoded w = [] -> csv_started w = false ->
  sink_log w = [] ->
  db_ok g = true -> sink_ok w = true ->
  let chunks := chunks_of f (libs (env w)) cols (yielded (reads g)) in
  exists w',
    text_writer f g cols compress w = (Ok tt, w') /\
    encoded w' = chunks /\
    concat chunks = document f (libs (env w)) cols (delivered (reads g)) /\
    res w' = mkResponse (headers_of f compress) 200 true
               (if compress then [gzip (libs (env w)) (concat chunks)] else chunks)
               true false.
Proof.
  intros Hr He Hst Hlog Hdb Hs chunks.
  assert (H : exists w', text_writer f g cols compress w = (Ok tt, w') /\
                         finished_with (libs (env w)) compress (headers_of f compress)
                           chunks w').
  { destruct f; cbn [text_writer].
    - destruct (writeCsv_streams (libs (env w)) g cols compress Hdb w)
        as ([] & w' & E & H'); [by repeat split | by exists w'].
    - destruct (writeJson_streams (libs (env w)) g cols compress Hdb w)
        as ([] & w' & E & H'); [by repeat split | by exists w'].
    - destruct (writeXml_streams (libs (env w)) g cols compress Hdb w)
        as ([] & w' & E & H'); [by repeat split | by exists w']. }
  destruct H as (w' & E & Henc & Hres).
  exists w'. split; [exact E|]. split; [exact Henc|]. split; [|exact Hres].
  destruct (text_writer_total f g cols compress w Hdb Hs) as (w2 & E2 & Ho).
  { unfold fresh. by rewrite Hr, He, Hst, Hlog. }
  rewrite E in E2. inversion E2; subst w2.
  unfold output in Ho. by rewrite <- Henc.
Qed.



Lemma run_writer_text (job : Job) (f : text_format) (g : db_script) (compress : bool) :
  format job = format_name f ->
  Exports.run_writer job g compress
  = (do _ <- text_writer f g (columns job) compress; ret true).
Proof.
  intros Hf. unfold Exports.run_writer. rewrite Hf. by destruct f.
Qed.



(* ===================================================================== *)
(** * The response of an export that fails *)
(* ===================================================================== *)

Lemma triple_of_keeps {A} (J J' : world -> Prop) (m : M A) :
  keeps J J' m -> triple J m (fun _ => J) J.
Proof.
  intros Hk w H. specialize (Hk w H).
  destruct (m w) as [[a|e|] w']; [exact Hk | exact Hk | exact I].
Qed.

Lemma triple_bind {A B} (P : world -> Prop) (Q : A -> world -> Prop)
    (R : B -> world -> Prop) (E : world -> Prop) (m : M A) (k : A -> M B) :
  triple P m Q E -> (forall a, triple (Q a) (k a) R E) -> triple P (bind m k) R E.
Proof.
  intros Hm Hk w H. unfold bind. specialize (Hm w H).
  destruct (m w) as [[a|e|] w1]; [by apply Hk | exact Hm | exact I].
Qed.

Lemma triple_try_catch {A} (P : world -> Prop) (Q : A -> world -> Prop)
    (E E' : world -> Prop) (m : M A) (h : error -> M A) :
  triple P m Q E' -> (forall e, triple E' (h e) Q E) -> triple P (try_catch m h) Q E.
Proof.
  intros Hm Hh w H. unfold try_catch. specialize (Hm w H).
  destruct (m w) as [[a|e|] w1]; [exact Hm | by apply Hh | exact I].
Qed.

Lemma write_under_way (compress : bool) (h : list (string * string)) (chunk : string) :
  keeps (under_way compress h) (fun _ => True) (write compress chunk).
Proof.
  intros w (Hc & Hh & He & Hd & Hb).
  unfold write, Sink.write, Sink.accept, Sink.emit, Sink.once_drain, Sink.log, get, hang,
    Res.write, bind, modify, ret.
  destruct w as [st [hd code sent bd ended gone] sl enc started due pl fl wr
                 [d answers fsx lb id]].
  cbn in Hc, Hh, He, Hd, Hb. subst code hd ended gone bd.
  unfold under_way.
  destruct answers as [|[|[]|e] rest]; destruct compress; cbn; done.
Qed.

Lemma csv_write_row_under_way (compress : bool) (h : list (string * string))
    (o : csv_options) (cols : list column) (r : row) :
  keeps (under_way compress h) (fun _ => True) (CsvWriter.write_row o cols compress r).
Proof.
  intros w (Hc & Hh & He & Hd & Hb).
  unfold CsvWriter.write_row, CsvWriter.stringifier_write, CsvWriter.header_if_due,
    Sink.accept, Sink.emit, Sink.once_drain, Sink.log, get, hang, Res.write, bind, modify, ret.
  destruct w as [st [hd code sent bd ended gone] sl enc started due pl fl wr
                 [d answers fsx lb id]].
  cbn in Hc, Hh, He, Hd, Hb. subst code hd ended gone bd.
  unfold under_way.
  destruct answers as [|[|[]|e] rest];
    destruct (csv_header o), started, compress; cbn; done.
Qed.

Ltac under_way_step :=
  lazymatch goal with
  | |- keeps _ _ (write _ _) => apply write_under_way
  | |- keeps _ _ (CsvWriter.write_row _ _ _ _) => apply csv_write_row_under_way
  | |- forall (f : _) (w : _), under_way _ _ w -> under_way _ _ (with_pool f w) =>
      intros ? [] ?; assumption
  | |- _ => keeps_step
  end.

Lemma text_headers_under_way (mime file : string) (compress : bool) :
  triple (fun w => res w = fresh_response /\ encoded w = [])
         (text_headers mime file compress)
         (fun _ => under_way compress (text_headers_of mime file compress))
         (fun _ => False).
Proof.
  intros w (Hr & He).
  destruct w as [st r sl enc started due pl fl wr en]. cbn in Hr, He. subst r enc.
  unfold text_headers, bind, Res.setHeader.
  destruct compress; cbn; by repeat split.
Qed.

Lemma sink_end_over (compress : bool) (h : list (string * string)) :
  triple (under_way compress h) (Sink.end' compress) (fun _ => over compress h)
         (under_way compress h).
Proof.
  intros w (Hc & Hh & He & Hd & Hb).
  unfold Sink.end', Sink.log, Sink.finish, Res.write, Res.end', bind, modify, get, ret.
  destruct w as [st [hd code sent bd ended gone] sl enc started due pl fl wr en].
  cbn in Hc, Hh, He, Hd, Hb. subst code hd ended gone bd.
  destruct compress; cbn; repeat split; by right.
Qed.

Lemma abort_stream_over (compress : bool) (h : list (string * string)) (e : error) :
  triple (under_way compress h) (abort_stream compress e) (fun _ => over compress h)
         (fun _ => False).
Proof.
  intros w (Hc & Hh & He & Hd & Hb).
  unfold abort_stream, Sink.destroy, Sink.log, Res.destroy, Res.end_unless_ended,
    Res.end', bind, modify, get, ret.
  destruct w as [st [hd code sent bd ended gone] sl enc started due pl fl wr en].
  cbn in Hc, Hh, He, Hd, Hb. subst code hd ended gone bd.
  destruct compress; cbn; repeat split; by left.
Qed.

Lemma stringifier_end_over (compress : bool) (h : list (string * string))
    (o : csv_options) :
  triple (under_way compress h) (CsvWriter.stringifier_end o compress)
         (fun _ => over compress h) (under_way compress h).
Proof.
  intros w (Hc & Hh & He & Hd & Hb).
  unfold CsvWriter.stringifier_end, CsvWriter.header_if_due, Sink.log, Sink.emit,
    Sink.finish, Res.write, Res.end', get, bind, modify, ret.
  destruct w as [st [hd code sent bd ended gone] sl enc started due pl fl wr
                 [d answers fsx lb id]].
  cbn in Hc, Hh, He, Hd, Hb. subst code hd ended gone bd.
  cbn. destruct (csv_header o && negb started); cbn;
    [destruct (String.eqb (csv_format_header lb o) EmptyString)|];
    destruct compress; cbn; repeat split; by right.
Qed.

Lemma csv_catch_over (compress : bool) (h : list (string * string)) (e : error) :
  triple (under_way compress h)
         (do _ <- CsvWriter.stringifier_destroy e; Res.end_unless_ended)
         (fun _ => over compress h) (fun _ => False).
Proof.
  intros w (Hc & Hh & He & Hd & Hb).
  unfold CsvWriter.stringifier_destroy, Sink.log, Res.end_unless_ended,
    Res.end', bind, modify, get, ret.
  destruct w as [st [hd code sent bd ended gone] sl enc started due pl fl wr en].
  cbn in Hc, Hh, He, Hd, Hb. subst code hd ended gone bd.
  destruct compress; cbn; repeat split; by left.
Qed.

Lemma text_writer_triple (f : text_format) (g : db_script) (cols : list column)
    (compress : bool) :
  triple (fun w => res w = fresh_response /\ encoded w = [])
         (text_writer f g cols compress)
         (fun _ => over compress (headers_of f compress))
         (fun _ => False).
Proof.
  destruct f; cbn [text_writer headers_of];
    unfold CsvWriter.writeCsv, JsonWriter.writeJson, XmlWriter.writeXml; cbv zeta.
  - eapply triple_bind; [apply text_headers_under_way|]. intros ?.
    eapply triple_try_catch; [|apply csv_catch_over].
    eapply triple_bind; [|intros ?; apply stringifier_end_over].
    apply (triple_of_keeps _ (fun _ => True)). repeat under_way_step.
  - eapply triple_bind; [apply text_headers_under_way|]. intros ?.
    eapply triple_try_catch; [|apply abort_stream_over].
    eapply triple_bind; [apply (triple_of_keeps _ (fun _ => True)); repeat under_way_step|].
    intros ?.
    eapply triple_bind; [apply (triple_of_keeps _ (fun _ => True)); repeat under_way_step|].
    intros ?.
    eapply triple_bind; [apply (triple_of_keeps _ (fun _ => True)); repeat under_way_step|].
    intros ?. apply sink_end_over.
  - eapply triple_bind; [apply text_headers_under_way|]. intros ?.
    eapply triple_try_catch; [|apply abort_stream_over].
    eapply triple_bind; [apply (triple_of_keeps _ (fun _ => True)); repeat under_way_step|].
    intros ?.
    eapply triple_bind; [apply (triple_of_keeps _ (fun _ => True)); repeat under_way_step|].
    intros ?.
    eapply triple_bind; [apply (triple_of_keeps _ (fun _ => True)); repeat under_way_step|].
    intros ?. apply sink_end_over.
Qed.



Lemma for_await_ok_db {St} (d : db_script) (body : St -> batch -> M St)
    (rs : list read_result) :
  forall (ph : Db.phase) (s s' : St) (w w' : world),
    ph <> Db.Done ->
    Db.for_await d ph rs s body w = (Ok s', w') ->
    (ph = Db.Start -> connect_fails d = None) /\
    reads_ok rs = true /\ close_fails d = None.
Proof.
  assert (Hend : forall ph (s s' : St) w w', ph <> Db.Done ->
            (do _ <- Db.next d ph (Rows []); ret s) w = (Ok s', w') ->
            (ph = Db.Start -> connect_fails d = None) /\ close_fails d = None).
  { intros ph s s' w w' Hph.
    destruct ph; [| |done];
      unfold Db.next, Db.pool_connect, Db.client_query_cursor, Db.resume,
        Db.loop_until_yield, Db.cursor_read, Db.cursor_close, Db.client_release,
        Db.on_pool, try_catch, bind, modify, may_fail, ret, throw;
      destruct (connect_fails d), (close_fails d); cbn; try discriminate; done. }
  induction rs as [|r rs IH]; intros ph s s' w w' Hph E.
  - cbn [Db.for_await] in E. destruct (Hend ph s s' w w' Hph E). by repeat split.
  - destruct r as [[|x b]|e].
    + cbn [Db.for_await] in E.
      assert (E' : (do _ <- Db.next d ph (Rows []); ret s) w = (Ok s', w')).
      { revert E. unfold bind.
        destruct (Db.next d ph (Rows []) w) as [[[rows|]|?|] w1] eqn:En; try done.
        exfalso. revert En.
        destruct ph; [| |done];
          unfold Db.next, Db.pool_connect, Db.client_query_cursor, Db.resume,
            Db.loop_until_yield, Db.cursor_read, Db.cursor_close, Db.client_release,
            Db.on_pool, try_catch, bind, modify, may_fail, ret, throw;
          destruct (connect_fails d), (close_fails d); cbn; discriminate. }
      destruct (Hend ph s s' w w' Hph E'). by repeat split.
    + cbn [Db.for_await] in E. unfold bind at 1 in E.
      destruct (Db.next d ph (Rows (x :: b)) w) as [[[rows|]|?|] w1] eqn:En; try done.
      * unfold bind at 1 in E.
        destruct (try_catch (body s rows) _ w1) as [[s1|?|] w2]; try done.
        destruct (IH Db.Suspended s1 s' w2 w' ltac:(done) E) as (_ & Hr & Hc).
        split; [|by split].
        intros ->. revert En.
        unfold Db.next, Db.pool_connect, bind, may_fail, throw.
        by destruct (connect_fails d).
      * exfalso. revert En.
        destruct ph; [| |done];
          unfold Db.next, Db.pool_connect, Db.client_query_cursor, Db.resume,
            Db.loop_until_yield, Db.cursor_read, Db.cursor_close, Db.client_release,
            Db.on_pool, try_catch, bind, modify, may_fail, ret, throw;
          destruct (connect_fails d); cbn; discriminate.
    + exfalso. revert E. cbn [Db.for_await]. unfold bind at 1.
      destruct ph; [| |done];
        unfold Db.next, Db.pool_connect, Db.client_query_cursor, Db.resume,
          Db.loop_until_yield, Db.cursor_read, Db.cursor_close, Db.client_release,
          Db.on_pool, try_catch, bind, modify, may_fail, ret, throw;
        destruct (connect_fails d); cbn; discriminate.
Qed.

Ltac response_step :=
  lazymatch goal with
  | |- keeps _ _ (modify _) =>
      apply keeps_modify; intros [] ?; unfold response_is in *; cbn in *;
      repeat case_match; done
  | |- forall (f : _) (w : _), response_is _ w -> response_is _ (with_pool f w) =>
      intros ? [] ?; assumption
  | |- _ => keeps_step
  end.

Lemma parquet_block_fails (g : db_script) (cols : list column) (tmp : string)
    (r0 : response) (w : world) :
  res w = r0 -> writableEnded r0 = false -> db_ok g = false ->
  exists w',
    try_catch
      (do _ <- ParquetWriter.mkdirSync;
       let schema := ParquetWriter.buildSchema cols in
       do _ <- ParquetWriter.openFile schema tmp;
       do _ <- Db.for_await_rows g tt
                 (fun _ b =>
                    for_of b (fun r =>
                      do record <- ParquetWriter.build_record cols r;
                      ParquetWriter.appendRow record));
       do _ <- ParquetWriter.writer_close;
       ParquetWriter.pipe_to_response tmp)
      (fun err => Res.end_unless_ended) w
    = (Ok tt, w') /\
    res w' = Res.end_ r0.
Proof.
  intros Hr Hended Hdb.
  assert (Hcatch : forall w1, res w1 = r0 ->
            exists w', Res.end_unless_ended w1 = (Ok tt, w') /\ res w' = Res.end_ r0).
  { intros w1 H1. unfold Res.end_unless_ended, bind, get. rewrite H1, Hended.
    eexists. split; [reflexivity|]. destruct w1. cbn in *. by subst. }
  assert (K1 : keeps (response_is r0) (fun _ => False) ParquetWriter.mkdirSync)
    by repeat response_step.
  assert (K2 : keeps (response_is r0) (fun _ => False)
                 (ParquetWriter.openFile (ParquetWriter.buildSchema cols) tmp))
    by repeat response_step.
  assert (K3 : keeps (response_is r0) (fun _ => False)
                 (Db.for_await_rows g tt
                    (fun _ b =>
                       for_of b (fun r =>
                         do record <- ParquetWriter.build_record cols r;
                         ParquetWriter.appendRow record))))
    by repeat response_step.
  unfold try_catch. cbv zeta. unfold bind at 1.
  specialize (K1 w Hr).
  destruct (ParquetWriter.mkdirSync w) as [[?|?|] w1]; [|by apply Hcatch|contradiction].
  unfold bind at 1. specialize (K2 w1 K1).
  destruct (ParquetWriter.openFile _ tmp w1) as [[?|?|] w2];
    [|by apply Hcatch|contradiction].
  unfold bind at 1. specialize (K3 w2 K2).
  destruct (Db.for_await_rows g tt _ w2) as [[u|?|] w3] eqn:E;
    [|by apply Hcatch|contradiction].
  exfalso. unfold Db.for_await_rows in E.
  destruct (for_await_ok_db g _ (reads g) Db.Start tt u w2 w3 ltac:(done) E)
    as (Hc & Hreads & Hcl).
  unfold db_ok in Hdb. by rewrite (Hc eq_refl), Hcl, Hreads in Hdb.
Qed.


